(** * RobotSpareBin order robot ([tasks.py]): a shallow embedding

    The script is a straight-line pipeline of calls into libraries: one
    HTTP download, one table read, browser actions per order, a PDF
    merge per order and one zip archive.  The embedding keeps that shape:

    - [Path] follows [pathlib.PurePosixPath] (parsing, [/], [str],
      [parent]);
    - the file system is a finite map from resolved paths to nodes;
    - everything the script calls but does not define (the web site seen
      through the browser, the HTTP server, the table reader) is a record
      [Outside] over which the theorems quantify;
    - the script itself is written in a state-and-exception monad [M]
      whose state records the page, the file system and the trace of
      outside calls; the [while] loop takes fuel and reports [Diverge]
      when it runs out. *)

From stdpp Require Import gmap strings list fin_maps pretty.
From Stdlib Require Import ZArith Lia Ascii.

#[local] Set Warnings "-register-all".
#[local] Open Scope string_scope.
#[local] Open Scope nat_scope.
#[local] Open Scope list_scope.

(** ** Paths (pathlib) *)

Module Pathlib.

Definition slash : ascii := "/"%char.

(** [s.split("/")]: the pieces between slashes, empty pieces included. *)
Fixpoint split_slash (s : string) : list string :=
  match s with
  | EmptyString => [""]
  | String c r =>
      if Ascii.eqb c slash then "" :: split_slash r
      else match split_slash r with
           | [] => [String c ""]
           | x :: xs => String c x :: xs
           end
  end.

(** ["/".join(l)]. *)
Fixpoint join_slash (l : list string) : string :=
  match l with
  | [] => ""
  | [x] => x
  | x :: r => x +:+ "/" +:+ join_slash r
  end.

(** A pure path: whether it is anchored at the root, and its components.
    Empty components and ["."] never occur in a parsed path; [".."] is
    kept, as pathlib does. *)
Record Path := mkPath { absolute : bool; parts : list string }.

Definition is_name (x : string) : Prop := x ≠ "" ∧ x ≠ ".".

#[global] Instance is_name_dec x : Decision (is_name x).
Proof. unfold is_name. apply _. Defined.

Definition starts_with_slash (s : string) : bool :=
  match s with
  | String c _ => Ascii.eqb c slash
  | EmptyString => false
  end.

(** [Path(s)]. *)
Definition Path_of_string (s : string) : Path :=
  {| absolute := starts_with_slash s;
     parts := filter is_name (split_slash s) |}.

(** [p / s]: an absolute right operand replaces the left one. *)
Definition Path_div (p : Path) (s : string) : Path :=
  let q := Path_of_string s in
  if absolute q then q
  else {| absolute := absolute p; parts := parts p ++ parts q |}.

(** [str(p)]. *)
Definition Path_str (p : Path) : string :=
  match parts p with
  | [] => if absolute p then "/" else "."
  | _ => (if absolute p then "/" else "") +:+ join_slash (parts p)
  end.

(** [p.parent]. *)
Definition Path_parent (p : Path) : Path :=
  {| absolute := absolute p; parts := removelast (parts p) |}.

(** What the operating system makes of the components of a path, walking
    from the directory [stack]: a name goes down, [".."] goes up.  The
    walk is lexical, as [os.path.normpath] is: the model has no symbolic
    links and does not ask that a directory left again by [".."] exists. *)
Fixpoint normalise (stack l : list string) : list string :=
  match l with
  | [] => stack
  | x :: r =>
      if decide (x = "..") then normalise (removelast stack) r
      else normalise (stack ++ [x]) r
  end.

(** The location a path names for a process whose working directory is
    [cwd]: the list of names from the root. *)
Definition resolve (cwd : list string) (p : Path) : list string :=
  normalise (if absolute p then [] else cwd) (parts p).

(** A path given to a library as a string is parsed again there. *)
Definition resolve_str (cwd : list string) (s : string) : list string :=
  resolve cwd (Path_of_string s).

End Pathlib.
Export Pathlib.

Infix "/p" := Path_div (at level 40, left associativity).

(** ** File contents and the file system *)

Inductive data :=
  | Bytes (s : string)                         (* raw bytes, e.g. the CSV *)
  | Image (s : string)                         (* a PNG screenshot *)
  | Pdf (pages : list data)                    (* one page per merged file *)
  | Zip (members : gmap (list string) data).   (* member name -> content *)

Inductive node := File (d : data) | Dir.

Abbreviation filesystem := (gmap (list string) node).

(** Python exceptions the script can meet. *)
Inductive PyExc :=
  | ValueError (msg : string)
  | FileNotFoundError (msg : string)
  | FileExistsError
  | NotADirectoryError
  | IsADirectoryError
  | HTTPError (status : Z)                 (* requests: raise_for_status *)
  | ConnectionError                        (* requests: no response at all *)
  | PlaywrightError (msg : string)         (* browser: timeout, detached, ... *)
  | TableError (msg : string).             (* RPA.Tables could not read *)

Module FS.

Definition is_dir (fs : filesystem) (k : list string) : bool :=
  match k with
  | [] => true
  | _ => match fs !! k with Some Dir => true | _ => false end
  end.

Definition is_file (fs : filesystem) (k : list string) : bool :=
  match fs !! k with Some (File _) => true | _ => false end.

Definition no_entry : PyExc := FileNotFoundError "No such file or directory".

(** Why a name cannot be created or opened below [k]'s parent. *)
Definition parent_error (fs : filesystem) (k : list string) : PyExc :=
  if is_file fs (removelast k) then NotADirectoryError else no_entry.

(** [os.mkdir]. *)
Definition os_mkdir (k : list string) (fs : filesystem) : PyExc + filesystem :=
  match k with
  | [] => inl FileExistsError
  | _ =>
      match fs !! k with
      | Some _ => inl FileExistsError
      | None =>
          if is_dir fs (removelast k) then inr (<[k := Dir]> fs)
          else inl (parent_error fs k)
      end
  end.

(** [os.makedirs(exist_ok=True)], walking down from [above]. *)
Fixpoint makedirs (above todo : list string) (fs : filesystem)
  : PyExc + filesystem :=
  match todo with
  | [] => inr fs
  | x :: r =>
      let k := above ++ [x] in
      match fs !! k with
      | Some Dir => makedirs k r fs
      | Some (File _) =>
          inl (match r with [] => FileExistsError | _ => NotADirectoryError end)
      | None => makedirs k r (<[k := Dir]> fs)
      end
  end.

(** [Path.mkdir(parents=..., exist_ok=...)] at the location [k]:
    try [os.mkdir]; a missing parent is created first when [parents] is
    set; any other failure is forgiven when [exist_ok] is set and the
    location is a directory. *)
Definition Path_mkdir (parents exist_ok : bool) (k : list string)
    (fs : filesystem) : PyExc + filesystem :=
  match os_mkdir k fs with
  | inr fs' => inr fs'
  | inl (FileNotFoundError m) =>
      if parents then
        match makedirs [] (removelast k) fs with
        | inr fs' => os_mkdir k fs'
        | inl e => inl e
        end
      else inl (FileNotFoundError m)
  | inl e => if exist_ok && is_dir fs k then inr fs else inl e
  end.

(** Opening [k] for writing and storing [d] there ([write_bytes], and
    the writes the libraries do). *)
Definition write_file (k : list string) (d : data) (fs : filesystem)
  : PyExc + filesystem :=
  match k with
  | [] => inl IsADirectoryError
  | _ =>
      match fs !! k with
      | Some Dir => inl IsADirectoryError
      | _ =>
          if is_dir fs (removelast k) then inr (<[k := File d]> fs)
          else inl (parent_error fs k)
      end
  end.

(** Reading the file at [k]. *)
Definition read_file (k : list string) (fs : filesystem) : PyExc + data :=
  match fs !! k with
  | Some (File d) => inr d
  | Some Dir => inl IsADirectoryError
  | None => inl no_entry
  end.

(** The regular files below directory [k], keyed by their path relative
    to [k] ([os.walk], all levels). *)
Definition files_under (k : list string) (fs : filesystem)
  : gmap (list string) data :=
  list_to_map
    (omap (λ kv : list string * node,
             match kv.2 with
             | File d =>
                 if decide (k `prefix_of` kv.1 ∧ k ≠ kv.1)
                 then Some (drop (length k) kv.1, d) else None
             | Dir => None
             end)
          (map_to_list fs)).

End FS.

(** ** What lies outside the script *)

(** One row of the order table ([order_number] is annotated [int] in the
    source; the other fields are passed to the page as they are). *)
Record Order := mkOrder {
  Order_number : Z;
  Head : string;
  Body : string;
  Legs : string;
  Address : string
}.

(** The calls that leave the process, in the vocabulary of the source. *)
Inductive Call :=
  | Configure (browser_engine screenshot : string) (headless : bool) (slowmo : Z)
  | Goto (url : string)
  | SetDefaultTimeout (ms : Z)
  | ClickRole (role name : string)       (* get_by_role(role, name=name).click() *)
  | SelectOption (selector value : string)
  | Click (selector : string)
  | FillPlaceholder (placeholder value : string)
  | IsVisible (selector : string)
  | Screenshot (selector path : string)  (* locator(selector).screenshot(path=path) *)
  | HttpGet (url : string).

(** What a screenshot call can do: save the image, return without having
    saved anything (the failure the source guards against with
    [is_file]), or raise. *)
Inductive Shot := Captured (png : string) | NotSaved | ShotFails (msg : string).

Inductive HttpReply := NoReply | Reply (status_code : Z) (content : data).

(** The behaviour of everything outside: the site, as a state machine
    driven by the browser calls, the HTTP server and the table reader. *)
Record Outside := mkOutside {
  site : Type;
  act : site → Call → site * option string;   (* [Some msg]: the call raises *)
  visible : site → string → site * bool;
  shoot : site → string → site * Shot;
  http_get : string → HttpReply;
  read_table : data → list string → option (list Order)
}.

(** The process environment of one run. *)
Record Config := mkConfig {
  environ : gmap string string;   (* os.environ *)
  cwd : list string;              (* working directory, resolved *)
  module_file : string            (* __file__ *)
}.

(** ** The monad of the script *)

Record World (O : Outside) := mkWorld {
  page : site O;
  fs : filesystem;
  trace : list Call               (* oldest call first *)
}.
Arguments mkWorld {O} _ _ _.
Arguments page {O} _.
Arguments fs {O} _.
Arguments trace {O} _.

Inductive Res (S A : Type) :=
  | Ok (a : A) (s : S)
  | Raise (e : PyExc) (s : S)
  | Diverge (s : S).              (* the loop was still running when fuel ran out *)
Arguments Ok {S A} _ _.
Arguments Raise {S A} _ _.
Arguments Diverge {S A} _.

Definition state_of {S A} (r : Res S A) : S :=
  match r with Ok _ s => s | Raise _ s => s | Diverge s => s end.

Definition M (O : Outside) (A : Type) : Type := World O → Res (World O) A.

#[global] Instance M_ret {O : Outside} : MRet (M O) := λ A a w, Ok a w.

#[global] Instance M_bind {O : Outside} : MBind (M O) := λ A B k m w,
  match m w with
  | Ok a w' => k a w'
  | Raise e w' => Raise e w'
  | Diverge w' => Diverge w'
  end.

Definition raise {O : Outside} {A : Type} (e : PyExc) : M O A := λ w, Raise e w.

(** A file-system operation run on the world. *)
Definition on_fs {O : Outside} (op : filesystem → PyExc + filesystem) : M O unit := λ w,
  match op (fs w) with
  | inr fs' => Ok tt (mkWorld (page w) fs' (trace w))
  | inl e => Raise e w
  end.

Fixpoint for_each {O : Outside} {A : Type} (l : list A) (body : A → M O unit) : M O unit :=
  match l with
  | [] => mret tt
  | x :: r => body x ;; for_each r body
  end.

(** [while cond: body], for at most [fuel] runs of the body. *)
Fixpoint while {O : Outside} (fuel : nat) (cond : M O bool) (body : M O unit) : M O unit :=
  λ w,
  match cond w with
  | Ok true w1 =>
      match fuel with
      | 0 => Diverge w1
      | S n =>
          match body w1 with
          | Ok _ w2 => while n cond body w2
          | r => r
          end
      end
  | Ok false w1 => Ok tt w1
  | Raise e w1 => Raise e w1
  | Diverge w1 => Diverge w1
  end.

(** ** The libraries, as the script uses them *)

Section Libraries.
Context {O : Outside} (c : Config).

(** A browser call that yields nothing: it is logged, the site moves on,
    and the call may raise. *)
Definition call (a : Call) : M O unit := λ w,
  let '(s, r) := act O (page w) a in
  let w' := mkWorld s (fs w) (trace w ++ [a]) in
  match r with
  | None => Ok tt w'
  | Some msg => Raise (PlaywrightError msg) w'
  end.

(** [page.is_visible(selector)]: never raises for a missing element. *)
Definition is_visible (selector : string) : M O bool := λ w,
  let '(s, b) := visible O (page w) selector in
  Ok b (mkWorld s (fs w) (trace w ++ [IsVisible selector])).

(** [page.locator(selector)] builds a lazy handle and does not look at
    the page.  The handle's class defines neither [__bool__] nor
    [__len__], so Python's truth value of every handle is [True]. *)
Record Locator := mkLocator { selector_of : string }.

Definition page_locator (selector : string) : Locator := mkLocator selector.

Definition truth_value (l : Locator) : bool := true.

(** [locator.screenshot(path=path)]. *)
Definition locator_screenshot (l : Locator) (path : string) : M O unit := λ w,
  let '(s, r) := shoot O (page w) (selector_of l) in
  let tr := trace w ++ [Screenshot (selector_of l) path] in
  match r with
  | Captured png =>
      match FS.write_file (resolve_str (cwd c) path) (Image png) (fs w) with
      | inr fs' => Ok tt (mkWorld s fs' tr)
      | inl e => Raise e (mkWorld s (fs w) tr)
      end
  | NotSaved => Ok tt (mkWorld s (fs w) tr)
  | ShotFails msg => Raise (PlaywrightError msg) (mkWorld s (fs w) tr)
  end.

(** [requests.get(url)] and [response.raise_for_status()]. *)
Record Response := mkResponse { status_code : Z; content : data }.

Definition requests_get (url : string) : M O Response := λ w,
  let w' := mkWorld (page w) (fs w) (trace w ++ [HttpGet url]) in
  match http_get O url with
  | NoReply => Raise ConnectionError w'
  | Reply st body => Ok (mkResponse st body) w'
  end.

Definition raise_for_status (r : Response) : M O unit :=
  if decide (400 ≤ status_code r < 600)%Z then raise (HTTPError (status_code r))
  else mret tt.

(** [Path.mkdir], [Path.write_bytes], [Path.is_file]. *)
Definition Path_mkdir (p : Path) (parents exist_ok : bool) : M O unit :=
  on_fs (FS.Path_mkdir parents exist_ok (resolve (cwd c) p)).

Definition Path_write_bytes (p : Path) (d : data) : M O unit :=
  on_fs (FS.write_file (resolve (cwd c) p) d).

Definition Path_is_file (p : Path) : M O bool := λ w,
  Ok (FS.is_file (fs w) (resolve (cwd c) p)) w.

(** [Tables().read_table_from_csv(path, columns=columns)]. *)
Definition read_table_from_csv (path : Path) (columns : list string)
  : M O (list Order) := λ w,
  match FS.read_file (resolve (cwd c) path) (fs w) with
  | inr d =>
      match read_table O d columns with
      | Some rows => Ok rows w
      | None => Raise (TableError "cannot read table") w
      end
  | inl e => Raise e w
  end.

Fixpoint read_all (fs0 : filesystem) (ks : list (list string))
  : PyExc + list data :=
  match ks with
  | [] => inr []
  | k :: r =>
      match FS.read_file k fs0 with
      | inr d =>
          match read_all fs0 r with
          | inr ds => inr (d :: ds)
          | inl e => inl e
          end
      | inl e => inl e
      end
  end.

(** [PDF().add_files_to_pdf(files=files, target_document=target)]: every
    input file becomes a page, in the order given, and the document is
    written to [target]. *)
Definition add_files_to_pdf (files : list string) (target_document : string)
  : M O unit := λ w,
  match read_all (fs w) (resolve_str (cwd c) <$> files) with
  | inr pages =>
      on_fs (FS.write_file (resolve_str (cwd c) target_document) (Pdf pages)) w
  | inl e => Raise e w
  end.

(** [Archive().archive_folder_with_zip(folder, archive_name, recursive=True)]:
    the files found below [folder] become the members of a fresh archive;
    the library refuses to write an archive without members. *)
Definition archive_folder_with_zip (folder archive_name : string) : M O unit :=
  λ w,
  let members := FS.files_under (resolve_str (cwd c) folder) (fs w) in
  if decide (size members = 0) then
    Raise (ValueError "No files found to archive") w
  else on_fs (FS.write_file (resolve_str (cwd c) archive_name) (Zip members)) w.

End Libraries.

(** ** The script, [tasks.py] *)

Section Tasks.
Context {O : Outside} (c : Config).

(** Lines 14-19, run when the module is loaded. *)
Definition FILE_NAME : string := "orders.csv".
Definition CSV_URL : string := "https://robotsparebinindustries.com/" +:+ FILE_NAME.

Definition getenv (name dflt : string) : string := default dflt (environ c !! name).

Definition OUTPUT_DIR : Path := Path_of_string (getenv "ROBOT_ARTIFACTS" "output").
Definition CURDIR : Path := Path_parent (Path_of_string (module_file c)).
Definition ORDERS_DIR : Path := OUTPUT_DIR /p "orders".

Definition module_init : M O unit := Path_mkdir c ORDERS_DIR true true.

Definition create_new_order : M O unit :=
  call (ClickRole "button" "Order another robot").

Definition screenshot_robot (robot_file : Path) : M O unit :=
  locator_screenshot c (page_locator "#robot-preview-image") (Path_str robot_file).

Definition pdf_file (order_number : Z) : Path :=
  ORDERS_DIR /p ("order_" +:+ pretty order_number +:+ ".pdf").
Definition receipt_file (order_number : Z) : Path :=
  OUTPUT_DIR /p ("receipt_" +:+ pretty order_number +:+ ".png").
Definition robot_file (order_number : Z) : Path :=
  OUTPUT_DIR /p ("robot_" +:+ pretty order_number +:+ ".png").

(** [store_receipt_as_pdf], lines 67-79: the two captures. *)
Definition store_receipt_capture (order_number : Z) : M O unit :=
  Path_mkdir c OUTPUT_DIR true true ;;
  let receipt_element := page_locator "#receipt" in
  if truth_value receipt_element then
    locator_screenshot c receipt_element (Path_str (receipt_file order_number)) ;;
    screenshot_robot (robot_file order_number)
  else
    raise (ValueError "Elemento '#receipt' não encontrado na página.").

(** [store_receipt_as_pdf], lines 81-89: the check and the merge. *)
Definition store_receipt_compose (order_number : Z) : M O Path :=
  let list_of_files :=
    [Path_str (receipt_file order_number); Path_str (robot_file order_number)] in
  saved ← Path_is_file c (receipt_file order_number);
  (if saved : bool then
     add_files_to_pdf c list_of_files (Path_str (pdf_file order_number))
   else
     raise (FileNotFoundError
              ("Screenshot não foi salvo corretamente em "
                 +:+ Path_str (receipt_file order_number)))) ;;
  mret (pdf_file order_number).

Definition store_receipt_as_pdf (order_number : Z) : M O Path :=
  store_receipt_capture order_number ;; store_receipt_compose order_number.

Definition open_robot_order_website : M O unit :=
  call (Configure "chromium" "only-on-failure" false 0) ;;
  call (Goto "https://robotsparebinindustries.com/").

Definition go_to_order_page : M O unit :=
  call (ClickRole "link" "Order your robot!").

Definition close_annoying_modal : M O unit :=
  shown ← is_visible ".modal-header";
  if shown : bool then call (ClickRole "button" "OK") else mret tt.

Definition set_head (head : string) : M O unit :=
  call (SelectOption "select#head.custom-select" head).
Definition set_body (body : string) : M O unit :=
  call (Click ("#id-body-" +:+ body)).
Definition set_legs (legs : string) : M O unit :=
  call (FillPlaceholder "Enter the part number" legs).
Definition set_address (address : string) : M O unit :=
  call (FillPlaceholder "Shipping address" address).

Definition fill_the_form (order : Order) : M O unit :=
  set_head (Head order) ;;
  set_body (Body order) ;;
  set_legs (Legs order) ;;
  set_address (Address order).

Definition submit_order : M O unit := call (ClickRole "button" "Order").

Definition download_file (url : string) (target_dir : Path)
    (target_filename : string) : M O Path :=
  response ← requests_get url;
  raise_for_status response ;;
  Path_mkdir c target_dir false true ;;
  let local_file := target_dir /p target_filename in
  Path_write_bytes c local_file (content response) ;;
  mret local_file.

Definition get_orders : M O (list Order) :=
  csv_file ← download_file CSV_URL CURDIR FILE_NAME;
  read_table_from_csv c csv_file ["Order number"; "Head"; "Body"; "Legs"; "Address"].

Definition archive_receipts : M O unit :=
  archive_folder_with_zip c "./output/orders/"
    (Path_str OUTPUT_DIR +:+ "/receipts.zip").

(** Lines 36-42: what the [for] loop does with one order. *)
Definition order_body (fuel : nat) (order : Order) : M O unit :=
  close_annoying_modal ;;
  fill_the_form order ;;
  submit_order ;;
  while fuel (is_visible ".alert-danger") submit_order ;;
  store_receipt_as_pdf (Order_number order) ;;
  create_new_order.

Definition order_robots_from_RobotSpareBin (fuel : nat) : M O unit :=
  orders ← get_orders;
  open_robot_order_website ;;
  call (SetDefaultTimeout 10000) ;;
  go_to_order_page ;;
  for_each orders (order_body fuel) ;;
  archive_receipts.

(** One run of the program: load the module, then run its task. *)
Definition run (fuel : nat) : M O unit :=
  module_init ;; order_robots_from_RobotSpareBin fuel.

End Tasks.

(** ** Vocabulary for statements about traces *)

#[global] Instance Call_eq_dec : EqDecision Call.
Proof. solve_decision. Defined.

Definition is_screenshot (a : Call) : bool :=
  match a with Screenshot _ _ => true | _ => false end.

(** A monitor for "the modal check is run before every form-fill": the
    flag is set by a visibility check of the modal header and consumed by
    the first call of a form-fill (the head selection); a form-fill that
    finds the flag unset is a violation ([None]). *)
Definition guard_step (st : option bool) (a : Call) : option bool :=
  match st with
  | None => None
  | Some checked =>
      match a with
      | IsVisible sel => Some (checked || bool_decide (sel = ".modal-header"))
      | SelectOption _ _ => if checked then Some false else None
      | _ => Some checked
      end
  end.

Definition modal_checked_before_each_fill (evs : list Call) : bool :=
  bool_decide (is_Some (fold_left guard_step evs (Some false))).

(** The four form calls for an order: head, body, legs, address. *)
Definition form_calls (order : Order) : list Call :=
  [ SelectOption "select#head.custom-select" (Head order);
    Click ("#id-body-" +:+ Body order);
    FillPlaceholder "Enter the part number" (Legs order);
    FillPlaceholder "Shipping address" (Address order) ].

(** Calls that take the monitor from a state in [X] to a state in [Y]. *)
Definition moves (X Y : option bool → Prop) (evs : list Call) : Prop :=
  ∀ st, X st → Y (fold_left guard_step evs st).

(** Calls that never trip the monitor. *)
Definition quiet : list Call → Prop := moves is_Some is_Some.

(** A property of call lists that holds of the empty list and is kept by
    concatenation is kept by sequencing, loops included. *)
Class Stable (P : list Call → Prop) : Prop := {
  stable_nil : P [];
  stable_app e1 e2 : P e1 → P e2 → P (e1 ++ e2)
}.

(** [m] appends to the trace a list of calls satisfying [P], however it
    ends. *)
Definition extends {O : Outside} {A : Type} (m : M O A) (P : list Call → Prop) : Prop :=
  ∀ w, ∃ evs, trace (state_of (m w)) = trace w ++ evs ∧ P evs.

(** How many times the submit button was clicked in a list of calls. *)
Definition submit_clicks (evs : list Call) : nat :=
  length (filter (λ a, a = ClickRole "button" "Order") evs).

(** ** Concrete scenarios *)

Module Scenario.

Definition order1 : Order := mkOrder 1 "1" "1" "3" "Test 1".

Definition orders_csv : data :=
  Bytes "Order number,Head,Body,Legs,Address".

(** A shop on which every call goes through.  Its state counts the
    checks of the error banner made so far; [banner n] tells whether the
    check number [n] finds the banner; [camera] answers the screenshots
    and [server] the download. *)
Definition shop (banner : nat → bool) (camera : string → Shot)
    (server : HttpReply) : Outside :=
  mkOutside nat
    (λ s _, (s, None))
    (λ s sel, if decide (sel = ".alert-danger") then (S s, banner s) else (s, false))
    (λ s sel, (s, camera sel))
    (λ _, server)
    (λ _ _, Some [order1]).

Definition camera_ok (sel : string) : Shot := Captured ("png of " +:+ sel).

(** A camera that finds no receipt element on the page: the
    screenshot of ["#receipt"] waits and times out. *)
Definition camera_no_receipt (sel : string) : Shot :=
  if decide (sel = "#receipt") then ShotFails "Timeout 10000ms exceeded."
  else camera_ok sel.

(** A camera that returns without saving anything. *)
Definition camera_blind (sel : string) : Shot := NotSaved.

(** The shop accepts every order at once. *)
Definition easy : Outside := shop (λ _, false) camera_ok (Reply 200 orders_csv).

(** The shop rejects every submission. *)
Definition stuck : Outside := shop (λ _, true) camera_ok (Reply 200 orders_csv).

(** The shop accepts the order but shows no receipt element. *)
Definition no_receipt : Outside :=
  shop (λ _, false) camera_no_receipt (Reply 200 orders_csv).

(** The shop accepts the order but the captures save nothing. *)
Definition blind : Outside :=
  shop (λ _, false) camera_blind (Reply 200 orders_csv).

(** The order file cannot be downloaded. *)
Definition down : Outside :=
  shop (λ _, false) camera_ok (Reply 500 (Bytes "Internal Server Error")).

(** The shop rejects the first [k] submissions of the run. *)
Definition flaky (k : nat) : Outside :=
  shop (λ n, bool_decide (n < k)) camera_ok (Reply 200 orders_csv).

(** The robot lives in [/robot] and is started there. *)
Definition at_home (env : gmap string string) : Config :=
  mkConfig env ["robot"] "/robot/tasks.py".

Definition fresh_disk : filesystem := {[ ["robot"] := Dir ]}.

(** The disk once the module has been loaded with the default output
    root. *)
Definition ready_disk : filesystem :=
  <[ ["robot"; "output"; "orders"] := Dir ]>
    (<[ ["robot"; "output"] := Dir ]> fresh_disk).

(** The disk after order 1 has been captured and merged on [ready_disk]. *)
Definition receipt1 : data := Image "png of #receipt".
Definition robot1 : data := Image "png of #robot-preview-image".
Definition disk_after_order1 : filesystem :=
  <[ ["robot"; "output"; "orders"; "order_1.pdf"] := File (Pdf [receipt1; robot1]) ]>
    (<[ ["robot"; "output"; "robot_1.png"] := File robot1 ]>
       (<[ ["robot"; "output"; "receipt_1.png"] := File receipt1 ]> ready_disk)).

(** A disk on which an earlier run with the default output root left
    the receipt of an order 0. *)
Definition old_pdf : data := Pdf [Image "old receipt"; Image "old robot"].
Definition stale_disk : filesystem :=
  <[ ["robot"; "output"; "orders"; "order_0.pdf"] := File old_pdf ]> ready_disk.

(** The same disk once order 1 has been stored under the output root
    [artifacts]. *)
Definition moved_disk : filesystem :=
  <[ ["robot"; "artifacts"; "orders"; "order_1.pdf"] := File (Pdf [receipt1; robot1]) ]>
    (<[ ["robot"; "artifacts"; "orders"] := Dir ]>
       (<[ ["robot"; "artifacts"] := Dir ]> stale_disk)).

(** The archive the run writes on these disks: the old receipt alone. *)
Definition old_archive : data := Zip {[ ["order_0.pdf"] := old_pdf ]}.

(** [moved_disk] after the archive step. *)
Definition moved_disk_archived : filesystem :=
  <[ ["robot"; "artifacts"; "receipts.zip"] := File old_archive ]> moved_disk.

(** [stale_disk] after a whole run with the output root [artifacts]. *)
Definition stale_disk_after_run : filesystem :=
  <[ ["robot"; "artifacts"; "receipts.zip"] := File old_archive ]>
    (<[ ["robot"; "artifacts"; "orders"; "order_1.pdf"] := File (Pdf [receipt1; robot1]) ]>
       (<[ ["robot"; "artifacts"; "robot_1.png"] := File robot1 ]>
          (<[ ["robot"; "artifacts"; "receipt_1.png"] := File receipt1 ]>
             (<[ ["robot"; "orders.csv"] := File orders_csv ]>
                (<[ ["robot"; "artifacts"; "orders"] := Dir ]>
                   (<[ ["robot"; "artifacts"] := Dir ]> stale_disk)))))).

(** The calls of that run. *)
Definition calls_of_run : list Call :=
  [ HttpGet "https://robotsparebinindustries.com/orders.csv";
    Configure "chromium" "only-on-failure" false 0;
    Goto "https://robotsparebinindustries.com/";
    SetDefaultTimeout 10000;
    ClickRole "link" "Order your robot!";
    IsVisible ".modal-header";
    SelectOption "select#head.custom-select" "1";
    Click "#id-body-1";
    FillPlaceholder "Enter the part number" "3";
    FillPlaceholder "Shipping address" "Test 1";
    ClickRole "button" "Order";
    IsVisible ".alert-danger";
    Screenshot "#receipt" "artifacts/receipt_1.png";
    Screenshot "#robot-preview-image" "artifacts/robot_1.png";
    ClickRole "button" "Order another robot" ].

(** The order file arrives but is not a table the reader accepts. *)
Definition garbled : Outside :=
  mkOutside nat
    (λ s _, (s, None))
    (λ s sel, (s, false))
    (λ s sel, (s, camera_ok sel))
    (λ _, Reply 200 (Bytes "<html>maintenance</html>"))
    (λ _ _, None).

(** A shop with two orders in its table. *)
Definition order2 : Order := mkOrder 2 "3" "2" "5" "Test 2".

Definition two_orders : Outside :=
  mkOutside nat
    (λ s _, (s, None))
    (λ s sel, (s, false))
    (λ s sel, (s, camera_ok sel))
    (λ _, Reply 200 orders_csv)
    (λ _ _, Some [order1; order2]).

(** An order file with two rows. *)
Definition newline : string := String (ascii_of_nat 10) "".

Definition two_rows_csv : string :=
  "Order number,Head,Body,Legs,Address" +:+ newline
  +:+ "1,1,1,3,Test 1" +:+ newline
  +:+ "2,3,2,5,Test 2".

(** A shop that puts up the modal whenever the order page is opened or a
    next order is started, and takes it down when OK is clicked.  Its
    state is whether the modal is up and how many submissions it will
    still reject; [refuses] names the calls that raise.  The reader
    returns the two rows for the two-row file and refuses anything
    else. *)
Definition popup (refuses : Call → option string) : Outside :=
  mkOutside (bool * nat)
    (λ s a,
       match refuses a with
       | Some msg => (s, Some msg)
       | None =>
           (if decide (a = ClickRole "button" "OK") then (false, s.2)
            else if decide (a = ClickRole "link" "Order your robot!"
                            ∨ a = ClickRole "button" "Order another robot")
                 then (true, s.2)
                 else s,
            None)
       end)
    (λ s sel,
       if decide (sel = ".modal-header") then (s, s.1)
       else if decide (sel = ".alert-danger") then
         match s.2 with
         | 0 => (s, false)
         | S n => ((s.1, n), true)
         end
       else (s, false))
    (λ s sel, (s, camera_ok sel))
    (λ _, Reply 200 (Bytes two_rows_csv))
    (λ d cols,
       match d with
       | Bytes s =>
           if decide (s = two_rows_csv
                      ∧ cols = ["Order number"; "Head"; "Body"; "Legs"; "Address"])
           then Some [order1; order2] else None
       | _ => None
       end).

(** No call raises. *)
Definition willing (a : Call) : option string := None.

(** The legs field is missing from the form. *)
Definition no_legs_field (a : Call) : option string :=
  match a with
  | FillPlaceholder placeholder _ =>
      if decide (placeholder = "Enter the part number")
      then Some "Timeout 10000ms exceeded." else None
  | _ => None
  end.

(** The OK button of the modal cannot be clicked. *)
Definition dead_ok_button (a : Call) : option string :=
  if decide (a = ClickRole "button" "OK") then Some "Timeout 10000ms exceeded."
  else None.

Definition start (O : Outside) (s : site O) (disk : filesystem) : World O :=
  mkWorld s disk [].

End Scenario.

(** ** Vocabulary for statements about paths *)

(** The string has no ["/"] in it. *)
Fixpoint slash_free (s : string) : bool :=
  match s with
  | EmptyString => true
  | String c r => negb (Ascii.eqb c slash) && slash_free r
  end.

(** A single path component other than [".."]: what the script appends
    to its directories. *)
Definition plain_name (s : string) : Prop :=
  slash_free s = true ∧ s ≠ "" ∧ s ≠ "." ∧ s ≠ "..".

(** The components of a path are all proper names. *)
Definition wf_path (p : Path) : Prop :=
  Forall (λ x, is_name x ∧ slash_free x = true) (parts p).

(** ** Vocabulary for statements about the file system *)

(** The errors the file system itself raises. *)
Definition os_error (e : PyExc) : Prop :=
  match e with
  | FileNotFoundError _ | FileExistsError | NotADirectoryError
  | IsADirectoryError => True
  | _ => False
  end.

(** From [disk] to [disk'] nothing changed except that directories may
    have appeared at [k] or above it. *)
Definition dirs_added (k : list string) (disk disk' : filesystem) : Prop :=
  ∀ j, disk' !! j = disk !! j
       ∨ (disk !! j = None ∧ disk' !! j = Some Dir ∧ j `prefix_of` k).

(** The regular files of two disks are the same, contents included. *)
Definition same_files (disk disk' : filesystem) : Prop :=
  ∀ j d, disk' !! j = Some (File d) ↔ disk !! j = Some (File d).

(** [m] raises nothing but exceptions in [P]. *)
Definition raises_only {O : Outside} {A : Type} (P : PyExc → Prop) (m : M O A) : Prop :=
  ∀ w e w', m w = Raise e w' → P e.

(** What a capture can raise: a file system error or a browser error. *)
Definition capture_error (e : PyExc) : Prop :=
  os_error e ∨ ∃ msg, e = PlaywrightError msg.

(** The disk after a screenshot call that answered [r] for the file [k]. *)
Definition saved (k : list string) (r : Shot) (disk : filesystem) : filesystem :=
  match r with
  | Captured png => <[k := File (Image png)]> disk
  | _ => disk
  end.

(** How a computation that cannot reach the capture ends: not normally,
    with no screenshot call made and no file touched. *)
Definition held_back {O : Outside} {A : Type} (w : World O)
    (r : Res (World O) A) : Prop :=
  (∀ a w', r ≠ Ok a w')
  ∧ ∃ evs, trace (state_of r) = trace w ++ evs
           ∧ Forall (λ a, is_screenshot a = false) evs
           ∧ fs (state_of r) = fs w.

(** "No output directory contents are created", read literally: when
    the download is refused, a run leaves everything below the output
    root as it found it. *)
Definition failed_download_leaves_output_root_untouched : Prop :=
  ∀ (O : Outside) (c : Config) (fuel : nat) (w : World O) st body,
    http_get O (CSV_URL) = Reply st body → (400 ≤ st < 600)%Z →
    ∀ j, resolve (cwd c) (OUTPUT_DIR c) `prefix_of` j →
         j ≠ resolve (cwd c) (OUTPUT_DIR c) →
         fs (state_of (run c fuel w)) !! j = fs w !! j.

(** "The download step writes no file into the output directory tree",
    read literally: whatever the configuration, fetching the orders
    leaves every file below the output root as it was. *)
Definition get_orders_writes_nothing_below_output_root : Prop :=
  ∀ (O : Outside) (c : Config) (w : World O) j d,
    resolve (cwd c) (OUTPUT_DIR c) `prefix_of` j →
    j ≠ resolve (cwd c) (OUTPUT_DIR c) →
    (fs (state_of (get_orders c w)) !! j = Some (File d)
     ↔ fs w !! j = Some (File d)).

(** [m] leaves the disk as it is. *)
Definition keeps_disk {O : Outside} {A : Type} (m : M O A) : Prop :=
  ∀ w, fs (state_of (m w)) = fs w.

(** The receipt of order [n] is in place on [disk]: a two-page PDF at
    [orders/order_<n>.pdf] under the output root. *)
Definition has_receipt (c : Config) (disk : filesystem) (n : Z) : Prop :=
  ∃ x y, disk !! resolve (cwd c) (pdf_file c n) = Some (File (Pdf [x; y])).

(** ** Vocabulary for the further properties *)

(** The error banner is found at the next [n] checks and not at the one
    after, each submit click in between going through: what the site does
    when it rejects an order [n] times. *)
Fixpoint banner_clears (O : Outside) (n : nat) (s : site O) : Prop :=
  let seen := visible O s ".alert-danger" in
  match n with
  | 0 => seen.2 = false
  | S n' =>
      let clicked := act O seen.1 (ClickRole "button" "Order") in
      seen.2 = true ∧ clicked.2 = None ∧ banner_clears O n' clicked.1
  end.

(** [m] takes the disk to one related to it by [R], however it ends. *)
Definition disk_step {O : Outside} {A : Type}
    (R : filesystem → filesystem → Prop) (m : M O A) : Prop :=
  ∀ w, R (fs w) (fs (state_of (m w))).

(** Nothing was removed and nothing changed between file and directory. *)
Definition same_kind (n n' : node) : Prop :=
  match n, n' with
  | File _, File _ | Dir, Dir => True
  | _, _ => False
  end.

Definition grows (disk disk' : filesystem) : Prop :=
  ∀ j n, disk !! j = Some n → ∃ n', disk' !! j = Some n' ∧ same_kind n n'.

(** No regular file changed, appeared or disappeared outside the
    locations in [K]. *)
Definition only_writes (K : list string → Prop) (disk disk' : filesystem) : Prop :=
  ∀ j, ¬ K j → ∀ d, disk' !! j = Some (File d) ↔ disk !! j = Some (File d).

(** The three files the script names after an order. *)
Definition order_files (c : Config) (n : Z) : list (list string) :=
  [ resolve (cwd c) (receipt_file c n);
    resolve (cwd c) (robot_file c n);
    resolve (cwd c) (pdf_file c n) ].

(** When [m] returns, the calls it added satisfy [P]. *)
Definition yields {O : Outside} {A : Type} (m : M O A) (P : list Call → Prop) : Prop :=
  ∀ w a w', m w = Ok a w' → ∃ evs, trace w' = trace w ++ evs ∧ P evs.

(** The head values selected, and the files the receipt element was
    captured to, in the order of the calls. *)
Definition selected_heads (evs : list Call) : list string :=
  omap (λ a, match a with SelectOption _ v => Some v | _ => None end) evs.

Definition receipt_shots (evs : list Call) : list string :=
  omap (λ a, match a with
             | Screenshot sel path =>
                 if decide (sel = "#receipt") then Some path else None
             | _ => None
             end) evs.

(** How many times the form was reset for a next order. *)
Definition new_order_clicks (evs : list Call) : nat :=
  length (filter (λ a, a = ClickRole "button" "Order another robot") evs).

(** What fetching the orders can raise. *)
Definition fetch_error (e : PyExc) : Prop :=
  e = ConnectionError
  ∨ (∃ st, e = HTTPError st ∧ (400 ≤ st < 600)%Z)
  ∨ os_error e
  ∨ ∃ msg, e = TableError msg.

(** A relation between disks that every step of the script respects:
    it is a preorder, it holds when directories are added, and it holds
    when a file is written at a location in [K]. *)
Class DiskRel (R : filesystem → filesystem → Prop) (K : list string → Prop) : Prop := {
  diskrel_refl disk : R disk disk;
  diskrel_trans disk1 disk2 disk3 : R disk1 disk2 → R disk2 disk3 → R disk1 disk3;
  diskrel_dirs k disk disk' : dirs_added k disk disk' → R disk disk';
  diskrel_write k x disk disk' :
    K k → FS.write_file k x disk = inr disk' → R disk disk'
}.

(** [m] either returns or leaves the disk related by [R]. *)
Definition disk_step_unless_ok {O : Outside} {A : Type}
    (R : filesystem → filesystem → Prop) (m : M O A) : Prop :=
  ∀ w, (∃ a w', m w = Ok a w') ∨ R (fs w) (fs (state_of (m w))).

(** Where the archive goes. *)
Definition zip_file (c : Config) : list string :=
  resolve (cwd c) (OUTPUT_DIR c) ++ ["receipts.zip"].

(** Where the order file goes. *)
Definition csv_file (c : Config) : list string :=
  resolve (cwd c) (Path_parent (Path_of_string (module_file c))) ++ ["orders.csv"].

(** The calls [evs] select the heads [hs], capture the receipt element
    to the files [ps] and reset the form [k] times. *)
Definition shows (hs ps : list string) (k : nat) (evs : list Call) : Prop :=
  selected_heads evs = hs ∧ receipt_shots evs = ps ∧ new_order_clicks evs = k.

(** The site takes the calls [l] one after the other, starting in state
    [s], and refuses none of them: the state it is left in. *)
Fixpoint accepts (O : Outside) (s : site O) (l : list Call) : option (site O) :=
  match l with
  | [] => Some s
  | a :: r =>
      match (act O s a).2 with
      | None => accepts O (act O s a).1 r
      | Some _ => None
      end
  end.

(** The task, started in [ws], has fetched the table
    [before ++ o :: after], opened the order page (lines 31-34) and
    completed the loop body for the orders [before]: [w] is the world in
    which the loop body starts for [o]. *)
Definition reaches {O : Outside} (c : Config) (fuel : nat) (ws : World O)
    (before : list Order) (o : Order) (after : list Order) (w : World O) : Prop :=
  ∃ wa wl,
    get_orders c ws = Ok (before ++ o :: after) wa
    ∧ (open_robot_order_website ;;
       call (SetDefaultTimeout 10000) ;;
       go_to_order_page) wa = Ok tt wl
    ∧ for_each before (order_body c fuel) wl = Ok tt w.

(** Every head selection in [evs] comes directly after the calls of the
    modal step: the visibility check of the modal header, or that check
    and the click on OK. *)
Definition fill_follows_modal_step (evs : list Call) : Prop :=
  ∀ pre s v post,
    evs = pre ++ SelectOption s v :: post →
    ∃ pre', pre = pre' ++ [IsVisible ".modal-header"]
            ∨ pre = pre' ++ [IsVisible ".modal-header"; ClickRole "button" "OK"].

(** Every click on the submit button in [evs] has the calls [l] before
    it. *)
Definition submit_only_after (l evs : list Call) : Prop :=
  ∀ pre post,
    evs = pre ++ ClickRole "button" "Order" :: post →
    ∃ pre0 mid, pre = pre0 ++ l ++ mid.

(** The calls of the task before the loop (lines 31-34). *)
Definition setup_calls : list Call :=
  [ HttpGet CSV_URL;
    Configure "chromium" "only-on-failure" false 0;
    Goto "https://robotsparebinindustries.com/";
    SetDefaultTimeout 10000;
    ClickRole "link" "Order your robot!" ].

(** The calls of one completed run of the loop body for the order [o]:
    the modal step ([shown]: the header was visible), the four form
    calls, the submit click, [retries] rounds of banner check and submit
    click, the banner check that ends the loop, the two captures and the
    click for the next order. *)
Definition order_block (c : Config) (o : Order) (shown : bool) (retries : nat)
  : list Call :=
  IsVisible ".modal-header"
    :: (if shown then [ClickRole "button" "OK"] else [])
    ++ form_calls o
    ++ ClickRole "button" "Order"
       :: concat (replicate retries [IsVisible ".alert-danger";
                                     ClickRole "button" "Order"])
    ++ [ IsVisible ".alert-danger";
         Screenshot "#receipt" (Path_str (receipt_file c (Order_number o)));
         Screenshot "#robot-preview-image" (Path_str (robot_file c (Order_number o)));
         ClickRole "button" "Order another robot" ].

(** The calls of the loop for the orders [orders], where [runs] tells for
    each order whether the modal was shown and how many submissions were
    rejected. *)
Fixpoint order_blocks (c : Config) (orders : list Order) (runs : list (bool * nat))
  : list Call :=
  match orders, runs with
  | o :: orders, r :: runs => order_block c o r.1 r.2 ++ order_blocks c orders runs
  | _, _ => []
  end.

(** No call of [evs] selects an option. *)
Definition select_free (evs : list Call) : Prop := ∀ s v, SelectOption s v ∉ evs.

(** * Properties *)

(** ** Unfolding the monad *)

Section Monad_facts.
Context {O : Outside}.

Lemma bind_unfold {A B} (m : M O A) (k : A → M O B) w :
  (m ≫= k) w =
  match m w with
  | Ok a w' => k a w'
  | Raise e w' => Raise e w'
  | Diverge w' => Diverge w'
  end.
Proof. reflexivity. Qed.

Lemma bind_Ok {A B} (m : M O A) (k : A → M O B) w a w' :
  m w = Ok a w' → (m ≫= k) w = k a w'.
Proof. intros H. rewrite bind_unfold, H. done. Qed.

Lemma bind_Raise {A B} (m : M O A) (k : A → M O B) w e w' :
  m w = Raise e w' → (m ≫= k) w = Raise e w'.
Proof. intros H. rewrite bind_unfold, H. done. Qed.

Lemma bind_Diverge {A B} (m : M O A) (k : A → M O B) w w' :
  m w = Diverge w' → (m ≫= k) w = Diverge w'.
Proof. intros H. rewrite bind_unfold, H. done. Qed.

Lemma bind_Ok_inv {A B} (m : M O A) (k : A → M O B) w b w2 :
  (m ≫= k) w = Ok b w2 → ∃ a w1, m w = Ok a w1 ∧ k a w1 = Ok b w2.
Proof. rewrite bind_unfold. destruct (m w); naive_solver. Qed.

(** ** Calls only ever extend the trace *)

Lemma extends_weaken {A} (m : M O A) (P Q : list Call → Prop) :
  extends m P → (∀ evs, P evs → Q evs) → extends m Q.
Proof. intros Hm HPQ w. destruct (Hm w) as (evs & ? & ?). eauto. Qed.

Lemma extends_ret {A} (a : A) : extends (mret a : M O A) (λ evs, evs = []).
Proof. intros w. exists []. by rewrite app_nil_r. Qed.

Lemma extends_raise {A} e : extends (raise e : M O A) (λ evs, evs = []).
Proof. intros w. exists []. by rewrite app_nil_r. Qed.

Lemma extends_on_fs op : extends (on_fs op : M O unit) (λ evs, evs = []).
Proof.
  intros w. exists []. unfold on_fs. rewrite app_nil_r.
  by destruct (op (fs w)).
Qed.

Lemma extends_call a : extends (call a : M O unit) (λ evs, evs = [a]).
Proof.
  intros w. exists [a]. unfold call.
  by destruct (act O (page w) a) as [s [msg|]].
Qed.

Lemma extends_is_visible sel :
  extends (is_visible sel : M O bool) (λ evs, evs = [IsVisible sel]).
Proof.
  intros w. exists [IsVisible sel]. unfold is_visible.
  by destruct (visible O (page w) sel).
Qed.

Lemma extends_locator_screenshot c l path :
  extends (locator_screenshot c l path : M O unit)
          (λ evs, evs = [Screenshot (selector_of l) path]).
Proof.
  intros w. eexists. split; [|done]. unfold locator_screenshot.
  destruct (shoot O (page w) (selector_of l)) as [s [png| |msg]]; try done.
  by destruct (FS.write_file _ _ _).
Qed.

Lemma extends_bind {A B} (m : M O A) (k : A → M O B) (P Q : list Call → Prop) :
  extends m P → (∀ a, extends (k a) Q) →
  extends (m ≫= k) (λ evs, ∃ e1 e2, evs = e1 ++ e2 ∧ P e1 ∧ (e2 = [] ∨ Q e2)).
Proof.
  intros Hm Hk w. destruct (Hm w) as (e1 & Ht & HP).
  rewrite bind_unfold. destruct (m w) as [a w1|e w1|w1]; simpl in *.
  - destruct (Hk a w1) as (e2 & Ht2 & HQ). exists (e1 ++ e2).
    rewrite Ht2, Ht, app_assoc. eauto 10.
  - exists e1. split; [done|]. exists e1, []. by rewrite app_nil_r; eauto.
  - exists e1. split; [done|]. exists e1, []. by rewrite app_nil_r; eauto.
Qed.

Lemma extends_seq {A B} (m : M O A) (k : A → M O B) P `{!Stable P} :
  extends m P → (∀ a, extends (k a) P) → extends (m ≫= k) P.
Proof.
  intros Hm Hk. eapply extends_weaken; [by apply extends_bind|].
  intros evs (e1 & e2 & -> & ? & [->|?]).
  - rewrite app_nil_r. done.
  - by apply stable_app.
Qed.

Lemma extends_nothing {A} (m : M O A) P `{!Stable P} :
  extends m (λ evs, evs = []) → extends m P.
Proof.
  intros Hm. eapply extends_weaken; [done|]. intros ? ->. apply stable_nil.
Qed.

Lemma extends_while fuel (cond : M O bool) (body : M O unit) P `{!Stable P} :
  extends cond P → extends body P → extends (while fuel cond body) P.
Proof.
  intros Hc Hb. induction fuel as [|n IH]; intros w; simpl;
    destruct (Hc w) as (e1 & Ht1 & HP1);
    destruct (cond w) as [[|] w1|e w1|w1]; simpl in *; eauto.
  destruct (Hb w1) as (e2 & Ht2 & HP2).
  destruct (body w1) as [[] w2|e w2|w2]; simpl in *.
  - destruct (IH w2) as (e3 & Ht3 & HP3). exists (e1 ++ e2 ++ e3).
    rewrite Ht3, Ht2, Ht1, <- !app_assoc. split; [done|].
    by repeat apply stable_app.
  - exists (e1 ++ e2). rewrite Ht2, Ht1, <- app_assoc.
    split; [done|]. by apply stable_app.
  - exists (e1 ++ e2). rewrite Ht2, Ht1, <- app_assoc.
    split; [done|]. by apply stable_app.
Qed.

Lemma extends_for_each {A} (l : list A) (body : A → M O unit) P `{!Stable P} :
  (∀ x, extends (body x) P) → extends (for_each l body) P.
Proof.
  intros Hb. induction l as [|x r IH]; simpl.
  - apply extends_nothing; [done|]. apply extends_ret.
  - apply extends_seq; auto.
Qed.

End Monad_facts.

(** ** The modal check precedes every form-fill *)

#[global] Instance quiet_stable : Stable quiet.
Proof.
  split.
  - by intros st.
  - intros e1 e2 H1 H2 st Hst. rewrite fold_left_app. auto.
Qed.

Section Modal_guard.
Context {O : Outside}.

Lemma extends_moves_bind {A B} (m : M O A) (k : A → M O B) X Y Z :
  extends m (moves X Y) → (∀ a, extends (k a) (moves Y Z)) →
  (∀ st, Y st → Z st) → extends (m ≫= k) (moves X Z).
Proof.
  intros Hm Hk HYZ. eapply extends_weaken; [by apply extends_bind|].
  intros evs (e1 & e2 & -> & H1 & [->|H2]) st Hst.
  - rewrite app_nil_r. auto.
  - rewrite fold_left_app. auto.
Qed.

Lemma quiet_single a : (∀ s v, a ≠ SelectOption s v) → quiet [a].
Proof.
  intros Ha [b|] [x Hx]; simplify_eq/=.
  destruct a; naive_solver.
Qed.

Lemma call_quiet a : (∀ s v, a ≠ SelectOption s v) → extends (call a : M O unit) quiet.
Proof.
  intros Ha. eapply extends_weaken; [apply extends_call|].
  intros ? ->. by apply quiet_single.
Qed.

Lemma is_visible_quiet sel : extends (is_visible sel : M O bool) quiet.
Proof.
  eapply extends_weaken; [apply extends_is_visible|].
  intros ? ->. by apply quiet_single.
Qed.

Lemma locator_screenshot_quiet c l path :
  extends (locator_screenshot c l path : M O unit) quiet.
Proof.
  eapply extends_weaken; [apply extends_locator_screenshot|].
  intros ? ->. by apply quiet_single.
Qed.

Lemma silent_quiet {A} (m : M O A) : extends m (λ evs, evs = []) → extends m quiet.
Proof. intros. by apply extends_nothing; [apply _|]. Qed.

Lemma close_annoying_modal_sets_flag :
  extends (close_annoying_modal : M O unit) (moves is_Some (λ st, st = Some true)).
Proof.
  intros w. unfold close_annoying_modal, is_visible. rewrite bind_unfold.
  destruct (visible O (page w) ".modal-header") as [s [|]]; simpl.
  - unfold call; simpl.
    destruct (act O s (ClickRole "button" "OK")) as [s' [msg|]]; simpl;
      (eexists [_; _]; rewrite <- app_assoc; split; [done|]);
      intros [b|] [x Hx]; simplify_eq/=; by rewrite orb_true_r.
  - eexists [_]. split; [done|].
    intros [b|] [x Hx]; simplify_eq/=. by rewrite orb_true_r.
Qed.

Lemma fill_the_form_uses_flag order :
  extends (fill_the_form order : M O unit) (moves (λ st, st = Some true) is_Some).
Proof.
  unfold fill_the_form.
  eapply (extends_moves_bind _ _ _ is_Some).
  - eapply extends_weaken; [apply extends_call|]. intros ? -> st ->. by eexists.
  - intros _. repeat (apply extends_seq; [apply _| |intros _]);
      apply call_quiet; done.
  - done.
Qed.

Lemma store_receipt_as_pdf_quiet c n :
  extends (store_receipt_as_pdf c n : M O Path) quiet.
Proof.
  unfold store_receipt_as_pdf, store_receipt_capture, store_receipt_compose.
  apply extends_seq; [apply _| |intros _].
  - apply extends_seq; [apply _| |intros _].
    + apply silent_quiet, extends_on_fs.
    + simpl. apply extends_seq; [apply _| |intros _];
        apply locator_screenshot_quiet.
  - apply extends_seq; [apply _| |intros saved].
    + apply silent_quiet. intros w. exists []. by rewrite app_nil_r.
    + apply extends_seq; [apply _| |intros _].
      * destruct saved.
        -- apply silent_quiet. intros w. exists []. rewrite app_nil_r.
           unfold add_files_to_pdf.
           destruct (read_all _ _); [done|]. split; [|done].
           unfold on_fs; simpl. by destruct (FS.write_file _ _ _).
        -- apply silent_quiet, extends_raise.
      * apply silent_quiet, extends_ret.
Qed.

Lemma order_body_quiet c fuel order :
  extends (order_body c fuel order : M O unit) quiet.
Proof.
  unfold order_body.
  eapply (extends_moves_bind _ _ _ (λ st, st = Some true));
    [apply close_annoying_modal_sets_flag| |by intros ? ->].
  intros _.
  eapply (extends_moves_bind _ _ _ is_Some);
    [apply fill_the_form_uses_flag| |done].
  intros _.
  apply extends_seq; [apply _|by apply call_quiet|intros _].
  apply extends_seq; [apply _| |intros _].
  { apply extends_while; [apply _|apply is_visible_quiet|by apply call_quiet]. }
  apply extends_seq; [apply _|apply store_receipt_as_pdf_quiet|intros _].
  by apply call_quiet.
Qed.

Lemma get_orders_quiet c : extends (get_orders c : M O (list Order)) quiet.
Proof.
  unfold get_orders, download_file.
  apply extends_seq; [apply _| |intros p].
  - apply extends_seq; [apply _| |intros r].
    + intros w. exists [HttpGet CSV_URL]. unfold requests_get.
      split; [by destruct (http_get O CSV_URL)|]. by apply quiet_single.
    + apply extends_seq; [apply _| |intros _].
      { unfold raise_for_status. case_decide;
          [apply silent_quiet, extends_raise|apply silent_quiet, extends_ret]. }
      apply extends_seq; [apply _|apply silent_quiet, extends_on_fs|intros _].
      apply extends_seq; [apply _|apply silent_quiet, extends_on_fs|intros _].
      apply silent_quiet, extends_ret.
  - apply silent_quiet. intros w. exists []. rewrite app_nil_r.
    unfold read_table_from_csv. destruct (FS.read_file _ _); [done|].
    by destruct (read_table _ _ _).
Qed.

Lemma archive_receipts_quiet c : extends (archive_receipts c : M O unit) quiet.
Proof.
  apply silent_quiet. intros w. exists []. rewrite app_nil_r.
  unfold archive_receipts, archive_folder_with_zip.
  case_decide; [done|]. unfold on_fs; simpl. by destruct (FS.write_file _ _ _).
Qed.

Lemma task_quiet c fuel :
  extends (order_robots_from_RobotSpareBin c fuel : M O unit) quiet.
Proof.
  unfold order_robots_from_RobotSpareBin, open_robot_order_website, go_to_order_page.
  apply extends_seq; [apply _|apply get_orders_quiet|intros orders].
  apply extends_seq; [apply _| |intros _].
  { apply extends_seq; [apply _| |intros _]; by apply call_quiet. }
  apply extends_seq; [apply _|by apply call_quiet|intros _].
  apply extends_seq; [apply _|by apply call_quiet|intros _].
  apply extends_seq; [apply _| |intros _].
  { apply extends_for_each; [apply _|]. intros x. apply order_body_quiet. }
  apply archive_receipts_quiet.
Qed.

End Modal_guard.

(** ** The form is filled in a fixed order, then submitted *)

Section Form.
Context {O : Outside}.

(** One browser call, followed by [k], as a case split on what the site
    answers. *)
Lemma call_then {B} a (k : unit → M O B) (w : World O) :
  (call a ≫= k) w =
  let sr := act O (page w) a in
  let w' := mkWorld sr.1 (fs w) (trace w ++ [a]) in
  match sr.2 with
  | None => k tt w'
  | Some msg => Raise (PlaywrightError msg) w'
  end.
Proof.
  rewrite bind_unfold. unfold call.
  by destruct (act O (page w) a) as [s [msg|]].
Qed.

Lemma call_last a (w : World O) :
  call a w =
  let sr := act O (page w) a in
  let w' := mkWorld sr.1 (fs w) (trace w ++ [a]) in
  match sr.2 with
  | None => Ok tt w'
  | Some msg => Raise (PlaywrightError msg) w'
  end.
Proof. unfold call. by destruct (act O (page w) a) as [s [msg|]]. Qed.

Lemma submit_order_then {B} (k : unit → M O B) (w : World O) :
  (submit_order ≫= k) w =
  let sr := act O (page w) (ClickRole "button" "Order") in
  let w' := mkWorld sr.1 (fs w) (trace w ++ [ClickRole "button" "Order"]) in
  match sr.2 with
  | None => k tt w'
  | Some msg => Raise (PlaywrightError msg) w'
  end.
Proof. apply call_then. Qed.

End Form.

(** Take the next browser call of the goal and split on the site's answer. *)
Ltac next_call :=
  first [rewrite call_then | rewrite call_last];
  cbv zeta; cbn [page fs trace];
  match goal with
  | |- context [act ?O ?s ?a] =>
      let E := fresh "E" in
      destruct (act O s a) as [? [?|]] eqn:E; cbn [fst snd]
  end.

Section Form_cases.
Context {O : Outside}.

Lemma fill_the_form_cases order (w : World O) :
  (∃ (k : nat) e w', k ≤ 4 ∧ fill_the_form order w = Raise e w'
             ∧ trace w' = trace w ++ take k (form_calls order) ∧ fs w' = fs w)
  ∨ (∃ w', fill_the_form order w = Ok tt w'
           ∧ trace w' = trace w ++ form_calls order ∧ fs w' = fs w).
Proof.
  unfold fill_the_form, set_head, set_body, set_legs, set_address.
  next_call; [left; exists 1; by eauto 10|].
  next_call; [left; exists 2; rewrite <- !app_assoc; by eauto 10|].
  next_call; [left; exists 3; rewrite <- !app_assoc; by eauto 10|].
  next_call; [left; exists 4; rewrite <- !app_assoc; by eauto 10|].
  right. rewrite <- !app_assoc. eauto.
Qed.

Lemma close_annoying_modal_cases (w : World O) :
  ∃ pre w',
    (pre = [IsVisible ".modal-header"]
     ∨ pre = [IsVisible ".modal-header"; ClickRole "button" "OK"])
    ∧ (close_annoying_modal w = Ok tt w'
       ∨ ∃ e, close_annoying_modal w = Raise e w')
    ∧ trace w' = trace w ++ pre ∧ fs w' = fs w.
Proof.
  unfold close_annoying_modal, is_visible. rewrite bind_unfold.
  destruct (visible O (page w) ".modal-header") as [s [|]]; simpl.
  - next_call; eexists _, _; (split; [by right|]);
      (split; [by eauto|]); simpl; by rewrite <- app_assoc.
  - eexists _, _. split; [by left|]. split; [by left|]. done.
Qed.

End Form_cases.

(** ** The submit loop *)

Section Retry.
Context {O : Outside}.

Lemma submit_clicks_app e1 e2 :
  submit_clicks (e1 ++ e2) = submit_clicks e1 + submit_clicks e2.
Proof. unfold submit_clicks. by rewrite filter_app, length_app. Qed.

Lemma while_banner_held_back fuel (w : World O) :
  (∀ s, (visible O s ".alert-danger").2 = true) →
  held_back w (while fuel (is_visible ".alert-danger") submit_order w).
Proof.
  intros Hb. revert w. induction fuel as [|n IH]; intros w; simpl;
    unfold is_visible at 1; specialize (Hb (page w));
    destruct (visible O (page w) ".alert-danger") as [s b]; simpl in Hb; subst b.
  - split; [done|]. exists [IsVisible ".alert-danger"]. simpl.
    split_and!; [done| |done]. by repeat constructor.
  - unfold submit_order at 1. rewrite call_last. cbv zeta. cbn [page fs trace].
    destruct (act O s (ClickRole "button" "Order")) as [s' [msg|]]; cbn [fst snd].
    + split; [done|]. eexists [_; _]. simpl. rewrite <- app_assoc.
      split_and!; [done| |done]. by repeat constructor.
    + destruct (IH (mkWorld s' (fs w)
                      ((trace w ++ [IsVisible ".alert-danger"])
                         ++ [ClickRole "button" "Order"])))
        as (Hno & evs & Ht & Hev & Hfs).
      simpl in Ht, Hfs. split; [done|].
      exists ([IsVisible ".alert-danger"; ClickRole "button" "Order"] ++ evs).
      split_and!; [by rewrite Ht, <- !app_assoc| |done].
      by repeat (constructor; [done|]).
Qed.

Lemma while_banner_diverges fuel (w : World O) :
  (∀ s, (visible O s ".alert-danger").2 = true) →
  (∀ s a, (act O s a).2 = None) →
  ∃ w' evs, while fuel (is_visible ".alert-danger") submit_order w = Diverge w'
            ∧ trace w' = trace w ++ evs ∧ submit_clicks evs = fuel.
Proof.
  intros Hb Ha. revert w. induction fuel as [|n IH]; intros w; simpl;
    unfold is_visible at 1; specialize (Hb (page w));
    destruct (visible O (page w) ".alert-danger") as [s b]; simpl in Hb; subst b.
  - by eexists _, [_].
  - unfold submit_order at 1. rewrite call_last. cbv zeta. cbn [page fs trace].
    specialize (Ha s (ClickRole "button" "Order")).
    destruct (act O s (ClickRole "button" "Order")) as [s' r]; simpl in Ha; subst r.
    cbn [fst snd].
    destruct (IH (mkWorld s' (fs w)
                    ((trace w ++ [IsVisible ".alert-danger"])
                       ++ [ClickRole "button" "Order"])))
      as (w' & evs & Hw & Ht & Hn).
    simpl in Ht.
    exists w', ([IsVisible ".alert-danger"; ClickRole "button" "Order"] ++ evs).
    split_and!; [done|by rewrite Ht, <- !app_assoc|].
    rewrite submit_clicks_app, Hn. done.
Qed.

End Retry.

(** C3. If the error banner is visible at every check, then for every
    order and every amount of fuel the per-order body never completes and
    never makes a screenshot call (receipt capture is not reached), and
    no file is touched; if moreover the clicks go through, the body is
    still clicking when the fuel runs out, having clicked submit once more
    than the fuel: the loop itself sets no bound on the attempts. *)
Theorem submit_retries_while_banner_visible
    (O : Outside) (c : Config) (order : Order) (w : World O) :
  (∀ s, (visible O s ".alert-danger").2 = true) →
  (∀ fuel, held_back w (order_body c fuel order w))
  ∧ ((∀ s a, (act O s a).2 = None) →
     ∀ fuel, ∃ w' evs,
       order_body c fuel order w = Diverge w'
       ∧ trace w' = trace w ++ evs
       ∧ submit_clicks evs = S fuel).
Proof.
  intros Hb. split.
  - intros fuel. unfold order_body.
    destruct (close_annoying_modal_cases w)
      as (pre & w1 & Hpre & [Hm|[e Hm]] & Ht1 & Hf1).
    2:{ rewrite (bind_Raise _ _ _ _ _ Hm). split; [done|]. exists pre. simpl.
        split_and!; [done| |done]. destruct Hpre as [-> | ->]; by repeat constructor. }
    rewrite (bind_Ok _ _ _ _ _ Hm).
    assert (Hpre' : Forall (λ a, is_screenshot a = false) pre).
    { destruct Hpre as [-> | ->]; by repeat constructor. }
    assert (Hform : ∀ k, Forall (λ a, is_screenshot a = false) (take k (form_calls order))).
    { intros k. apply Forall_take. by repeat constructor. }
    destruct (fill_the_form_cases order w1)
      as [(k & e & w2 & Hk & Hf & Ht2 & Hf2)|(w2 & Hf & Ht2 & Hf2)].
    { rewrite (bind_Raise _ _ _ _ _ Hf). split; [done|].
      exists (pre ++ take k (form_calls order)). simpl.
      rewrite Ht2, Ht1, <- app_assoc, Hf2, Hf1.
      split_and!; [done| |done]. by apply Forall_app. }
    rewrite (bind_Ok _ _ _ _ _ Hf).
    rewrite submit_order_then. cbv zeta.
    destruct (act O (page w2) (ClickRole "button" "Order")) as [s3 [msg|]];
      cbn [fst snd].
    { split; [done|]. exists (pre ++ form_calls order ++ [ClickRole "button" "Order"]).
      simpl. rewrite Ht2, Ht1, <- !app_assoc, Hf2, Hf1.
      split_and!; [done| |done]. apply Forall_app. split; [done|].
      by repeat constructor. }
    set (w3 := mkWorld s3 (fs w2) (trace w2 ++ [ClickRole "button" "Order"])).
    destruct (while_banner_held_back fuel w3 Hb) as (Hno & evs & Ht3 & Hev & Hf3).
    rewrite bind_unfold.
    destruct (while fuel (is_visible ".alert-danger") submit_order w3)
      as [[] w4|e w4|w4]; [by destruct (Hno tt w4)|..];
      (split; [done|]);
      exists (pre ++ form_calls order ++ [ClickRole "button" "Order"] ++ evs);
      simpl in *; rewrite Ht3, Ht2, Ht1, <- !app_assoc, Hf3, Hf2, Hf1;
      (split_and!; [done| |done]);
      apply Forall_app; (split; [done|]); by repeat constructor.
  - intros Ha fuel. unfold order_body.
    destruct (close_annoying_modal_cases w)
      as (pre & w1 & Hpre & [Hm|[e Hm]] & Ht1 & Hf1).
    2:{ exfalso. revert Hm. unfold close_annoying_modal, is_visible.
        rewrite bind_unfold.
        destruct (visible O (page w) ".modal-header") as [s [|]]; simpl; [|done].
        rewrite call_last. cbv zeta. by rewrite Ha. }
    rewrite (bind_Ok _ _ _ _ _ Hm).
    destruct (fill_the_form_cases order w1)
      as [(k & e & w2 & Hk & Hf & Ht2 & Hf2)|(w2 & Hf & Ht2 & Hf2)].
    { exfalso. revert Hf.
      unfold fill_the_form, set_head, set_body, set_legs, set_address.
      rewrite call_then; cbv zeta; rewrite Ha.
      rewrite call_then; cbv zeta; rewrite Ha.
      rewrite call_then; cbv zeta; rewrite Ha.
      rewrite call_last; cbv zeta; rewrite Ha. done. }
    rewrite (bind_Ok _ _ _ _ _ Hf).
    rewrite submit_order_then. cbv zeta. rewrite Ha.
    set (w3 := mkWorld _ (fs w2) (trace w2 ++ [ClickRole "button" "Order"])).
    destruct (while_banner_diverges fuel w3 Hb Ha) as (w4 & evs & Hw & Ht3 & Hn).
    rewrite (bind_Diverge _ _ _ _ Hw).
    exists w4, (pre ++ form_calls order ++ [ClickRole "button" "Order"] ++ evs).
    split; [done|]. split.
    + rewrite Ht3. simpl. rewrite Ht2, Ht1, <- !app_assoc. done.
    + rewrite !submit_clicks_app, Hn.
      destruct Hpre as [-> | ->]; done.
Qed.

(** The loop is not bounded from inside: on a shop that rejects the first
    [k] submissions of an order, the body clicks submit [k + 1] times and
    then goes on to the captures and completes, whatever [k] is. *)
Lemma flaky_loop (k n : nat) (w : World (Scenario.flaky k)) :
  (page w : nat) + n = k →
  ∃ evs, while n (is_visible ".alert-danger") submit_order w
           = Ok tt (mkWorld (S k : site (Scenario.flaky k)) (fs w) (trace w ++ evs))
         ∧ submit_clicks evs = n.
Proof.
  assert (Hvis : ∀ w : World (Scenario.flaky k),
            is_visible ".alert-danger" w
            = Ok (bool_decide ((page w : nat) < k))
                 (mkWorld (S (page w) : site (Scenario.flaky k)) (fs w)
                    (trace w ++ [IsVisible ".alert-danger"]))) by done.
  assert (Hsub : ∀ w : World (Scenario.flaky k),
            submit_order w
            = Ok tt (mkWorld (page w) (fs w)
                       (trace w ++ [ClickRole "button" "Order"]))) by done.
  revert w. induction n as [|n IH]; intros [s disk tr] Hk; simpl in Hk.
  - assert (s = k) as -> by lia. exists [IsVisible ".alert-danger"].
    cbn [while]. rewrite Hvis. cbn [page fs trace].
    rewrite bool_decide_eq_false_2 by lia. done.
  - cbn [while]. rewrite Hvis. cbn [page fs trace].
    rewrite bool_decide_eq_true_2 by lia.
    rewrite Hsub. cbn [page fs trace].
    destruct (IH (mkWorld (S s : site (Scenario.flaky k)) disk
                    ((tr ++ [IsVisible ".alert-danger"])
                       ++ [ClickRole "button" "Order"])))
      as (evs & Hw & Hn); [simpl; lia|].
    exists ([IsVisible ".alert-danger"; ClickRole "button" "Order"] ++ evs).
    rewrite Hw. cbn [fs trace]. rewrite <- !app_assoc.
    split; [done|]. rewrite (submit_clicks_app [_; _]), Hn. done.
Qed.

Lemma flaky_capture (k : nat) (tr : list Call) :
  (store_receipt_as_pdf (Scenario.at_home ∅) 1 ;; create_new_order)
    (mkWorld (S k : site (Scenario.flaky k)) Scenario.ready_disk tr)
  = Ok tt (mkWorld (S k : site (Scenario.flaky k)) Scenario.disk_after_order1
             (((tr ++ [Screenshot "#receipt" "output/receipt_1.png"])
                 ++ [Screenshot "#robot-preview-image" "output/robot_1.png"])
                ++ [ClickRole "button" "Order another robot"])).
Proof. vm_compute. reflexivity. Qed.

Lemma retry_loop_has_no_bound (k : nat) :
  ∃ w' evs,
    order_body (Scenario.at_home ∅) k Scenario.order1
      (Scenario.start (Scenario.flaky k) 0 Scenario.ready_disk) = Ok tt w'
    ∧ trace w' = evs
    ∧ submit_clicks evs = S k
    ∧ Exists (λ a, is_screenshot a = true) evs.
Proof.
  unfold order_body.
  rewrite (bind_Ok _ _ _ tt
    (mkWorld (0 : site (Scenario.flaky k)) Scenario.ready_disk
       [IsVisible ".modal-header"])) by reflexivity.
  rewrite (bind_Ok _ _ _ tt
    (mkWorld (0 : site (Scenario.flaky k)) Scenario.ready_disk
       ([IsVisible ".modal-header"] ++ form_calls Scenario.order1)))
    by reflexivity.
  rewrite (bind_Ok _ _ _ tt
    (mkWorld (0 : site (Scenario.flaky k)) Scenario.ready_disk
       ([IsVisible ".modal-header"] ++ form_calls Scenario.order1
          ++ [ClickRole "button" "Order"]))) by reflexivity.
  edestruct (flaky_loop k k) as (evs & Hw & Hn); [|rewrite (bind_Ok _ _ _ _ _ Hw)];
    [simpl; lia|].
  cbn [fs trace].
  rewrite flaky_capture. eexists _, _. split; [done|]. split; [done|].
  cbn [trace]. split.
  - rewrite !submit_clicks_app, Hn.
    assert (submit_clicks [IsVisible ".modal-header"] = 0) as -> by done.
    assert (submit_clicks (form_calls Scenario.order1) = 0) as -> by done.
    assert (submit_clicks [ClickRole "button" "Order"] = 1) as -> by done.
    assert (submit_clicks [Screenshot "#receipt" "output/receipt_1.png"] = 0)
      as -> by done.
    assert (submit_clicks
              [Screenshot "#robot-preview-image" "output/robot_1.png"] = 0)
      as -> by done.
    assert (submit_clicks [ClickRole "button" "Order another robot"] = 0)
      as -> by done.
    lia.
  - apply Exists_app. left. apply Exists_app. left. apply Exists_app. right.
    apply Exists_cons_hd. done.
Qed.

(** ** Paths: parsing, printing and resolving *)

Section Path_facts.

Lemma slash_free_app a b :
  slash_free (a +:+ b) = slash_free a && slash_free b.
Proof.
  induction a as [|c a IH]; simpl; [done|]. rewrite IH. by rewrite andb_assoc.
Qed.

Lemma split_slash_free s : slash_free s = true → split_slash s = [s].
Proof.
  induction s as [|c s IH]; simpl; [done|].
  intros [Hc Hs]%andb_true_iff. apply negb_true_iff in Hc. rewrite Hc.
  by rewrite IH.
Qed.

Lemma split_slash_app a b :
  slash_free a = true →
  split_slash (a +:+ "/" +:+ b) = a :: split_slash b.
Proof.
  induction a as [|c a IH]; simpl; [done|].
  intros [Hc Hs]%andb_true_iff. apply negb_true_iff in Hc. rewrite Hc.
  by rewrite IH.
Qed.

Lemma split_slash_pieces s : Forall (λ x, slash_free x = true) (split_slash s).
Proof.
  induction s as [|c s IH]; simpl; [by repeat constructor|].
  destruct (Ascii.eqb c slash) eqn:Hc; [by constructor|].
  destruct (split_slash s) as [|x xs].
  { constructor; [|done]. simpl. by rewrite Hc. }
  inversion_clear IH. constructor; [|done]. simpl. by rewrite Hc.
Qed.

Lemma split_join l :
  l ≠ [] → Forall (λ x, slash_free x = true) l → split_slash (join_slash l) = l.
Proof.
  induction l as [|x [|y r] IH]; [done|..]; intros _ Hl.
  - simpl. apply split_slash_free. by inversion Hl.
  - inversion_clear Hl.
    change (join_slash (x :: y :: r)) with (x +:+ "/" +:+ join_slash (y :: r)).
    rewrite split_slash_app by done. f_equal. by apply IH.
Qed.

Lemma wf_Path_of_string s : wf_path (Path_of_string s).
Proof.
  unfold wf_path, Path_of_string; simpl.
  apply Forall_forall. intros x [Hx Hin]%list_elem_of_filter.
  split; [done|].
  by eapply (proj1 (Forall_forall _ _) (split_slash_pieces s)).
Qed.

Lemma wf_Path_div p s : wf_path p → wf_path (p /p s).
Proof.
  intros Hp. unfold Path_div.
  destruct (absolute (Path_of_string s)); [apply wf_Path_of_string|].
  unfold wf_path; simpl. apply Forall_app. split; [done|].
  apply wf_Path_of_string.
Qed.

Lemma filter_names l :
  Forall (λ x, is_name x ∧ slash_free x = true) l → filter is_name l = l.
Proof.
  induction 1 as [|x l [Hx _] _ IH]; [done|].
  rewrite filter_cons_True by done. by rewrite IH.
Qed.

Lemma starts_with_slash_join l :
  l ≠ [] → Forall (λ x, is_name x ∧ slash_free x = true) l →
  starts_with_slash (join_slash l) = false.
Proof.
  destruct l as [|x r]; [done|]. intros _ Hl. inversion_clear Hl as [|?? [[Hne _] Hx] _].
  destruct x as [|c x]; [done|]. simpl in Hx.
  apply andb_true_iff in Hx as [Hc _]. apply negb_true_iff in Hc.
  destruct r; simpl; done.
Qed.

(** Printing a path and parsing it again gives the path back. *)
Lemma Path_of_string_str p : wf_path p → Path_of_string (Path_str p) = p.
Proof.
  destruct p as [a l]. unfold wf_path, Path_str; simpl. intros Hl.
  destruct l as [|x r]; [by destruct a|].
  assert (Hfree : Forall (λ x, slash_free x = true) (x :: r)).
  { eapply Forall_impl; [done|]. by intros ? [_ ?]. }
  destruct a; unfold Path_of_string.
  - change ("/" +:+ join_slash (x :: r)) with ("" +:+ "/" +:+ join_slash (x :: r)).
    rewrite split_slash_app by done. rewrite split_join by done.
    f_equal. rewrite filter_cons_False by (by intros [? _]).
    by apply filter_names.
  - change ("" +:+ join_slash (x :: r)) with (join_slash (x :: r)).
    rewrite split_join by done. rewrite starts_with_slash_join by done.
    f_equal. by apply filter_names.
Qed.

Lemma resolve_str_Path_str cwd p :
  wf_path p → resolve_str cwd (Path_str p) = resolve cwd p.
Proof. intros Hp. unfold resolve_str. by rewrite Path_of_string_str. Qed.

(** Appending a plain name appends one component. *)
Lemma Path_div_plain p s :
  plain_name s → p /p s = mkPath (absolute p) (parts p ++ [s]).
Proof.
  intros (Hfree & Hne & Hdot & _). unfold Path_div, Path_of_string.
  rewrite split_slash_free by done.
  rewrite filter_cons_True by done. simpl.
  destruct s as [|c s]; [done|]. simpl in *.
  apply andb_true_iff in Hfree as [Hc _]. apply negb_true_iff in Hc.
  by rewrite Hc.
Qed.

Lemma normalise_snoc stack l x :
  x ≠ ".." → normalise stack (l ++ [x]) = normalise stack l ++ [x].
Proof.
  intros Hx. revert stack. induction l as [|y l IH]; intros stack; simpl.
  - by rewrite decide_False.
  - destruct (decide (y = "..")); apply IH.
Qed.

Lemma resolve_div_plain cwd p s :
  plain_name s → resolve cwd (p /p s) = resolve cwd p ++ [s].
Proof.
  intros Hs. rewrite Path_div_plain by done. unfold resolve; simpl.
  apply normalise_snoc. apply Hs.
Qed.

(** Decimal numerals have no slash in them. *)
Lemma slash_free_pretty_N_go x s :
  slash_free s = true → slash_free (pretty_N_go x s) = true.
Proof.
  revert s. induction (N.lt_wf_0 x) as [x _ IH]; intros s Hs.
  assert (x = 0 ∨ 0 < x)%N as [->|?] by lia.
  - by rewrite pretty_N_go_0.
  - rewrite pretty_N_go_step by done. apply IH.
    { by apply N.div_lt. }
    simpl. rewrite Hs. unfold pretty_N_char. by repeat case_match.
Qed.

Lemma slash_free_pretty_Z (n : Z) : slash_free (pretty n) = true.
Proof.
  assert (HN : ∀ x : N, slash_free (pretty x) = true).
  { intros x. unfold pretty, pretty_N. case_decide; [done|].
    by apply slash_free_pretty_N_go. }
  destruct n as [|p|p]; [done|apply (HN (Npos p))|].
  change (pretty (Z.neg p)) with ("-" +:+ pretty (Npos p)).
  rewrite slash_free_app, HN. done.
Qed.

(** The file names the script builds from an order number. *)
Lemma plain_numbered (pre suf : string) (c0 : ascii) (rest : string) (n : Z) :
  pre = String c0 rest → c0 ≠ "."%char →
  slash_free pre = true → slash_free suf = true →
  plain_name (pre +:+ pretty n +:+ suf).
Proof.
  intros -> Hc Hpre Hsuf. split_and!.
  - by rewrite !slash_free_app, Hpre, slash_free_pretty_Z, Hsuf.
  - done.
  - simpl. intros [= ? _]. done.
  - simpl. intros [= ? _]. done.
Qed.

Lemma plain_order_pdf (n : Z) : plain_name ("order_" +:+ pretty n +:+ ".pdf").
Proof. by eapply plain_numbered. Qed.

Lemma plain_receipt_png (n : Z) : plain_name ("receipt_" +:+ pretty n +:+ ".png").
Proof. by eapply plain_numbered. Qed.

Lemma plain_robot_png (n : Z) : plain_name ("robot_" +:+ pretty n +:+ ".png").
Proof. by eapply plain_numbered. Qed.

Lemma plain_orders : plain_name "orders".
Proof. by split_and!. Qed.

End Path_facts.

(** ** The file system operations *)

Section FS_facts.

Lemma dirs_added_refl k disk : dirs_added k disk disk.
Proof. intros j. by left. Qed.

Lemma dirs_added_trans k disk1 disk2 disk3 :
  dirs_added k disk1 disk2 → dirs_added k disk2 disk3 → dirs_added k disk1 disk3.
Proof.
  intros H12 H23 j. destruct (H12 j) as [E12|(N1 & D2 & P)],
    (H23 j) as [E23|(N2 & D3 & P')].
  - left. congruence.
  - right. split_and!; [congruence|done|done].
  - right. split_and!; [done|congruence|done].
  - congruence.
Qed.

Lemma dirs_added_mono k k' disk disk' :
  k `prefix_of` k' → dirs_added k disk disk' → dirs_added k' disk disk'.
Proof.
  intros Hk H j. destruct (H j) as [?|(? & ? & ?)]; [by left|right].
  split_and!; [done|done|]. by etrans.
Qed.

Lemma dirs_added_same_files k disk disk' :
  dirs_added k disk disk' → same_files disk disk'.
Proof.
  intros H j d. destruct (H j) as [->|(HN & HD & _)]; [done|].
  rewrite HN, HD. naive_solver.
Qed.

Lemma dirs_added_insert k disk :
  disk !! k = None → dirs_added k disk (<[k := Dir]> disk).
Proof.
  intros Hk j. destruct (decide (k = j)) as [<-|Hne].
  - right. by rewrite lookup_insert_eq.
  - left. by rewrite lookup_insert_ne.
Qed.

Lemma os_mkdir_inr k disk disk' :
  FS.os_mkdir k disk = inr disk' → dirs_added k disk disk'.
Proof.
  unfold FS.os_mkdir. destruct k as [|x k]; [done|].
  destruct (disk !! (x :: k)) eqn:Hk; [done|].
  case_match; [|done]. intros [= <-]. by apply dirs_added_insert.
Qed.

Lemma os_mkdir_inl k disk e : FS.os_mkdir k disk = inl e → os_error e.
Proof.
  unfold FS.os_mkdir, FS.parent_error, FS.no_entry. destruct k as [|x k].
  - by intros [= <-].
  - repeat case_match; intros [= <-]; done.
Qed.

Lemma makedirs_inr above todo disk disk' :
  FS.makedirs above todo disk = inr disk' →
  dirs_added (above ++ todo) disk disk'.
Proof.
  revert above disk. induction todo as [|x r IH]; intros above disk; simpl.
  - intros [= <-]. apply dirs_added_refl.
  - replace (above ++ x :: r) with ((above ++ [x]) ++ r) by by rewrite <- app_assoc.
    destruct (disk !! (above ++ [x])) as [[d|]|] eqn:Hk; [done|by apply IH|].
    intros H%IH. eapply dirs_added_trans; [|done].
    eapply dirs_added_mono; [|by apply dirs_added_insert].
    by apply prefix_app_r.
Qed.

Lemma makedirs_inl above todo disk e :
  FS.makedirs above todo disk = inl e → os_error e.
Proof.
  revert above disk. induction todo as [|x r IH]; intros above disk; simpl; [done|].
  destruct (disk !! (above ++ [x])) as [[d|]|]; [|by apply IH..].
  destruct r; by intros [= <-].
Qed.

Lemma prefix_removelast (k : list string) : removelast k `prefix_of` k.
Proof.
  destruct (decide (k = [])) as [->|Hk]; [done|].
  exists [List.last k ""]. by apply app_removelast_last.
Qed.

Lemma Path_mkdir_inr parents exist_ok k disk disk' :
  FS.Path_mkdir parents exist_ok k disk = inr disk' → dirs_added k disk disk'.
Proof.
  unfold FS.Path_mkdir.
  destruct (FS.os_mkdir k disk) as [e|disk1] eqn:H1.
  - destruct e;
      try (case_match; [intros [= <-]; apply dirs_added_refl|done]).
    destruct parents; [|done].
    destruct (FS.makedirs [] (removelast k) disk) as [e|disk2] eqn:H2; [done|].
    intros H3%os_mkdir_inr. apply makedirs_inr in H2. simpl in H2.
    eapply dirs_added_trans; [|done].
    eapply dirs_added_mono; [|done]. apply prefix_removelast.
  - intros [= <-]. by apply os_mkdir_inr.
Qed.

Lemma Path_mkdir_inl parents exist_ok k disk e :
  FS.Path_mkdir parents exist_ok k disk = inl e → os_error e.
Proof.
  unfold FS.Path_mkdir.
  destruct (FS.os_mkdir k disk) as [e1|disk1] eqn:H1; [|done].
  apply os_mkdir_inl in H1.
  destruct e1; try done; try (case_match; [done|by intros [= <-]]).
  destruct parents; [|by intros [= <-]].
  destruct (FS.makedirs [] (removelast k) disk) as [e2|disk2] eqn:H2.
  - intros [= <-]. by eapply makedirs_inl.
  - apply os_mkdir_inl.
Qed.

Lemma write_file_inr k d disk disk' :
  FS.write_file k d disk = inr disk' → disk' = <[k := File d]> disk.
Proof.
  unfold FS.write_file. destruct k as [|x k]; [done|].
  repeat case_match; by intros [= <-].
Qed.

Lemma write_file_inl k d disk e : FS.write_file k d disk = inl e → os_error e.
Proof.
  unfold FS.write_file, FS.parent_error, FS.no_entry. destruct k as [|x k].
  - by intros [= <-].
  - repeat case_match; intros [= <-]; done.
Qed.

Lemma read_file_inr k disk d :
  FS.read_file k disk = inr d → disk !! k = Some (File d).
Proof. unfold FS.read_file. repeat case_match; by intros [= <-]. Qed.

Lemma read_file_inl k disk e : FS.read_file k disk = inl e → os_error e.
Proof.
  unfold FS.read_file, FS.no_entry. repeat case_match; by intros [= <-].
Qed.

Lemma read_all_inl disk ks e : read_all disk ks = inl e → os_error e.
Proof.
  induction ks as [|k r IH]; simpl; [done|].
  destruct (FS.read_file k disk) eqn:Hk.
  - intros [= <-]. by eapply read_file_inl.
  - destruct (read_all disk r); [|done]. intros [= <-]. by apply IH.
Qed.

Lemma read_all_two disk k1 k2 ds :
  read_all disk [k1; k2] = inr ds →
  ∃ x y, ds = [x; y] ∧ disk !! k1 = Some (File x) ∧ disk !! k2 = Some (File y).
Proof.
  simpl. destruct (FS.read_file k1 disk) as [|x] eqn:H1; [done|].
  destruct (FS.read_file k2 disk) as [|y] eqn:H2; [done|].
  intros [= <-]. exists x, y. eauto using read_file_inr.
Qed.

End FS_facts.

(** ** Where the script puts its files *)

Section Script_paths.
Context (c : Config).

Lemma wf_OUTPUT_DIR : wf_path (OUTPUT_DIR c).
Proof. apply wf_Path_of_string. Qed.

Lemma resolve_ORDERS_DIR :
  resolve (cwd c) (ORDERS_DIR c) = resolve (cwd c) (OUTPUT_DIR c) ++ ["orders"].
Proof. apply resolve_div_plain, plain_orders. Qed.

Lemma resolve_pdf_file (n : Z) :
  resolve (cwd c) (pdf_file c n)
  = resolve (cwd c) (OUTPUT_DIR c) ++ ["orders"; "order_" +:+ pretty n +:+ ".pdf"].
Proof.
  unfold pdf_file. rewrite resolve_div_plain by apply plain_order_pdf.
  rewrite resolve_ORDERS_DIR, <- app_assoc. done.
Qed.

Lemma resolve_receipt_file (n : Z) :
  resolve (cwd c) (receipt_file c n)
  = resolve (cwd c) (OUTPUT_DIR c) ++ ["receipt_" +:+ pretty n +:+ ".png"].
Proof. apply resolve_div_plain, plain_receipt_png. Qed.

Lemma resolve_robot_file (n : Z) :
  resolve (cwd c) (robot_file c n)
  = resolve (cwd c) (OUTPUT_DIR c) ++ ["robot_" +:+ pretty n +:+ ".png"].
Proof. apply resolve_div_plain, plain_robot_png. Qed.

Lemma resolve_str_pdf_file (n : Z) :
  resolve_str (cwd c) (Path_str (pdf_file c n)) = resolve (cwd c) (pdf_file c n).
Proof. apply resolve_str_Path_str, wf_Path_div, wf_Path_div, wf_OUTPUT_DIR. Qed.

Lemma resolve_str_receipt_file (n : Z) :
  resolve_str (cwd c) (Path_str (receipt_file c n)) = resolve (cwd c) (receipt_file c n).
Proof. apply resolve_str_Path_str, wf_Path_div, wf_OUTPUT_DIR. Qed.

Lemma resolve_str_robot_file (n : Z) :
  resolve_str (cwd c) (Path_str (robot_file c n)) = resolve (cwd c) (robot_file c n).
Proof. apply resolve_str_Path_str, wf_Path_div, wf_OUTPUT_DIR. Qed.

Lemma receipt_not_robot (n : Z) :
  resolve (cwd c) (receipt_file c n) ≠ resolve (cwd c) (robot_file c n).
Proof.
  rewrite resolve_receipt_file, resolve_robot_file.
  intros [_ [= ?]]%app_inj_tail.
Qed.

Lemma pdf_not_receipt (n : Z) :
  resolve (cwd c) (pdf_file c n) ≠ resolve (cwd c) (receipt_file c n).
Proof.
  rewrite resolve_pdf_file, resolve_receipt_file.
  intros H%(f_equal length). rewrite !length_app in H. simpl in H. lia.
Qed.

Lemma pdf_not_robot (n : Z) :
  resolve (cwd c) (pdf_file c n) ≠ resolve (cwd c) (robot_file c n).
Proof.
  rewrite resolve_pdf_file, resolve_robot_file.
  intros H%(f_equal length). rewrite !length_app in H. simpl in H. lia.
Qed.

Lemma pdf_not_above_output (n : Z) :
  ¬ resolve (cwd c) (pdf_file c n) `prefix_of` resolve (cwd c) (OUTPUT_DIR c).
Proof.
  rewrite resolve_pdf_file. intros H%prefix_length.
  rewrite length_app in H. simpl in H. lia.
Qed.

End Script_paths.

(** ** Storing a receipt *)

Section Store.
Context {O : Outside} (c : Config).

Lemma on_fs_Ok op (w w' : World O) :
  on_fs op w = Ok tt w' →
  ∃ disk', op (fs w) = inr disk' ∧ w' = mkWorld (page w) disk' (trace w).
Proof. unfold on_fs. destruct (op (fs w)); [done|]. intros [= <-]. eauto. Qed.

Lemma on_fs_Raise op (w w' : World O) e :
  on_fs op w = Raise e w' → op (fs w) = inl e ∧ w' = w.
Proof. unfold on_fs. destruct (op (fs w)); [|done]. by intros [= <- <-]. Qed.

Lemma on_fs_never_diverges op (w w' : World O) : on_fs op w ≠ Diverge w'.
Proof. unfold on_fs. by destruct (op (fs w)). Qed.

Lemma locator_screenshot_Ok l path (w w' : World O) :
  locator_screenshot c l path w = Ok tt w' →
  page w' = (shoot O (page w) (selector_of l)).1
  ∧ match (shoot O (page w) (selector_of l)).2 with
    | Captured png =>
        fs w' = <[resolve_str (cwd c) path := File (Image png)]> (fs w)
    | NotSaved => fs w' = fs w
    | ShotFails _ => False
    end.
Proof.
  unfold locator_screenshot.
  destruct (shoot O (page w) (selector_of l)) as [s [png| |msg]]; simpl; [| |done].
  - destruct (FS.write_file _ _ _) eqn:Hw; [done|]. intros [= <-]. simpl.
    split; [done|]. by eapply write_file_inr.
  - by intros [= <-].
Qed.

Lemma locator_screenshot_raises l path :
  raises_only capture_error (locator_screenshot c l path : M O unit).
Proof.
  intros w e w'. unfold locator_screenshot.
  destruct (shoot O (page w) (selector_of l)) as [s [png| |msg]]; simpl; [|done|].
  - destruct (FS.write_file _ _ _) eqn:Hw; [|done]. intros [= <- _].
    left. by eapply write_file_inl.
  - intros [= <- _]. right. by eexists.
Qed.

Lemma raises_only_bind {A B} P (m : M O A) (k : A → M O B) :
  raises_only P m → (∀ a, raises_only P (k a)) → raises_only P (m ≫= k).
Proof.
  intros Hm Hk w e w'. rewrite bind_unfold.
  destruct (m w) as [a w1|e1 w1|w1] eqn:E; [apply Hk| |done].
  intros [= <- <-]. by eapply Hm.
Qed.

Lemma raises_only_ret {A} P (a : A) : raises_only P (mret a : M O A).
Proof. by intros w e w'. Qed.

Lemma raises_only_on_fs op :
  (∀ disk e, op disk = inl e → os_error e) →
  raises_only capture_error (on_fs op : M O unit).
Proof. intros Hop w e w' [H _]%on_fs_Raise. left. by eapply Hop. Qed.

Lemma store_receipt_as_pdf_raises n :
  raises_only capture_error (store_receipt_as_pdf c n : M O Path).
Proof.
  unfold store_receipt_as_pdf, store_receipt_capture, store_receipt_compose.
  apply raises_only_bind; [|intros _].
  - apply raises_only_bind; [|intros _].
    + apply raises_only_on_fs. intros ??. apply Path_mkdir_inl.
    + simpl. apply raises_only_bind; [|intros _]; apply locator_screenshot_raises.
  - apply raises_only_bind; [by intros w e w'|intros saved].
    apply raises_only_bind; [|intros _; apply raises_only_ret].
    destruct saved.
    + intros w e w'. unfold add_files_to_pdf.
      destruct (read_all _ _) eqn:Hr.
      * intros [= <- _]. left. by eapply read_all_inl.
      * intros [H _]%on_fs_Raise. left. by eapply write_file_inl.
    + intros w e w' [= <- _]. by left.
Qed.

End Store.

(** C1, as the code has it.  The specification wants a [ValueError] when the
    receipt element is missing.  On a page without that element the
    function raises the browser's timeout instead, and on no page at all
    does it raise [ValueError]: the test on line 75 is made on a locator
    handle, which is always true, so line 79 is never reached. *)
Theorem store_receipt_missing_element_raises_timeout :
  (∃ w',
     store_receipt_as_pdf (Scenario.at_home ∅) 1
       (Scenario.start Scenario.no_receipt 0 Scenario.ready_disk)
     = Raise (PlaywrightError "Timeout 10000ms exceeded.") w')
  ∧ (∀ (O : Outside) (c : Config) (n : Z) (w w' : World O) msg,
       store_receipt_as_pdf c n w ≠ Raise (ValueError msg) w').
Proof.
  split.
  - eexists. vm_compute. reflexivity.
  - intros O c n w w' msg H%store_receipt_as_pdf_raises.
    destruct H as [H|[? H]]; done.
Qed.

Section Store_results.
Context {O : Outside} (c : Config).

Lemma saved_other k j r disk : k ≠ j → saved k r disk !! j = disk !! j.
Proof. intros Hkj. destruct r; simpl; [|done..]. by rewrite lookup_insert_ne. Qed.

(** What the two captures leave behind when they return. *)
Lemma store_receipt_capture_Ok n (w w1 : World O) :
  store_receipt_capture c n w = Ok tt w1 →
  let shot1 := shoot O (page w) "#receipt" in
  let shot2 := shoot O shot1.1 "#robot-preview-image" in
  ∃ disk,
    dirs_added (resolve (cwd c) (OUTPUT_DIR c)) (fs w) disk
    ∧ fs w1 = saved (resolve (cwd c) (robot_file c n)) shot2.2
                (saved (resolve (cwd c) (receipt_file c n)) shot1.2 disk).
Proof.
  unfold store_receipt_capture. simpl.
  intros ([] & wa & Ha & Hrest)%bind_Ok_inv. unfold Path_mkdir in Ha.
  apply on_fs_Ok in Ha as (disk & Hmk%Path_mkdir_inr & ->).
  apply bind_Ok_inv in Hrest as ([] & wb & Hb & Hc).
  apply locator_screenshot_Ok in Hb as [Hpb Hfb]. simpl in *.
  apply locator_screenshot_Ok in Hc as [_ Hfc]. simpl in *.
  rewrite resolve_str_receipt_file in Hfb. rewrite resolve_str_robot_file in Hfc.
  exists disk. split; [done|]. rewrite Hpb in Hfc.
  destruct (shoot O (page w) "#receipt").2 as [png1| |]; [| |done];
    destruct (shoot O _ "#robot-preview-image").2 as [png2| |]; try done;
    simpl; congruence.
Qed.

Lemma capture_keeps_pdf n (w w1 : World O) :
  store_receipt_capture c n w = Ok tt w1 →
  fs w1 !! resolve (cwd c) (pdf_file c n) = fs w !! resolve (cwd c) (pdf_file c n).
Proof.
  intros (disk & Hd & ->)%store_receipt_capture_Ok.
  rewrite !saved_other by (apply not_eq_sym; auto using pdf_not_receipt, pdf_not_robot).
  destruct (Hd (resolve (cwd c) (pdf_file c n))) as [?|(_ & _ & Hp)]; [done|].
  by apply pdf_not_above_output in Hp.
Qed.

(** What the merge leaves behind when it returns. *)
Lemma store_receipt_compose_Ok n (w1 w' : World O) p :
  store_receipt_compose c n w1 = Ok p w' →
  p = pdf_file c n
  ∧ ∃ x y,
      fs w1 !! resolve (cwd c) (receipt_file c n) = Some (File x)
      ∧ fs w1 !! resolve (cwd c) (robot_file c n) = Some (File y)
      ∧ fs w' = <[resolve (cwd c) (pdf_file c n) := File (Pdf [x; y])]> (fs w1).
Proof.
  unfold store_receipt_compose.
  intros (saved_ok & w2 & Hs & Hrest)%bind_Ok_inv.
  unfold Path_is_file in Hs. injection Hs as <- <-.
  apply bind_Ok_inv in Hrest as ([] & w3 & Hadd & Hret).
  injection Hret as <- <-. split; [done|].
  destruct (FS.is_file _ _); [|done].
  unfold add_files_to_pdf in Hadd.
  destruct (read_all _ _) as [|pages] eqn:Hr; [done|].
  apply (read_all_two (fs w1) (resolve_str (cwd c) (Path_str (receipt_file c n)))
           (resolve_str (cwd c) (Path_str (robot_file c n)))) in Hr as (x & y & -> & Hx & Hy).
  apply on_fs_Ok in Hadd as (disk & ->%write_file_inr & ->). simpl.
  rewrite resolve_str_receipt_file in Hx. rewrite resolve_str_robot_file in Hy.
  rewrite resolve_str_pdf_file. eauto.
Qed.

End Store_results.

(** C6. If the two capture calls return and the receipt screenshot is
    then not a file on disk, the function raises the missing-file error
    of line 85, in the world the captures left: the merge is not run, and
    what was at the PDF's path before the call is still there. *)
Theorem store_receipt_missing_screenshot_raises
    (O : Outside) (c : Config) (n : Z) (w w1 : World O) :
  store_receipt_capture c n w = Ok tt w1 →
  FS.is_file (fs w1) (resolve (cwd c) (receipt_file c n)) = false →
  store_receipt_as_pdf c n w
    = Raise (FileNotFoundError
               ("Screenshot não foi salvo corretamente em "
                  +:+ Path_str (receipt_file c n))) w1
  ∧ fs w1 !! resolve (cwd c) (pdf_file c n)
    = fs w !! resolve (cwd c) (pdf_file c n).
Proof.
  intros Hcap Hfile. split; [|by apply capture_keeps_pdf].
  unfold store_receipt_as_pdf. rewrite (bind_Ok _ _ _ _ _ Hcap).
  unfold store_receipt_compose, Path_is_file. rewrite bind_unfold, Hfile.
  done.
Qed.

Lemma store_receipt_missing_screenshot_witness :
  let w := Scenario.start Scenario.blind 0 Scenario.ready_disk in
  let w1 := mkWorld (0 : site Scenario.blind) Scenario.ready_disk
              [ Screenshot "#receipt" "output/receipt_1.png";
                Screenshot "#robot-preview-image" "output/robot_1.png" ] in
  store_receipt_as_pdf (Scenario.at_home ∅) 1 w
    = Raise (FileNotFoundError
               "Screenshot não foi salvo corretamente em output/receipt_1.png") w1
  ∧ fs w1 !! ["robot"; "output"; "orders"; "order_1.pdf"] = None.
Proof.
  intros w w1.
  destruct (store_receipt_missing_screenshot_raises Scenario.blind
              (Scenario.at_home ∅) 1 w w1) as [H1 H2].
  - vm_compute. reflexivity.
  - vm_compute. reflexivity.
  - split; [exact H1|]. vm_compute. reflexivity.
Defined.

(** C7. When [store_receipt_as_pdf] returns for order number [n], it
    returns the path [orders/order_<n>.pdf] under the output root; the
    receipt image and the robot image are both on disk, and the file at
    the returned path is the PDF of exactly these two, receipt first,
    robot second; an image that a capture call saved in this call is the
    one that is merged. *)
Theorem store_receipt_as_pdf_composes_receipt_then_robot
    (O : Outside) (c : Config) (n : Z) (w w' : World O) (p : Path) :
  store_receipt_as_pdf c n w = Ok p w' →
  p = OUTPUT_DIR c /p "orders" /p ("order_" +:+ pretty n +:+ ".pdf")
  ∧ resolve (cwd c) p
    = resolve (cwd c) (OUTPUT_DIR c) ++ ["orders"; "order_" +:+ pretty n +:+ ".pdf"]
  ∧ ∃ x y,
      fs w' !! resolve (cwd c) (receipt_file c n) = Some (File x)
      ∧ fs w' !! resolve (cwd c) (robot_file c n) = Some (File y)
      ∧ fs w' !! resolve (cwd c) p = Some (File (Pdf [x; y]))
      ∧ (∀ png, (shoot O (page w) "#receipt").2 = Captured png → x = Image png)
      ∧ (∀ png,
           (shoot O (shoot O (page w) "#receipt").1 "#robot-preview-image").2
             = Captured png → y = Image png).
Proof.
  unfold store_receipt_as_pdf.
  intros ([] & w1 & Hcap & Hcomp)%bind_Ok_inv.
  apply store_receipt_compose_Ok in Hcomp as (-> & x & y & Hx & Hy & Hfs).
  split; [done|]. split; [apply resolve_pdf_file|].
  exists x, y. rewrite Hfs.
  rewrite !lookup_insert_ne by auto using pdf_not_receipt, pdf_not_robot.
  rewrite lookup_insert_eq. split_and!; [done|done|done|..].
  - apply store_receipt_capture_Ok in Hcap as (disk & _ & Hw1). simpl in Hw1.
    intros png Hpng. rewrite Hw1, Hpng in Hx.
    rewrite saved_other in Hx by apply not_eq_sym, receipt_not_robot.
    simpl in Hx. rewrite lookup_insert_eq in Hx. congruence.
  - apply store_receipt_capture_Ok in Hcap as (disk & _ & Hw1). simpl in Hw1.
    intros png Hpng. rewrite Hw1, Hpng in Hy.
    simpl in Hy. rewrite lookup_insert_eq in Hy. congruence.
Qed.

Lemma store_receipt_as_pdf_composes_witness :
  let w := Scenario.start Scenario.easy 0 Scenario.ready_disk in
  let w' := mkWorld (0 : site Scenario.easy) Scenario.disk_after_order1
              [ Screenshot "#receipt" "output/receipt_1.png";
                Screenshot "#robot-preview-image" "output/robot_1.png" ] in
  let p := mkPath false ["output"; "orders"; "order_1.pdf"] in
  store_receipt_as_pdf (Scenario.at_home ∅) 1 w = Ok p w'
  ∧ ∃ x y,
      fs w' !! ["robot"; "output"; "orders"; "order_1.pdf"]
        = Some (File (Pdf [x; y]))
      ∧ x = Scenario.receipt1 ∧ y = Scenario.robot1.
Proof.
  intros w w' p.
  assert (Hrun : store_receipt_as_pdf (Scenario.at_home ∅) 1 w = Ok p w')
    by (vm_compute; reflexivity).
  split; [exact Hrun|].
  destruct (store_receipt_as_pdf_composes_receipt_then_robot Scenario.easy
              (Scenario.at_home ∅) 1 w w' p Hrun)
    as (_ & _ & x & y & _ & _ & Hpdf & Hx & Hy).
  exists x, y. split; [exact Hpdf|]. split.
  - apply Hx. reflexivity.
  - apply Hy. reflexivity.
Defined.

Lemma submit_retries_witness :
  let w := Scenario.start Scenario.stuck 0 Scenario.ready_disk in
  (∀ fuel, held_back w (order_body (Scenario.at_home ∅) fuel Scenario.order1 w))
  ∧ (∀ fuel, ∃ w' evs,
       order_body (Scenario.at_home ∅) fuel Scenario.order1 w = Diverge w'
       ∧ trace w' = trace w ++ evs
       ∧ submit_clicks evs = S fuel).
Proof.
  intros w.
  destruct (submit_retries_while_banner_visible Scenario.stuck
              (Scenario.at_home ∅) Scenario.order1 w) as [HA HB].
  - intros s. reflexivity.
  - split; [exact HA|]. apply HB. intros s a. reflexivity.
Defined.

(** ** A refused download *)

Section Download.
Context {O : Outside} (c : Config).

Lemma refused_download_raises fuel (w : World O) st body :
  http_get O CSV_URL = Reply st body → (400 ≤ st < 600)%Z →
  order_robots_from_RobotSpareBin c fuel w
  = Raise (HTTPError st) (mkWorld (page w) (fs w) (trace w ++ [HttpGet CSV_URL])).
Proof.
  intros Hget Hst.
  unfold order_robots_from_RobotSpareBin, get_orders, download_file.
  rewrite !bind_unfold. unfold requests_get. rewrite Hget.
  unfold raise_for_status. simpl. by rewrite decide_True.
Qed.

Lemma module_init_cases (w : World O) :
  (∃ e, module_init c w = Raise e w)
  ∨ (∃ disk, module_init c w = Ok tt (mkWorld (page w) disk (trace w))
             ∧ dirs_added (resolve (cwd c) (ORDERS_DIR c)) (fs w) disk).
Proof.
  unfold module_init, Path_mkdir, on_fs.
  destruct (FS.Path_mkdir _ _ _ _) as [e|disk] eqn:Hmk; [left; by eexists|].
  right. exists disk. split; [done|]. by eapply Path_mkdir_inr.
Qed.

End Download.

(** C4, as the code has it.  When the server answers the download with a
    failure status, the task raises the HTTP error after that single
    request: no second request, no browser call, no change to any file or
    directory.  A whole run, which first loads the module, ends without a
    browser call and without creating or changing any file; what it may
    have created is the output root and its [orders] directory, made at
    load time before the download is attempted. *)
Theorem refused_download_aborts_before_browser
    (O : Outside) (c : Config) (fuel : nat) (w : World O) (st : Z) (body : data) :
  http_get O CSV_URL = Reply st body →
  (400 ≤ st < 600)%Z →
  order_robots_from_RobotSpareBin c fuel w
    = Raise (HTTPError st) (mkWorld (page w) (fs w) (trace w ++ [HttpGet CSV_URL]))
  ∧ (let r := run c fuel w in
     (∃ e, r = Raise e (state_of r))
     ∧ page (state_of r) = page w
     ∧ (trace (state_of r) = trace w
        ∨ (r = Raise (HTTPError st) (state_of r)
           ∧ trace (state_of r) = trace w ++ [HttpGet CSV_URL]))
     ∧ same_files (fs w) (fs (state_of r))
     ∧ dirs_added (resolve (cwd c) (ORDERS_DIR c)) (fs w) (fs (state_of r))).
Proof.
  intros Hget Hst. split; [by eapply refused_download_raises|].
  unfold run.
  destruct (module_init_cases c w) as [[e He]|(disk & Hinit & Hdirs)].
  - rewrite (bind_Raise _ _ _ _ _ He). simpl.
    split_and!; [by eexists|done|by left| |apply dirs_added_refl].
    apply (dirs_added_same_files []), dirs_added_refl.
  - rewrite (bind_Ok _ _ _ _ _ Hinit).
    rewrite (refused_download_raises c fuel _ st body Hget Hst). simpl.
    split_and!; [by eexists|done|by right| |done].
    by eapply dirs_added_same_files.
Qed.

Lemma refused_download_witness :
  let w := Scenario.start Scenario.down 0 Scenario.fresh_disk in
  run (Scenario.at_home ∅) 0 w
    = Raise (HTTPError 500) (state_of (run (Scenario.at_home ∅) 0 w))
  ∧ trace (state_of (run (Scenario.at_home ∅) 0 w))
    = [HttpGet "https://robotsparebinindustries.com/orders.csv"]
  ∧ same_files (fs w) (fs (state_of (run (Scenario.at_home ∅) 0 w))).
Proof.
  intros w.
  destruct (refused_download_aborts_before_browser Scenario.down
              (Scenario.at_home ∅) 0 w 500 (Bytes "Internal Server Error"))
    as (_ & _ & _ & _ & Hfiles & _).
  - reflexivity.
  - lia.
  - split; [vm_compute; reflexivity|]. split; [vm_compute; reflexivity|].
    exact Hfiles.
Defined.

(** A refused download on a fresh disk: the [orders] directory is
    there afterwards, so the output root did not stay as it was. *)
Lemma refused_download_leaves_orders_dir :
  ¬ failed_download_leaves_output_root_untouched.
Proof.
  intros H.
  specialize (H Scenario.down (Scenario.at_home ∅) 0
                (Scenario.start Scenario.down 0 Scenario.fresh_disk)
                500%Z (Bytes "Internal Server Error") eq_refl).
  specialize (H ltac:(lia) ["robot"; "output"; "orders"]).
  assert (Hpre : resolve (cwd (Scenario.at_home ∅)) (OUTPUT_DIR (Scenario.at_home ∅))
                   `prefix_of` ["robot"; "output"; "orders"]).
  { exists ["orders"]. vm_compute. reflexivity. }
  specialize (H Hpre ltac:(vm_compute; discriminate)).
  vm_compute in H. discriminate H.
Qed.

(** ** Fetching the orders *)

Section Fetch.
Context {O : Outside} (c : Config).

Lemma plain_orders_csv : plain_name "orders.csv".
Proof. by split_and!. Qed.

(** What a download does to the disk: directories may appear at or above
    the target directory, and after that the one target file is written
    or not. *)
Lemma download_file_effect url dir name (w : World O) :
  ∃ disk disk',
    dirs_added (resolve (cwd c) dir) (fs w) disk
    ∧ fs (state_of (download_file c url dir name w)) = disk'
    ∧ (disk' = disk
       ∨ ∃ body, disk' = <[resolve (cwd c) (dir /p name) := File body]> disk).
Proof.
  unfold download_file. rewrite bind_unfold. unfold requests_get.
  destruct (http_get O url) as [|st body].
  { exists (fs w), (fs w). split_and!; [apply dirs_added_refl|done|by left]. }
  rewrite bind_unfold. unfold raise_for_status.
  case_decide.
  { exists (fs w), (fs w). split_and!; [apply dirs_added_refl|done|by left]. }
  simpl. rewrite bind_unfold. unfold Path_mkdir, on_fs. simpl.
  destruct (FS.Path_mkdir _ _ _ _) as [e|disk] eqn:Hmk.
  { exists (fs w), (fs w). split_and!; [apply dirs_added_refl|done|by left]. }
  rewrite bind_unfold. unfold Path_write_bytes, on_fs. simpl.
  destruct (FS.write_file _ _ _) as [e|disk'] eqn:Hwr.
  { exists disk, disk. split_and!; [by eapply Path_mkdir_inr|done|by left]. }
  exists disk, disk'. split_and!; [by eapply Path_mkdir_inr|done|].
  right. exists body. by eapply write_file_inr.
Qed.

Lemma download_file_Ok url dir name (w w' : World O) p :
  download_file c url dir name w = Ok p w' →
  p = dir /p name
  ∧ ∃ st body, http_get O url = Reply st body
               ∧ fs w' !! resolve (cwd c) p = Some (File body).
Proof.
  unfold download_file.
  intros (resp & w1 & Hget & Hrest)%bind_Ok_inv.
  apply bind_Ok_inv in Hrest as ([] & w2 & _ & Hrest).
  apply bind_Ok_inv in Hrest as ([] & w3 & _ & Hrest).
  apply bind_Ok_inv in Hrest as ([] & w4 & Hwr & Hret).
  injection Hret as <- <-. split; [done|].
  unfold requests_get in Hget.
  destruct (http_get O url) as [|st body]; [done|]. injection Hget as <- _.
  exists st, body. split; [done|].
  apply on_fs_Ok in Hwr as (disk & ->%write_file_inr & ->). simpl.
  by rewrite lookup_insert_eq.
Qed.

Lemma read_table_from_csv_state p cols (w : World O) :
  state_of (read_table_from_csv c p cols w) = w.
Proof.
  unfold read_table_from_csv. destruct (FS.read_file _ _); [done|].
  by destruct (read_table O _ _).
Qed.

Lemma get_orders_state (w : World O) :
  state_of (get_orders c w) = state_of (download_file c CSV_URL (CURDIR c) FILE_NAME w).
Proof.
  unfold get_orders. rewrite bind_unfold.
  destruct (download_file _ _ _ _ _) as [p w1|e w1|w1]; [|done..].
  apply read_table_from_csv_state.
Qed.

End Fetch.

(** C10, as the code has it.  Fetching the orders writes one file at
    most: when the download goes through, [orders.csv] in the directory
    of the source file holds the bytes the server sent, whatever the
    output root is; every other file on disk stays as it was.  So no file
    below the output root is written, unless the output root is
    configured to contain the code directory. *)
Theorem get_orders_writes_only_orders_csv
    (O : Outside) (c : Config) (w : World O) :
  let csv := resolve (cwd c) (Path_parent (Path_of_string (module_file c)))
               ++ ["orders.csv"] in
  let r := get_orders c w in
  resolve (cwd c) (CURDIR c /p FILE_NAME) = csv
  ∧ (∀ p w1, download_file c CSV_URL (CURDIR c) FILE_NAME w = Ok p w1 →
       ∃ st body, http_get O CSV_URL = Reply st body
                  ∧ fs (state_of r) !! csv = Some (File body))
  ∧ (∀ j d, j ≠ csv →
       (fs (state_of r) !! j = Some (File d) ↔ fs w !! j = Some (File d)))
  ∧ (¬ resolve (cwd c) (OUTPUT_DIR c) `prefix_of` csv →
     ∀ j d, resolve (cwd c) (OUTPUT_DIR c) `prefix_of` j →
       (fs (state_of r) !! j = Some (File d) ↔ fs w !! j = Some (File d))).
Proof.
  intros csv r.
  assert (Hcsv : resolve (cwd c) (CURDIR c /p FILE_NAME) = csv).
  { apply resolve_div_plain, plain_orders_csv. }
  assert (Hframe : ∀ j d, j ≠ csv →
            (fs (state_of r) !! j = Some (File d) ↔ fs w !! j = Some (File d))).
  { intros j d Hj. unfold r. rewrite get_orders_state.
    destruct (download_file_effect c CSV_URL (CURDIR c) FILE_NAME w)
      as (disk & disk' & Hdirs & -> & [-> | [body ->]]).
    - by apply (dirs_added_same_files _ _ _ Hdirs).
    - rewrite Hcsv, lookup_insert_ne by done.
      by apply (dirs_added_same_files _ _ _ Hdirs). }
  split_and!; [done| |done|].
  - intros p w1 Hok. unfold r. rewrite get_orders_state, Hok. simpl.
    apply download_file_Ok in Hok as (-> & st & body & Hget & Hfile).
    rewrite Hcsv in Hfile. eauto.
  - intros Hout j d Hj. apply Hframe. intros ->. done.
Qed.

(** With the output root set to the directory the robot lives in, the
    order file lands below the output root. *)
Lemma get_orders_can_write_below_output_root :
  ¬ get_orders_writes_nothing_below_output_root.
Proof.
  intros H.
  specialize (H Scenario.easy (Scenario.at_home {[ "ROBOT_ARTIFACTS" := "." ]})
                (Scenario.start Scenario.easy 0 Scenario.fresh_disk)
                ["robot"; "orders.csv"] Scenario.orders_csv).
  assert (Hpre : resolve (cwd (Scenario.at_home {[ "ROBOT_ARTIFACTS" := "." ]}))
                   (OUTPUT_DIR (Scenario.at_home {[ "ROBOT_ARTIFACTS" := "." ]}))
                   `prefix_of` ["robot"; "orders.csv"]).
  { exists ["orders.csv"]. vm_compute. reflexivity. }
  apply H in Hpre as [Hnew _]; [|vm_compute; discriminate].
  assert (Hold : fs (Scenario.start Scenario.easy 0 Scenario.fresh_disk)
                   !! ["robot"; "orders.csv"] = Some (File Scenario.orders_csv)).
  { apply Hnew. vm_compute. reflexivity. }
  vm_compute in Hold. discriminate Hold.
Qed.

(** ** The archive *)

(** Whatever the environment says, the members of the archive are the
    files below [output/orders] in the working directory. *)
Lemma archive_receipts_members (O : Outside) (c : Config) (w w' : World O) :
  archive_receipts c w = Ok tt w' →
  fs w' !! resolve_str (cwd c) (Path_str (OUTPUT_DIR c) +:+ "/receipts.zip")
  = Some (File (Zip (FS.files_under (cwd c ++ ["output"; "orders"]) (fs w)))).
Proof.
  unfold archive_receipts, archive_folder_with_zip.
  replace (resolve_str (cwd c) "./output/orders/")
    with (cwd c ++ ["output"; "orders"])
    by (unfold resolve_str, resolve; simpl; by rewrite <- app_assoc).
  case_decide; [done|].
  intros (disk & ->%write_file_inr & ->)%on_fs_Ok. simpl.
  by rewrite lookup_insert_eq.
Qed.

(** C2, as the code has it.  With the output root set to [artifacts],
    the receipts are under [artifacts/orders], but the archive written to
    [artifacts/receipts.zip] holds the files of [./output/orders]: line
    186 names that folder literally instead of using [ORDERS_DIR]. *)
Theorem archive_receipts_takes_the_default_folder :
  let c := Scenario.at_home {[ "ROBOT_ARTIFACTS" := "artifacts" ]} in
  let w := Scenario.start Scenario.easy 0 Scenario.moved_disk in
  resolve (cwd c) (ORDERS_DIR c) = ["robot"; "artifacts"; "orders"]
  ∧ fs w !! ["robot"; "artifacts"; "orders"; "order_1.pdf"]
    = Some (File (Pdf [Scenario.receipt1; Scenario.robot1]))
  ∧ archive_receipts c w
    = Ok tt (mkWorld (0 : site Scenario.easy) Scenario.moved_disk_archived [])
  ∧ Scenario.moved_disk_archived !! ["robot"; "artifacts"; "receipts.zip"]
    = Some (File (Zip {[ ["order_0.pdf"] := Scenario.old_pdf ]})).
Proof. cbv zeta. split_and!; vm_compute; reflexivity. Qed.

(** C5, as the code has it.  One order, the shop accepts it at once, the
    output root is [artifacts] and an earlier run left a receipt in
    [output/orders]: the run completes, the receipt of order 1 is written
    to [artifacts/orders/order_1.pdf], and [artifacts/receipts.zip] holds
    the old receipt only. *)
Theorem run_archives_the_default_folder :
  let c := Scenario.at_home {[ "ROBOT_ARTIFACTS" := "artifacts" ]} in
  let w := Scenario.start Scenario.easy 0 Scenario.stale_disk in
  run c 0 w
    = Ok tt (mkWorld (1 : site Scenario.easy) Scenario.stale_disk_after_run
               Scenario.calls_of_run)
  ∧ Scenario.stale_disk_after_run !! ["robot"; "artifacts"; "orders"; "order_1.pdf"]
    = Some (File (Pdf [Scenario.receipt1; Scenario.robot1]))
  ∧ Scenario.stale_disk_after_run !! ["robot"; "artifacts"; "receipts.zip"]
    = Some (File (Zip {[ ["order_0.pdf"] := Scenario.old_pdf ]})).
Proof. cbv zeta. split_and!; vm_compute; reflexivity. Qed.

(** ** The receipts of a completed run

    What does hold of a completed run: every order of the
    table has its receipt under [orders/], distinct order numbers have
    distinct receipts, and when the output root is where the archive step
    looks, the archive holds every one of them. *)

Section String_facts.

Lemma append_cons x (a b : string) : String x a +:+ b = String x (a +:+ b).
Proof. reflexivity. Qed.

Lemma length_append (a b : string) :
  String.length (a +:+ b) = String.length a + String.length b.
Proof.
  induction a as [|x a IH]; [done|]. rewrite append_cons. simpl. by rewrite IH.
Qed.

Lemma append_inj_r (a b s : string) : a +:+ s = b +:+ s → a = b.
Proof.
  revert b. induction a as [|x a IH]; intros [|y b] H.
  - done.
  - apply (f_equal String.length) in H. rewrite !length_append in H.
    simpl in H. lia.
  - apply (f_equal String.length) in H. rewrite !length_append in H.
    simpl in H. lia.
  - rewrite !append_cons in H. injection H as -> H. f_equal. by apply IH.
Qed.

Lemma split_slash_nonempty s : split_slash s ≠ [].
Proof.
  destruct s as [|x s]; simpl; [done|].
  destruct (Ascii.eqb x slash); [done|]. by destruct (split_slash s).
Qed.

Lemma split_slash_at (a b : string) :
  split_slash (a +:+ "/" +:+ b) = split_slash a ++ split_slash b.
Proof.
  induction a as [|x a IH]; simpl; [done|].
  destruct (Ascii.eqb x slash); [by rewrite IH|].
  rewrite IH. pose proof (split_slash_nonempty a).
  by destruct (split_slash a).
Qed.

Lemma starts_with_slash_app (x y : string) :
  x ≠ "" → starts_with_slash (x +:+ y) = starts_with_slash x.
Proof. by destruct x. Qed.

Lemma Path_str_nonempty p : wf_path p → Path_str p ≠ "".
Proof.
  destruct p as [a l]. unfold wf_path, Path_str; simpl. intros Hl.
  destruct l as [|x r]; [by destruct a|]. destruct a; [done|].
  inversion_clear Hl as [|?? [[Hne _] _] _].
  destruct x as [|y x]; [done|]. by destruct r.
Qed.

(** Formatting a path into a string, adding a slash and a name, and
    parsing the result is the same as appending the name to the path. *)
Lemma Path_of_string_str_slash p s :
  wf_path p → Path_of_string (Path_str p +:+ "/" +:+ s)
              = mkPath (absolute p) (parts p ++ parts (Path_of_string s)).
Proof.
  intros Hp. pose proof (Path_of_string_str p Hp) as Hround.
  pose proof (Path_str_nonempty p Hp) as Hne.
  destruct p as [a l]. unfold Path_of_string in *.
  injection Hround as Ha Hl. simpl.
  rewrite split_slash_at, filter_app, Hl. f_equal.
  by rewrite starts_with_slash_app.
Qed.

End String_facts.

Section Archive_facts.

Lemma files_under_lookup (k rel : list string) (d : data) (disk : filesystem) :
  rel ≠ [] → disk !! (k ++ rel) = Some (File d) →
  FS.files_under k disk !! rel = Some d.
Proof.
  intros Hrel Hd. unfold FS.files_under.
  apply elem_of_list_to_map_1'.
  - intros y ([j nd] & Hin%elem_of_map_to_list & Hf)%list_elem_of_omap.
    simpl in Hf. destruct nd as [d'|]; [|done].
    case_decide as Hk; [|done]. destruct Hk as [[rel' ->] _].
    rewrite drop_app_length in Hf. injection Hf as -> ->. congruence.
  - apply list_elem_of_omap. exists (k ++ rel, File d). split.
    + by apply elem_of_map_to_list.
    + simpl. rewrite decide_True, drop_app_length; [done|].
      split; [by apply prefix_app_r|].
      intros H%(f_equal length). rewrite length_app in H.
      destruct rel; [done|]. simpl in H. lia.
Qed.

End Archive_facts.

Section Completed_run.
Context {O : Outside} (c : Config).

Lemma keeps_disk_Ok {A} (m : M O A) w a w' :
  keeps_disk m → m w = Ok a w' → fs w' = fs w.
Proof. intros Hm Hw. specialize (Hm w). by rewrite Hw in Hm. Qed.

Lemma keeps_disk_bind {A B} (m : M O A) (k : A → M O B) :
  keeps_disk m → (∀ a, keeps_disk (k a)) → keeps_disk (m ≫= k).
Proof.
  intros Hm Hk w. rewrite bind_unfold. specialize (Hm w).
  destruct (m w) as [a w1|e w1|w1]; simpl in *; [|done..].
  by rewrite Hk.
Qed.

Lemma keeps_disk_call a : keeps_disk (call a : M O unit).
Proof. intros w. unfold call. by destruct (act O (page w) a) as [s [msg|]]. Qed.

Lemma keeps_disk_is_visible sel : keeps_disk (is_visible sel : M O bool).
Proof. intros w. unfold is_visible. by destruct (visible O (page w) sel). Qed.

Lemma keeps_disk_ret {A} (a : A) : keeps_disk (mret a : M O A).
Proof. done. Qed.

Lemma keeps_disk_while fuel (cond : M O bool) (body : M O unit) :
  keeps_disk cond → keeps_disk body → keeps_disk (while fuel cond body).
Proof.
  intros Hc Hb. induction fuel as [|n IH]; intros w; simpl;
    specialize (Hc w); destruct (cond w) as [[|] w1|e w1|w1]; simpl in *; try done.
  specialize (Hb w1). destruct (body w1) as [[] w2|e w2|w2]; simpl in *;
    [|congruence..].
  rewrite IH. congruence.
Qed.

Lemma keeps_disk_close_annoying_modal : keeps_disk (close_annoying_modal : M O unit).
Proof.
  apply keeps_disk_bind; [apply keeps_disk_is_visible|].
  intros [|]; [apply keeps_disk_call|apply keeps_disk_ret].
Qed.

Lemma keeps_disk_fill_the_form order : keeps_disk (fill_the_form order : M O unit).
Proof.
  repeat (apply keeps_disk_bind; [apply keeps_disk_call|intros _]).
  apply keeps_disk_call.
Qed.

(** A completed order went through [store_receipt_as_pdf], and nothing
    else in the body touched the disk. *)
Lemma order_body_Ok fuel order (w w' : World O) :
  order_body c fuel order w = Ok tt w' →
  ∃ (w1 w2 : World O) p,
    fs w1 = fs w
    ∧ store_receipt_as_pdf c (Order_number order) w1 = Ok p w2
    ∧ fs w' = fs w2.
Proof.
  unfold order_body.
  intros ([] & wa & Ha & H)%bind_Ok_inv.
  apply bind_Ok_inv in H as ([] & wb & Hb & H).
  apply bind_Ok_inv in H as ([] & wc & Hc & H).
  apply bind_Ok_inv in H as ([] & wd & Hd & H).
  apply bind_Ok_inv in H as (p & we & He & Hf).
  exists wd, we, p. split_and!; [|done|].
  - apply (keeps_disk_Ok _ _ _ _ keeps_disk_close_annoying_modal) in Ha.
    apply (keeps_disk_Ok _ _ _ _ (keeps_disk_fill_the_form order)) in Hb.
    apply (keeps_disk_Ok _ _ _ _ (keeps_disk_call _)) in Hc.
    apply (keeps_disk_Ok _ _ _ _
             (keeps_disk_while fuel _ _ (keeps_disk_is_visible _)
                (keeps_disk_call _))) in Hd.
    congruence.
  - by apply (keeps_disk_Ok _ _ _ _ (keeps_disk_call _)) in Hf.
Qed.

(** What a returning [store_receipt_as_pdf] did to the disk. *)
Lemma store_receipt_as_pdf_Ok n (w w' : World O) p :
  store_receipt_as_pdf c n w = Ok p w' →
  ∃ disk x y r1 r2,
    dirs_added (resolve (cwd c) (OUTPUT_DIR c)) (fs w) disk
    ∧ fs w' = <[resolve (cwd c) (pdf_file c n) := File (Pdf [x; y])]>
                (saved (resolve (cwd c) (robot_file c n)) r2
                   (saved (resolve (cwd c) (receipt_file c n)) r1 disk)).
Proof.
  unfold store_receipt_as_pdf.
  intros ([] & w1 & Hcap & Hcomp)%bind_Ok_inv.
  apply store_receipt_capture_Ok in Hcap as (disk & Hd & Hw1).
  apply store_receipt_compose_Ok in Hcomp as (_ & x & y & _ & _ & Hw').
  exists disk, x, y. eexists _, _. split; [done|]. by rewrite Hw', Hw1.
Qed.

Lemma store_makes_receipt n (w w' : World O) p :
  store_receipt_as_pdf c n w = Ok p w' → has_receipt c (fs w') n.
Proof.
  intros (disk & x & y & r1 & r2 & _ & ->)%store_receipt_as_pdf_Ok.
  exists x, y. by rewrite lookup_insert_eq.
Qed.

Lemma pdf_not_receipt_of (n m : Z) :
  resolve (cwd c) (receipt_file c m) ≠ resolve (cwd c) (pdf_file c n).
Proof.
  rewrite resolve_pdf_file, resolve_receipt_file.
  intros H%(f_equal length). rewrite !length_app in H. simpl in H. lia.
Qed.

Lemma pdf_not_robot_of (n m : Z) :
  resolve (cwd c) (robot_file c m) ≠ resolve (cwd c) (pdf_file c n).
Proof.
  rewrite resolve_pdf_file, resolve_robot_file.
  intros H%(f_equal length). rewrite !length_app in H. simpl in H. lia.
Qed.

Lemma store_keeps_receipts n m (w w' : World O) p :
  store_receipt_as_pdf c m w = Ok p w' →
  has_receipt c (fs w) n → has_receipt c (fs w') n.
Proof.
  intros (disk & x & y & r1 & r2 & Hd & ->)%store_receipt_as_pdf_Ok (x' & y' & Hn).
  destruct (decide (resolve (cwd c) (pdf_file c m) = resolve (cwd c) (pdf_file c n)))
    as [He|Hne].
  - exists x, y. by rewrite He, lookup_insert_eq.
  - exists x', y'. rewrite lookup_insert_ne by done.
    rewrite !saved_other by auto using pdf_not_receipt_of, pdf_not_robot_of.
    by apply (dirs_added_same_files _ _ _ Hd).
Qed.

Lemma for_each_order_body_Ok fuel orders (w w' : World O) :
  for_each orders (order_body c fuel) w = Ok tt w' →
  (∀ n, has_receipt c (fs w) n → has_receipt c (fs w') n)
  ∧ (∀ o, o ∈ orders → has_receipt c (fs w') (Order_number o)).
Proof.
  revert w. induction orders as [|o r IH]; intros w; simpl.
  - intros [= <-]. split; [done|]. by intros o ?%elem_of_nil.
  - intros ([] & w1 & Hbody & Hrest)%bind_Ok_inv.
    apply order_body_Ok in Hbody as (wa & wb & p & Hwa & Hstore & Hwb).
    destruct (IH _ Hrest) as [Hkeep Hall]. split.
    + intros n Hn. apply Hkeep. rewrite Hwb.
      eapply store_keeps_receipts; [done|]. by rewrite Hwa.
    + intros o' [->|Hin]%elem_of_cons; [|by apply Hall].
      apply Hkeep. rewrite Hwb. by eapply store_makes_receipt.
Qed.

(** Distinct order numbers give distinct receipt files. *)
Lemma pdf_file_inj (n m : Z) :
  resolve (cwd c) (pdf_file c n) = resolve (cwd c) (pdf_file c m) → n = m.
Proof.
  rewrite !resolve_pdf_file. intros H%app_inv_head. injection H as H.
  change (pretty n +:+ ".pdf" = pretty m +:+ ".pdf") in H.
  apply append_inj_r in H.
  by apply (inj pretty).
Qed.

Lemma resolve_str_receipts_zip :
  resolve_str (cwd c) (Path_str (OUTPUT_DIR c) +:+ "/receipts.zip")
  = resolve (cwd c) (OUTPUT_DIR c) ++ ["receipts.zip"].
Proof.
  unfold resolve_str.
  change (Path_str (OUTPUT_DIR c) +:+ "/receipts.zip")
    with (Path_str (OUTPUT_DIR c) +:+ "/" +:+ "receipts.zip").
  rewrite Path_of_string_str_slash by apply wf_OUTPUT_DIR.
  unfold resolve. simpl. apply normalise_snoc. done.
Qed.

(** In a completed run of the task every order
    of the table has its two-page receipt on disk at
    [orders/order_<n>.pdf] under the output root; orders with distinct
    numbers have distinct receipt files; and if the output root's
    [orders] directory is the [output/orders] of the working directory,
    [receipts.zip] in the output root holds every one of these
    receipts. *)
Lemma completed_run_has_every_receipt fuel (w w1 w' : World O) orders :
  get_orders c w = Ok orders w1 →
  order_robots_from_RobotSpareBin c fuel w = Ok tt w' →
  (∀ o, o ∈ orders → has_receipt c (fs w') (Order_number o))
  ∧ (NoDup (Order_number <$> orders) →
     NoDup ((λ o, resolve (cwd c) (pdf_file c (Order_number o))) <$> orders))
  ∧ (resolve (cwd c) (ORDERS_DIR c) = cwd c ++ ["output"; "orders"] →
     ∃ members,
       fs w' !! (resolve (cwd c) (OUTPUT_DIR c) ++ ["receipts.zip"])
         = Some (File (Zip members))
       ∧ ∀ o, o ∈ orders →
           ∃ x y,
             fs w' !! resolve (cwd c) (pdf_file c (Order_number o))
               = Some (File (Pdf [x; y]))
             ∧ members !! ["order_" +:+ pretty (Order_number o) +:+ ".pdf"]
               = Some (Pdf [x; y])).
Proof.
  intros Hget. unfold order_robots_from_RobotSpareBin.
  rewrite (bind_Ok _ _ _ _ _ Hget).
  intros ([] & wa & _ & H)%bind_Ok_inv.
  apply bind_Ok_inv in H as ([] & wb & _ & H).
  apply bind_Ok_inv in H as ([] & wc & _ & H).
  apply bind_Ok_inv in H as ([] & wd & Hloop & Harch).
  apply for_each_order_body_Ok in Hloop as [_ Hall].
  pose proof (archive_receipts_members _ _ _ _ Harch) as Hzip.
  rewrite resolve_str_receipts_zip in Hzip.
  assert (Hsame : ∀ n, fs w' !! resolve (cwd c) (pdf_file c n)
                       = fs wd !! resolve (cwd c) (pdf_file c n)).
  { intros n.
    unfold archive_receipts, archive_folder_with_zip in Harch.
    case_decide; [done|].
    apply on_fs_Ok in Harch as (disk & ->%write_file_inr & ->). simpl.
    rewrite resolve_str_receipts_zip, lookup_insert_ne; [done|].
    rewrite resolve_pdf_file.
    intros E%(f_equal length). rewrite !length_app in E. simpl in E. lia. }
  assert (Hw' : ∀ n, has_receipt c (fs wd) n → has_receipt c (fs w') n).
  { intros n (x & y & Hn). exists x, y. by rewrite Hsame. }
  split_and!.
  - intros o Ho. by apply Hw', Hall.
  - intros Hnd. apply (NoDup_fmap_2_strong _ _); [|].
    + intros o1 o2 Ho1 Ho2 E%pdf_file_inj.
      revert Hnd Ho1 Ho2 E. clear. induction orders as [|o r IH]; [by intros _ ?%elem_of_nil|].
      rewrite fmap_cons, NoDup_cons. intros [Hnotin Hnd].
      intros [->|H1]%elem_of_cons [->|H2]%elem_of_cons E; [done|..|by apply IH].
      * destruct Hnotin. rewrite E. by apply list_elem_of_fmap_2.
      * destruct Hnotin. rewrite <- E. by apply list_elem_of_fmap_2.
    + by apply NoDup_fmap_1 in Hnd.
  - intros Hdefault. eexists. split; [exact Hzip|].
    intros o (x & y & Ho)%Hall. exists x, y.
    split; [by rewrite Hsame|].
    apply files_under_lookup; [done|].
    rewrite resolve_pdf_file in Ho.
    change ["orders"; "order_" +:+ pretty (Order_number o) +:+ ".pdf"]
      with (["orders"] ++ ["order_" +:+ pretty (Order_number o) +:+ ".pdf"]) in Ho.
    by rewrite app_assoc, <- resolve_ORDERS_DIR, Hdefault in Ho.
Qed.

End Completed_run.

(** ** Worked examples *)

Example parse_and_print : Path_str (Path_of_string "a//b/./c/") = "a/b/c".
Proof. reflexivity. Qed.

Example parse_empty : Path_str (Path_of_string "") = ".".
Proof. reflexivity. Qed.

Example divide_by_absolute :
  Path_str (Path_of_string "output" /p "/tmp/x") = "/tmp/x".
Proof. reflexivity. Qed.

Example resolve_dotdot :
  resolve ["robot"; "bin"] (Path_of_string "../output") = ["robot"; "output"].
Proof. reflexivity. Qed.

Example monitor_rejects_unchecked_fill :
  modal_checked_before_each_fill [SelectOption "select#head.custom-select" "1"]
  = false.
Proof. reflexivity. Qed.

Example monitor_rejects_second_fill :
  modal_checked_before_each_fill
    [ IsVisible ".modal-header";
      SelectOption "select#head.custom-select" "1";
      SelectOption "select#head.custom-select" "2" ] = false.
Proof. reflexivity. Qed.

Example monitor_accepts_checked_fill :
  modal_checked_before_each_fill
    [ IsVisible ".modal-header"; ClickRole "button" "OK";
      SelectOption "select#head.custom-select" "1" ] = true.
Proof. reflexivity. Qed.

(** The end-to-end scenario of the specification: one order, a shop that
    accepts at once, the default output root, a fresh disk.  The receipt
    is at [output/orders/order_1.pdf] with its two images, and the
    archive holds it. *)
Example end_to_end_default_root :
  let r := run (Scenario.at_home ∅) 0
             (Scenario.start Scenario.easy 0 Scenario.fresh_disk) in
  (∃ w', r = Ok tt w')
  ∧ fs (state_of r) !! ["robot"; "output"; "orders"; "order_1.pdf"]
    = Some (File (Pdf [Scenario.receipt1; Scenario.robot1]))
  ∧ fs (state_of r) !! ["robot"; "output"; "receipts.zip"]
    = Some (File (Zip {[ ["order_1.pdf"] := Pdf [Scenario.receipt1; Scenario.robot1] ]})).
Proof.
  cbv zeta. split_and!; [eexists|..]; vm_compute; reflexivity.
Qed.

(** * Further properties of the script *)

(** ** The submit loop ends when the banner clears *)

Section Loop_end.
Context {O : Outside}.

Lemma submit_loop_returns n fuel (w : World O) :
  banner_clears O n (page w) → n ≤ fuel →
  ∃ w' evs,
    while fuel (is_visible ".alert-danger") submit_order w = Ok tt w'
    ∧ trace w' = trace w ++ evs
    ∧ submit_clicks evs = n
    ∧ Forall (λ a, is_screenshot a = false) evs
    ∧ fs w' = fs w.
Proof.
  revert fuel w. induction n as [|n IH]; intros fuel w Hn Hfuel.
  - simpl in Hn. destruct fuel; simpl; unfold is_visible;
      destruct (visible O (page w) ".alert-danger") as [s b]; simpl in Hn; subst b;
      (eexists _, [_]; split_and!; [done|done|done| |done]; by repeat constructor).
  - destruct fuel as [|fuel]; [lia|]. simpl in Hn. destruct Hn as (Hv & Hc & Hn).
    cbn [while]. unfold is_visible at 1.
    destruct (visible O (page w) ".alert-danger") as [s b]; simpl in Hv, Hc, Hn.
    subst b. unfold submit_order at 1. rewrite call_last. cbv zeta.
    cbn [page fs trace]. rewrite Hc.
    destruct (IH fuel (mkWorld (act O s (ClickRole "button" "Order")).1 (fs w)
                         ((trace w ++ [IsVisible ".alert-danger"])
                            ++ [ClickRole "button" "Order"])))
      as (w' & evs & Hw & Ht & Hk & Hev & Hfs); [done|lia|].
    simpl in Ht, Hfs.
    exists w', ([IsVisible ".alert-danger"; ClickRole "button" "Order"] ++ evs).
    split_and!; [done|by rewrite Ht, <- !app_assoc| | |done].
    + rewrite submit_clicks_app, Hk. done.
    + by repeat (constructor; [done|]).
Qed.

Lemma submit_loop_cut_short n fuel (w : World O) :
  banner_clears O n (page w) → fuel < n →
  ∃ w', while fuel (is_visible ".alert-danger") submit_order w = Diverge w'.
Proof.
  revert fuel w. induction n as [|n IH]; intros fuel w Hn Hfuel; [lia|].
  simpl in Hn. destruct Hn as (Hv & Hc & Hn).
  destruct fuel as [|fuel]; cbn [while]; unfold is_visible at 1;
    destruct (visible O (page w) ".alert-danger") as [s b]; simpl in Hv, Hc, Hn;
    subst b; [by eexists|].
  unfold submit_order at 1. rewrite call_last. cbv zeta.
  cbn [page fs trace]. rewrite Hc.
  apply IH; [done|lia].
Qed.

End Loop_end.

(** X2. If the site shows the error banner at the next [n] checks and
    then no more, the submit loop (lines 39-40) returns as soon as it has
    [n] runs of its body available: it has then clicked submit exactly
    [n] times, made no screenshot call and touched no file.  With fewer
    runs available it is still looping. *)
Theorem submit_loop_ends_when_banner_clears
    (O : Outside) (n fuel : nat) (w : World O) :
  banner_clears O n (page w) →
  (n ≤ fuel →
   ∃ w' evs,
     while fuel (is_visible ".alert-danger") submit_order w = Ok tt w'
     ∧ trace w' = trace w ++ evs
     ∧ submit_clicks evs = n
     ∧ Forall (λ a, is_screenshot a = false) evs
     ∧ fs w' = fs w)
  ∧ (fuel < n →
     ∃ w', while fuel (is_visible ".alert-danger") submit_order w = Diverge w').
Proof.
  intros Hn. split.
  - by apply submit_loop_returns.
  - by apply submit_loop_cut_short.
Qed.

Lemma submit_loop_ends_witness :
  let w := Scenario.start (Scenario.flaky 2) 0 Scenario.ready_disk in
  (∃ w' evs,
     while 5 (is_visible ".alert-danger") submit_order w = Ok tt w'
     ∧ trace w' = trace w ++ evs
     ∧ submit_clicks evs = 2
     ∧ Forall (λ a, is_screenshot a = false) evs
     ∧ fs w' = fs w)
  ∧ (∃ w', while 1 (is_visible ".alert-danger") submit_order w = Diverge w').
Proof.
  intros w.
  destruct (submit_loop_ends_when_banner_clears (Scenario.flaky 2) 2 5 w)
    as [H5 _]; [by repeat split|].
  destruct (submit_loop_ends_when_banner_clears (Scenario.flaky 2) 2 1 w)
    as [_ H1]; [by repeat split|].
  split; [apply H5; lia|apply H1; lia].
Defined.

(** ** Fetching the orders: what is returned, and what a failure does *)

Section Fetch_results.
Context {O : Outside} (c : Config).

#[local] Instance silent_stable : Stable (λ evs, evs = []).
Proof. split; [done|]. by intros ?? -> ->. Qed.

Lemma read_table_from_csv_silent p cols :
  extends (read_table_from_csv c p cols : M O (list Order)) (λ evs, evs = []).
Proof.
  intros w. exists []. rewrite app_nil_r. by rewrite read_table_from_csv_state.
Qed.

Lemma raise_for_status_silent r :
  extends (raise_for_status r : M O unit) (λ evs, evs = []).
Proof.
  unfold raise_for_status. case_decide; [apply extends_raise|apply extends_ret].
Qed.

Lemma get_orders_trace (w : World O) :
  trace (state_of (get_orders c w)) = trace w ++ [HttpGet CSV_URL].
Proof.
  assert (H : extends (get_orders c : M O (list Order))
                (λ evs, evs = [HttpGet CSV_URL])).
  { unfold get_orders, download_file.
    eapply extends_weaken.
    - eapply (extends_bind _ _ (λ evs, evs = [HttpGet CSV_URL]) (λ evs, evs = [])).
      + eapply extends_weaken.
        * eapply (extends_bind _ _ (λ evs, evs = [HttpGet CSV_URL]) (λ evs, evs = [])).
          -- intros w0. exists [HttpGet CSV_URL]. unfold requests_get.
             by destruct (http_get O CSV_URL).
          -- intros r. apply extends_seq; [apply _|apply raise_for_status_silent|].
             intros _. apply extends_seq; [apply _|apply extends_on_fs|].
             intros _. apply extends_seq; [apply _|apply extends_on_fs|].
             intros _. apply extends_ret.
        * intros evs (e1 & e2 & -> & -> & [->| ->]); done.
      + intros p. apply read_table_from_csv_silent.
    - intros evs (e1 & e2 & -> & -> & [->| ->]); done. }
  destruct (H w) as (evs & Ht & ->). done.
Qed.

Lemma get_orders_errors : raises_only fetch_error (get_orders c : M O (list Order)).
Proof.
  unfold get_orders, download_file.
  apply raises_only_bind; [|intros p].
  - apply raises_only_bind; [|intros r].
    + intros w e w'. unfold requests_get.
      destruct (http_get O CSV_URL); [|done]. intros [= <- _]. by left.
    + apply raises_only_bind; [|intros _].
      { intros w e w'. unfold raise_for_status. case_decide; [|done].
        intros [= <- _]. right. left. by eexists. }
      apply raises_only_bind; [|intros _].
      { intros w e w' [H _]%on_fs_Raise. right. right. left.
        by eapply Path_mkdir_inl. }
      apply raises_only_bind; [|intros _; apply raises_only_ret].
      intros w e w' [H _]%on_fs_Raise. right. right. left.
      by eapply write_file_inl.
  - intros w e w'. unfold read_table_from_csv.
    destruct (FS.read_file _ _) as [e1|d] eqn:Hrd.
    + intros [= <- _]. right. right. left. by eapply read_file_inl.
    + destruct (read_table O _ _); [done|].
      intros [= <- _]. right. right. right. by eexists.
Qed.

Lemma resolve_csv_file :
  resolve (cwd c) (CURDIR c /p FILE_NAME) = resolve (cwd c) (CURDIR c) ++ ["orders.csv"].
Proof. apply resolve_div_plain, plain_orders_csv. Qed.

Lemma get_orders_Ok_inv rows (w w' : World O) :
  get_orders c w = Ok rows w' →
  ∃ st body,
    http_get O CSV_URL = Reply st body
    ∧ ¬ (400 ≤ st < 600)%Z
    ∧ read_table O body ["Order number"; "Head"; "Body"; "Legs"; "Address"]
      = Some rows
    ∧ fs w' !! (resolve (cwd c) (CURDIR c) ++ ["orders.csv"]) = Some (File body).
Proof.
  unfold get_orders. intros (p & w1 & Hd & Hread)%bind_Ok_inv.
  pose proof Hd as Hd'. unfold download_file in Hd'.
  apply bind_Ok_inv in Hd' as (resp & wa & Hget & Hrest).
  apply bind_Ok_inv in Hrest as ([] & wb & Hst & _).
  apply download_file_Ok in Hd as (-> & st & body & Hreply & Hfile).
  unfold requests_get in Hget. rewrite Hreply in Hget. injection Hget as <- _.
  unfold raise_for_status in Hst. case_decide as Hrange; [done|]. simpl in Hrange.
  exists st, body. split; [done|]. split; [done|].
  unfold read_table_from_csv, FS.read_file in Hread. rewrite Hfile in Hread.
  destruct (read_table O _ _) as [rows'|] eqn:Hrows; [|done].
  injection Hread as <- <-. split; [done|]. by rewrite <- resolve_csv_file.
Qed.

End Fetch_results.

(** X3. Whatever makes [get_orders] fail (no reply, a failure status, the
    directory or the file not writable, a file the table reader refuses),
    the task (lines 31-43) raises that same exception in that same world:
    the one HTTP request is the only call that was made, the browser was
    never called, and the exception is one of those four kinds. *)
Theorem fetch_failure_aborts_task
    (O : Outside) (c : Config) (fuel : nat) (w w1 : World O) (e : PyExc) :
  get_orders c w = Raise e w1 →
  order_robots_from_RobotSpareBin c fuel w = Raise e w1
  ∧ trace w1 = trace w ++ [HttpGet CSV_URL]
  ∧ (e = ConnectionError
     ∨ (∃ st, e = HTTPError st ∧ (400 ≤ st < 600)%Z)
     ∨ os_error e
     ∨ ∃ msg, e = TableError msg).
Proof.
  intros Hget. split_and!.
  - unfold order_robots_from_RobotSpareBin. by rewrite (bind_Raise _ _ _ _ _ Hget).
  - pose proof (get_orders_trace c w) as Ht. by rewrite Hget in Ht.
  - by eapply (get_orders_errors c).
Qed.

Lemma fetch_failure_witness :
  let c := Scenario.at_home ∅ in
  let w := Scenario.start Scenario.garbled 0 Scenario.ready_disk in
  let w1 := mkWorld (0 : site Scenario.garbled)
              (<[ ["robot"; "orders.csv"] := File (Bytes "<html>maintenance</html>") ]>
                 Scenario.ready_disk)
              [HttpGet "https://robotsparebinindustries.com/orders.csv"] in
  order_robots_from_RobotSpareBin c 0 w = Raise (TableError "cannot read table") w1
  ∧ trace w1 = trace w ++ [HttpGet CSV_URL].
Proof.
  intros c w w1.
  destruct (fetch_failure_aborts_task Scenario.garbled c 0 w w1
              (TableError "cannot read table")) as (H1 & H2 & _).
  - vm_compute. reflexivity.
  - split; [exact H1|exact H2].
Defined.

(** X4. When [get_orders] (lines 166-170) returns, the rows it returns
    are what the table reader makes of the bytes the server sent, read
    back from [orders.csv] in the code directory, for the five columns
    named in the source; the status was not in 400..599; and that file
    still holds those bytes. *)
Theorem get_orders_returns_the_downloaded_table
    (O : Outside) (c : Config) (w w' : World O) (rows : list Order) :
  get_orders c w = Ok rows w' →
  ∃ st body,
    http_get O CSV_URL = Reply st body
    ∧ ¬ (400 ≤ st < 600)%Z
    ∧ read_table O body ["Order number"; "Head"; "Body"; "Legs"; "Address"]
      = Some rows
    ∧ fs w' !! (resolve (cwd c) (Path_parent (Path_of_string (module_file c)))
                  ++ ["orders.csv"]) = Some (File body)
    ∧ trace w' = trace w ++ [HttpGet CSV_URL].
Proof.
  intros Hget.
  destruct (get_orders_Ok_inv c rows w w' Hget) as (st & body & H1 & H2 & H3 & H4).
  exists st, body. split_and!; [done..|].
  pose proof (get_orders_trace c w) as Ht. by rewrite Hget in Ht.
Qed.

Lemma get_orders_returns_witness :
  let c := Scenario.at_home ∅ in
  let w := Scenario.start Scenario.two_orders 0 Scenario.ready_disk in
  get_orders c w = Ok [Scenario.order1; Scenario.order2] (state_of (get_orders c w))
  ∧ ∃ st body,
      http_get Scenario.two_orders CSV_URL = Reply st body
      ∧ fs (state_of (get_orders c w)) !! ["robot"; "orders.csv"] = Some (File body).
Proof.
  intros c w.
  assert (Hget : get_orders c w
                 = Ok [Scenario.order1; Scenario.order2] (state_of (get_orders c w)))
    by (vm_compute; reflexivity).
  split; [exact Hget|].
  destruct (get_orders_returns_the_downloaded_table Scenario.two_orders c w _ _ Hget)
    as (st & body & H1 & _ & _ & H4 & _).
  exists st, body. split; [exact H1|exact H4].
Defined.

(** ** The files of an order: names, preconditions, overwriting *)

Section Order_files.
Context (c : Config).

Lemma receipt_file_inj (n m : Z) :
  resolve (cwd c) (receipt_file c n) = resolve (cwd c) (receipt_file c m) → n = m.
Proof.
  rewrite !resolve_receipt_file. intros H%app_inv_head. injection H as H.
  change (pretty n +:+ ".png" = pretty m +:+ ".png") in H.
  apply append_inj_r in H. by apply (inj pretty).
Qed.

Lemma robot_file_inj (n m : Z) :
  resolve (cwd c) (robot_file c n) = resolve (cwd c) (robot_file c m) → n = m.
Proof.
  rewrite !resolve_robot_file. intros H%app_inv_head. injection H as H.
  change (pretty n +:+ ".png" = pretty m +:+ ".png") in H.
  apply append_inj_r in H. by apply (inj pretty).
Qed.

Lemma receipt_not_robot_of (n m : Z) :
  resolve (cwd c) (receipt_file c n) ≠ resolve (cwd c) (robot_file c m).
Proof.
  rewrite resolve_receipt_file, resolve_robot_file.
  intros [_ [= ?]]%app_inj_tail.
Qed.

Lemma orders_dir_not_receipt (n : Z) :
  resolve (cwd c) (receipt_file c n) ≠ resolve (cwd c) (ORDERS_DIR c).
Proof.
  rewrite resolve_receipt_file, resolve_ORDERS_DIR.
  intros [_ [= ?]]%app_inj_tail.
Qed.

Lemma orders_dir_not_robot (n : Z) :
  resolve (cwd c) (robot_file c n) ≠ resolve (cwd c) (ORDERS_DIR c).
Proof.
  rewrite resolve_robot_file, resolve_ORDERS_DIR.
  intros [_ [= ?]]%app_inj_tail.
Qed.

Lemma output_dir_not_file (n : Z) j :
  j ∈ order_files c n → j ≠ resolve (cwd c) (OUTPUT_DIR c).
Proof.
  unfold order_files. rewrite !elem_of_cons, elem_of_nil.
  rewrite resolve_receipt_file, resolve_robot_file, resolve_pdf_file.
  intros [->|[->|[->|[]]]] H%(f_equal length);
    rewrite length_app in H; simpl in H; lia.
Qed.

Lemma parent_of_receipt (n : Z) :
  removelast (resolve (cwd c) (receipt_file c n)) = resolve (cwd c) (OUTPUT_DIR c).
Proof. rewrite resolve_receipt_file. apply removelast_last. Qed.

Lemma parent_of_robot (n : Z) :
  removelast (resolve (cwd c) (robot_file c n)) = resolve (cwd c) (OUTPUT_DIR c).
Proof. rewrite resolve_robot_file. apply removelast_last. Qed.

Lemma parent_of_pdf (n : Z) :
  removelast (resolve (cwd c) (pdf_file c n)) = resolve (cwd c) (ORDERS_DIR c).
Proof.
  unfold pdf_file. rewrite resolve_div_plain by apply plain_order_pdf.
  apply removelast_last.
Qed.

End Order_files.

(** X6. The files named after orders never collide: for each of the
    three kinds (receipt image, robot image, PDF; lines 68-73) two order
    numbers give the same location only if they are equal, and no file of
    one kind is at the location of a file of another kind, whatever the
    order numbers and the output root. *)
Theorem order_files_never_collide (c : Config) (n m : Z) :
  (resolve (cwd c) (receipt_file c n) = resolve (cwd c) (receipt_file c m) → n = m)
  ∧ (resolve (cwd c) (robot_file c n) = resolve (cwd c) (robot_file c m) → n = m)
  ∧ (resolve (cwd c) (pdf_file c n) = resolve (cwd c) (pdf_file c m) → n = m)
  ∧ resolve (cwd c) (receipt_file c n) ≠ resolve (cwd c) (robot_file c m)
  ∧ resolve (cwd c) (receipt_file c n) ≠ resolve (cwd c) (pdf_file c m)
  ∧ resolve (cwd c) (robot_file c n) ≠ resolve (cwd c) (pdf_file c m).
Proof.
  split_and!.
  - apply receipt_file_inj.
  - apply robot_file_inj.
  - apply pdf_file_inj.
  - apply receipt_not_robot_of.
  - apply pdf_not_receipt_of.
  - apply pdf_not_robot_of.
Qed.

Section Write_facts.

Lemma write_file_parent (k : list string) (d : data) (disk disk' : filesystem) :
  FS.write_file k d disk = inr disk' →
  k ≠ [] ∧ FS.is_dir disk (removelast k) = true ∧ disk !! k ≠ Some Dir.
Proof.
  unfold FS.write_file. destruct k as [|x k]; [done|].
  destruct (disk !! (x :: k)) as [[d'|]|] eqn:Hk; try done;
    destruct (FS.is_dir disk (removelast (x :: k))) eqn:Hp; try done;
    intros _; by split_and!.
Qed.

Lemma write_file_runs (k : list string) (d : data) (disk : filesystem) :
  k ≠ [] → FS.is_dir disk (removelast k) = true → disk !! k ≠ Some Dir →
  FS.write_file k d disk = inr (<[k := File d]> disk).
Proof.
  intros Hk Hp Hd. unfold FS.write_file. destruct k as [|x k]; [done|].
  rewrite Hp. destruct (disk !! (x :: k)) as [[d'|]|]; done.
Qed.

Lemma Path_mkdir_existing (parents : bool) (k : list string) (disk : filesystem) :
  FS.is_dir disk k = true → FS.Path_mkdir parents true k disk = inr disk.
Proof.
  intros Hk. unfold FS.Path_mkdir, FS.os_mkdir.
  destruct k as [|x k]; [done|]. rewrite Hk. simpl in Hk.
  destruct (disk !! (x :: k)) as [[d|]|]; done.
Qed.

Lemma is_dir_insert_file (k j : list string) (d : data) (disk : filesystem) :
  k ≠ j → FS.is_dir (<[k := File d]> disk) j = FS.is_dir disk j.
Proof.
  intros Hkj. unfold FS.is_dir. destruct j; [done|]. by rewrite lookup_insert_ne.
Qed.

Lemma is_dir_lookup (j : list string) (disk : filesystem) :
  j ≠ [] → FS.is_dir disk j = true ↔ disk !! j = Some Dir.
Proof.
  intros Hj. unfold FS.is_dir. destruct j; [done|].
  destruct (disk !! (s :: j)) as [[d|]|]; naive_solver.
Qed.

Lemma is_dir_saved (k j : list string) (r : Shot) (disk : filesystem) :
  k ≠ j → FS.is_dir (saved k r disk) j = FS.is_dir disk j.
Proof. intros Hkj. destruct r; simpl; [|done..]. by apply is_dir_insert_file. Qed.

Lemma is_dir_dirs_added (k j : list string) (disk disk' : filesystem) :
  dirs_added k disk disk' → ¬ j `prefix_of` k →
  FS.is_dir disk' j = FS.is_dir disk j.
Proof.
  intros Hd Hj. unfold FS.is_dir. destruct j as [|x j]; [done|].
  destruct (Hd (x :: j)) as [->|(_ & _ & ?)]; done.
Qed.

End Write_facts.

Section Store_runs.
Context {O : Outside} (c : Config).

Lemma orders_dir_not_above_output :
  ¬ resolve (cwd c) (ORDERS_DIR c) `prefix_of` resolve (cwd c) (OUTPUT_DIR c).
Proof.
  rewrite resolve_ORDERS_DIR. intros H%prefix_length.
  rewrite length_app in H. simpl in H. lia.
Qed.

Lemma orders_dir_nonempty : resolve (cwd c) (ORDERS_DIR c) ≠ [].
Proof. rewrite resolve_ORDERS_DIR. by destruct (resolve _ _). Qed.

Lemma store_receipt_as_pdf_Ok_orders_dir n (w w' : World O) p :
  store_receipt_as_pdf c n w = Ok p w' →
  FS.is_dir (fs w) (resolve (cwd c) (ORDERS_DIR c)) = true.
Proof.
  unfold store_receipt_as_pdf.
  intros ([] & w1 & Hcap & Hcomp)%bind_Ok_inv.
  apply store_receipt_capture_Ok in Hcap as (disk & Hd & Hw1).
  unfold store_receipt_compose in Hcomp.
  apply bind_Ok_inv in Hcomp as (ok & w2 & Hs & Hrest).
  unfold Path_is_file in Hs. injection Hs as <- <-.
  apply bind_Ok_inv in Hrest as ([] & w3 & Hadd & _).
  destruct (FS.is_file _ _); [|done].
  unfold add_files_to_pdf in Hadd.
  destruct (read_all _ _) as [|pages]; [done|].
  apply on_fs_Ok in Hadd as (disk' & (_ & Hp & _)%write_file_parent & _).
  rewrite resolve_str_pdf_file, parent_of_pdf, Hw1 in Hp.
  rewrite !is_dir_saved in Hp
    by auto using orders_dir_not_receipt, orders_dir_not_robot.
  by rewrite (is_dir_dirs_added _ _ _ _ Hd orders_dir_not_above_output) in Hp.
Qed.

Lemma locator_screenshot_runs sel path png (w : World O) s disk' :
  shoot O (page w) sel = (s, Captured png) →
  FS.write_file (resolve_str (cwd c) path) (Image png) (fs w) = inr disk' →
  locator_screenshot c (page_locator sel) path w
  = Ok tt (mkWorld s disk' (trace w ++ [Screenshot sel path])).
Proof.
  intros Hs Hw. unfold locator_screenshot, page_locator. simpl.
  by rewrite Hs, Hw.
Qed.

(** The run of [store_receipt_as_pdf] when nothing is in its way. *)
Lemma store_receipt_as_pdf_runs n (w : World O) s1 s2 a b :
  FS.is_dir (fs w) (resolve (cwd c) (OUTPUT_DIR c)) = true →
  FS.is_dir (fs w) (resolve (cwd c) (ORDERS_DIR c)) = true →
  (∀ j, j ∈ order_files c n → fs w !! j ≠ Some Dir) →
  shoot O (page w) "#receipt" = (s1, Captured a) →
  shoot O s1 "#robot-preview-image" = (s2, Captured b) →
  store_receipt_as_pdf c n w
  = Ok (pdf_file c n)
       (mkWorld s2
          (<[resolve (cwd c) (pdf_file c n) := File (Pdf [Image a; Image b])]>
             (<[resolve (cwd c) (robot_file c n) := File (Image b)]>
                (<[resolve (cwd c) (receipt_file c n) := File (Image a)]> (fs w))))
          (trace w ++ [ Screenshot "#receipt" (Path_str (receipt_file c n));
                        Screenshot "#robot-preview-image"
                          (Path_str (robot_file c n)) ])).
Proof.
  destruct w as [pg disk tr]. cbn [page fs trace].
  intros Hroot Hord Hfree Hs1 Hs2.
  assert (Hrk : disk !! resolve (cwd c) (receipt_file c n) ≠ Some Dir).
  { apply Hfree. unfold order_files. rewrite !elem_of_cons. auto. }
  assert (Hbk : disk !! resolve (cwd c) (robot_file c n) ≠ Some Dir).
  { apply Hfree. unfold order_files. rewrite !elem_of_cons. auto. }
  assert (Hpk : disk !! resolve (cwd c) (pdf_file c n) ≠ Some Dir).
  { apply Hfree. unfold order_files. rewrite !elem_of_cons. auto. }
  assert (Hrne : resolve (cwd c) (receipt_file c n) ≠ []).
  { rewrite resolve_receipt_file. by destruct (resolve _ _). }
  assert (Hbne : resolve (cwd c) (robot_file c n) ≠ []).
  { rewrite resolve_robot_file. by destruct (resolve _ _). }
  assert (Hpne : resolve (cwd c) (pdf_file c n) ≠ []).
  { rewrite resolve_pdf_file. by destruct (resolve _ _). }
  pose proof (output_dir_not_file c n) as Hout.
  assert (Hin1 : resolve (cwd c) (receipt_file c n) ∈ order_files c n)
    by (unfold order_files; rewrite !elem_of_cons; auto).
  set (disk1 := <[resolve (cwd c) (receipt_file c n) := File (Image a)]> disk).
  set (disk2 := <[resolve (cwd c) (robot_file c n) := File (Image b)]> disk1).
  set (tr2 := tr ++ [ Screenshot "#receipt" (Path_str (receipt_file c n));
                      Screenshot "#robot-preview-image" (Path_str (robot_file c n)) ]).
  assert (Hcap : store_receipt_capture c n (mkWorld pg disk tr)
                 = Ok tt (mkWorld s2 disk2 tr2)).
  { unfold store_receipt_capture.
    rewrite (bind_Ok _ _ _ tt (mkWorld pg disk tr)).
    2:{ unfold Path_mkdir, on_fs. cbn [fs page trace].
        by rewrite Path_mkdir_existing. }
    cbn [truth_value].
    rewrite (bind_Ok _ _ _ tt
               (mkWorld s1 disk1
                  (tr ++ [Screenshot "#receipt" (Path_str (receipt_file c n))]))).
    2:{ apply (locator_screenshot_runs _ _ a); [done|]. cbn [fs].
        rewrite resolve_str_receipt_file.
        apply write_file_runs; [done|by rewrite parent_of_receipt|done]. }
    unfold screenshot_robot.
    rewrite (locator_screenshot_runs _ _ b _ s2 disk2); [|done|].
    - unfold tr2. cbn [trace]. by rewrite <- app_assoc.
    - cbn [fs]. rewrite resolve_str_robot_file.
      apply write_file_runs; [done| |].
      + rewrite parent_of_robot. unfold disk1.
        rewrite is_dir_insert_file; [done|]. by apply Hout.
      + unfold disk1. by rewrite lookup_insert_ne by apply receipt_not_robot. }
  unfold store_receipt_as_pdf. rewrite (bind_Ok _ _ _ _ _ Hcap).
  unfold store_receipt_compose. rewrite bind_unfold.
  unfold Path_is_file, FS.is_file. cbn [fs].
  assert (Hr2 : disk2 !! resolve (cwd c) (receipt_file c n) = Some (File (Image a))).
  { unfold disk2, disk1.
    rewrite lookup_insert_ne by apply not_eq_sym, receipt_not_robot.
    by rewrite lookup_insert_eq. }
  assert (Hb2 : disk2 !! resolve (cwd c) (robot_file c n) = Some (File (Image b))).
  { unfold disk2. by rewrite lookup_insert_eq. }
  rewrite Hr2.
  rewrite (bind_Ok _ _ _ tt
             (mkWorld s2
                (<[resolve (cwd c) (pdf_file c n) := File (Pdf [Image a; Image b])]> disk2)
                tr2)); [done|].
  unfold add_files_to_pdf. cbn [fs fmap list_fmap read_all].
  rewrite resolve_str_receipt_file, resolve_str_robot_file, resolve_str_pdf_file.
  unfold FS.read_file. rewrite Hr2, Hb2.
  unfold on_fs. cbn [fs page trace].
  rewrite write_file_runs; [done|done| |].
  - rewrite parent_of_pdf. unfold disk2, disk1.
    rewrite !is_dir_insert_file
      by auto using orders_dir_not_receipt, orders_dir_not_robot.
    done.
  - unfold disk2, disk1.
    rewrite !lookup_insert_ne
      by (apply not_eq_sym; auto using pdf_not_receipt, pdf_not_robot).
    done.
Qed.

End Store_runs.

(** X11. [store_receipt_as_pdf] (lines 67-89) makes sure of the output
    root only (line 70): when it returns, the [orders] directory below
    the output root was already a directory before the call. *)
Theorem store_receipt_needs_orders_dir
    (O : Outside) (c : Config) (n : Z) (w w' : World O) (p : Path) :
  store_receipt_as_pdf c n w = Ok p w' →
  FS.is_dir (fs w) (resolve (cwd c) (OUTPUT_DIR c) ++ ["orders"]) = true.
Proof.
  intros H%store_receipt_as_pdf_Ok_orders_dir. by rewrite <- resolve_ORDERS_DIR.
Qed.

Lemma store_receipt_needs_orders_dir_witness :
  let c := Scenario.at_home ∅ in
  let w := Scenario.start Scenario.easy 0 Scenario.ready_disk in
  FS.is_dir (fs w) (resolve (cwd c) (OUTPUT_DIR c) ++ ["orders"]) = true.
Proof.
  intros c w.
  apply (store_receipt_needs_orders_dir Scenario.easy (Scenario.at_home ∅) 1
           (Scenario.start Scenario.easy 0 Scenario.ready_disk)
           (mkWorld (0 : site Scenario.easy) Scenario.disk_after_order1
              [ Screenshot "#receipt" "output/receipt_1.png";
                Screenshot "#robot-preview-image" "output/robot_1.png" ])
           (mkPath false ["output"; "orders"; "order_1.pdf"])).
  vm_compute. reflexivity.
Defined.

(** X12. If the output root and its [orders] directory are directories,
    none of the three files of order [n] is a directory, and the two
    capture calls save their images, then [store_receipt_as_pdf] returns
    the PDF path; it has made the two screenshot calls, receipt first, and
    the disk differs from the one before in exactly the three files: the
    two images and the PDF of the two. *)
Theorem store_receipt_as_pdf_succeeds
    (O : Outside) (c : Config) (n : Z) (w : World O)
    (s1 s2 : site O) (a b : string) :
  FS.is_dir (fs w) (resolve (cwd c) (OUTPUT_DIR c)) = true →
  FS.is_dir (fs w) (resolve (cwd c) (ORDERS_DIR c)) = true →
  (∀ j, j ∈ order_files c n → fs w !! j ≠ Some Dir) →
  shoot O (page w) "#receipt" = (s1, Captured a) →
  shoot O s1 "#robot-preview-image" = (s2, Captured b) →
  store_receipt_as_pdf c n w
  = Ok (pdf_file c n)
       (mkWorld s2
          (<[resolve (cwd c) (pdf_file c n) := File (Pdf [Image a; Image b])]>
             (<[resolve (cwd c) (robot_file c n) := File (Image b)]>
                (<[resolve (cwd c) (receipt_file c n) := File (Image a)]> (fs w))))
          (trace w ++ [ Screenshot "#receipt" (Path_str (receipt_file c n));
                        Screenshot "#robot-preview-image"
                          (Path_str (robot_file c n)) ])).
Proof. apply store_receipt_as_pdf_runs. Qed.

Lemma store_receipt_as_pdf_succeeds_witness :
  let c := Scenario.at_home ∅ in
  let w := Scenario.start Scenario.easy 0 Scenario.stale_disk in
  ∃ w', store_receipt_as_pdf c 0 w = Ok (pdf_file c 0) w'
        ∧ fs w' !! ["robot"; "output"; "orders"; "order_0.pdf"]
          = Some (File (Pdf [Scenario.receipt1; Scenario.robot1])).
Proof.
  intros c w. eexists. split.
  - apply (store_receipt_as_pdf_succeeds Scenario.easy c 0 w 0 0
             "png of #receipt" "png of #robot-preview-image").
    + vm_compute. reflexivity.
    + vm_compute. reflexivity.
    + intros j Hj. unfold order_files in Hj.
      rewrite !elem_of_cons, elem_of_nil in Hj.
      destruct Hj as [->|[->|[->|[]]]]; vm_compute; discriminate.
    + reflexivity.
    + reflexivity.
  - vm_compute. reflexivity.
Defined.

(** X5. Storing the receipt of the same order twice (lines 67-89), each
    time with both captures saving, leaves the disk as the second call
    alone would have left it: the three files are overwritten in place,
    and no entry is added by the second call. *)
Theorem repeated_store_overwrites
    (O : Outside) (c : Config) (n : Z) (w : World O)
    (s1 s2 s3 s4 : site O) (a b a' b' : string) :
  FS.is_dir (fs w) (resolve (cwd c) (OUTPUT_DIR c)) = true →
  FS.is_dir (fs w) (resolve (cwd c) (ORDERS_DIR c)) = true →
  (∀ j, j ∈ order_files c n → fs w !! j ≠ Some Dir) →
  shoot O (page w) "#receipt" = (s1, Captured a) →
  shoot O s1 "#robot-preview-image" = (s2, Captured b) →
  shoot O s2 "#receipt" = (s3, Captured a') →
  shoot O s3 "#robot-preview-image" = (s4, Captured b') →
  ∃ w1 w2,
    store_receipt_as_pdf c n w = Ok (pdf_file c n) w1
    ∧ store_receipt_as_pdf c n w1 = Ok (pdf_file c n) w2
    ∧ fs w2 = <[resolve (cwd c) (pdf_file c n) := File (Pdf [Image a'; Image b'])]>
                (<[resolve (cwd c) (robot_file c n) := File (Image b')]>
                   (<[resolve (cwd c) (receipt_file c n) := File (Image a')]> (fs w)))
    ∧ dom (fs w2) = dom (fs w1).
Proof.
  intros Hroot Hord Hfree H1 H2 H3 H4.
  pose proof (store_receipt_as_pdf_runs c n w s1 s2 a b Hroot Hord Hfree H1 H2) as Hw1.
  eexists. eexists. split; [exact Hw1|].
  pose proof (output_dir_not_file c n) as Hout.
  assert (Hk : ∀ j, j ∈ order_files c n →
            j = resolve (cwd c) (receipt_file c n)
            ∨ j = resolve (cwd c) (robot_file c n)
            ∨ j = resolve (cwd c) (pdf_file c n)).
  { intros j. unfold order_files. rewrite !elem_of_cons, elem_of_nil. tauto. }
  assert (Hin : ∀ j, j = resolve (cwd c) (receipt_file c n)
                     ∨ j = resolve (cwd c) (robot_file c n)
                     ∨ j = resolve (cwd c) (pdf_file c n) → j ∈ order_files c n).
  { intros j. unfold order_files. rewrite !elem_of_cons, elem_of_nil. tauto. }
  split; [|split].
  - erewrite store_receipt_as_pdf_runs; [reflexivity|..]; cbn [page fs trace].
    + rewrite !is_dir_insert_file by (apply Hout, Hin; auto). done.
    + assert (Hpo : resolve (cwd c) (pdf_file c n) ≠ resolve (cwd c) (ORDERS_DIR c)).
      { rewrite resolve_pdf_file, resolve_ORDERS_DIR.
        intros E%(f_equal length). rewrite !length_app in E. simpl in E. lia. }
      rewrite !is_dir_insert_file
        by auto using orders_dir_not_receipt, orders_dir_not_robot.
      done.
    + intros j Hj. rewrite !lookup_insert.
      repeat case_decide; try done.
      apply Hk in Hj. destruct Hj as [?|[?|?]]; congruence.
    + exact H3.
    + exact H4.
  - cbn [fs]. apply map_eq. intros j. rewrite !lookup_insert.
    repeat case_decide; done.
  - cbn [fs]. rewrite !dom_insert_L. apply set_eq. intros j.
    rewrite !elem_of_union, !elem_of_singleton. tauto.
Qed.

Lemma repeated_store_overwrites_witness :
  let c := Scenario.at_home ∅ in
  let w := Scenario.start Scenario.easy 0 Scenario.ready_disk in
  ∃ w1 w2,
    store_receipt_as_pdf c 1 w = Ok (pdf_file c 1) w1
    ∧ store_receipt_as_pdf c 1 w1 = Ok (pdf_file c 1) w2
    ∧ dom (fs w2) = dom (fs w1).
Proof.
  intros c w.
  destruct (repeated_store_overwrites Scenario.easy c 1 w 0 0 0 0
              "png of #receipt" "png of #robot-preview-image"
              "png of #receipt" "png of #robot-preview-image")
    as (w1 & w2 & Ha & Hb & _ & Hd).
  - vm_compute. reflexivity.
  - vm_compute. reflexivity.
  - intros j Hj. unfold order_files in Hj.
    rewrite !elem_of_cons, elem_of_nil in Hj.
    destruct Hj as [->|[->|[->|[]]]]; vm_compute; discriminate.
  - reflexivity.
  - reflexivity.
  - reflexivity.
  - reflexivity.
  - exists w1, w2. split; [exact Ha|]. split; [exact Hb|exact Hd].
Defined.

(** ** What a run does to the disk as a whole *)

Section Disk_relations.

#[global] Instance grows_rel : DiskRel grows (λ _, True).
Proof.
  split.
  - intros disk j n Hj. exists n. split; [done|]. by destruct n.
  - intros d1 d2 d3 H12 H23 j n Hj.
    destruct (H12 j n Hj) as (n2 & Hj2 & Hk2).
    destruct (H23 j n2 Hj2) as (n3 & Hj3 & Hk3).
    exists n3. split; [done|]. by destruct n, n2, n3.
  - intros k disk disk' Hd j n Hj.
    destruct (Hd j) as [E|(E & _)]; [|congruence].
    exists n. rewrite E. split; [done|]. by destruct n.
  - intros k x disk disk' _ Hw j n Hj.
    pose proof (write_file_parent _ _ _ _ Hw) as (_ & _ & Hnd).
    apply write_file_inr in Hw as ->.
    destruct (decide (k = j)) as [->|Hne].
    + exists (File x). rewrite lookup_insert_eq. split; [done|].
      destruct n; [done|congruence].
    + exists n. rewrite lookup_insert_ne by done. split; [done|]. by destruct n.
Qed.

#[global] Instance only_writes_rel K : DiskRel (only_writes K) K.
Proof.
  split.
  - by intros disk j _ d.
  - intros d1 d2 d3 H12 H23 j Hj d. by rewrite (H23 j Hj d), (H12 j Hj d).
  - intros k disk disk' Hd j _ d. by apply (dirs_added_same_files _ _ _ Hd).
  - intros k x disk disk' Hk ->%write_file_inr j Hj d.
    rewrite lookup_insert_ne; [done|]. by intros ->.
Qed.

End Disk_relations.

Section Disk_steps.
Context {O : Outside} (c : Config).
Context (R : filesystem → filesystem → Prop) (K : list string → Prop).
Context `{!DiskRel R K}.

Lemma disk_step_keeps {A} (m : M O A) : keeps_disk m → disk_step R m.
Proof. intros Hm w. rewrite Hm. apply diskrel_refl. Qed.

Lemma disk_step_bind {A B} (m : M O A) (k : A → M O B) :
  disk_step R m → (∀ a, disk_step R (k a)) → disk_step R (m ≫= k).
Proof.
  intros Hm Hk w. rewrite bind_unfold. specialize (Hm w).
  destruct (m w) as [a w1|e w1|w1]; simpl in *; [|done..].
  eapply diskrel_trans; [done|]. apply Hk.
Qed.

Lemma disk_step_while fuel (cond : M O bool) (body : M O unit) :
  disk_step R cond → disk_step R body → disk_step R (while fuel cond body).
Proof.
  intros Hc Hb. induction fuel as [|n IH]; intros w; simpl;
    specialize (Hc w); destruct (cond w) as [[|] w1|e w1|w1]; simpl in *; try done.
  specialize (Hb w1). destruct (body w1) as [[] w2|e w2|w2]; simpl in *.
  - eapply diskrel_trans; [done|]. eapply diskrel_trans; [done|]. apply IH.
  - by eapply diskrel_trans.
  - by eapply diskrel_trans.
Qed.

Lemma disk_step_for_each {A} (l : list A) (body : A → M O unit) :
  (∀ x, x ∈ l → disk_step R (body x)) → disk_step R (for_each l body).
Proof.
  induction l as [|x r IH]; intros Hb; simpl.
  - intros w. apply diskrel_refl.
  - apply disk_step_bind.
    + apply Hb. by left.
    + intros _. apply IH. intros y Hy. apply Hb. by right.
Qed.

Lemma disk_step_on_fs_mkdir parents exist_ok k :
  disk_step R (on_fs (FS.Path_mkdir parents exist_ok k) : M O unit).
Proof.
  intros w. unfold on_fs.
  destruct (FS.Path_mkdir _ _ _ _) as [e|disk] eqn:Hmk; simpl.
  - apply diskrel_refl.
  - eapply diskrel_dirs. by eapply Path_mkdir_inr.
Qed.

Lemma disk_step_on_fs_write k x :
  K k → disk_step R (on_fs (FS.write_file k x) : M O unit).
Proof.
  intros Hk w. unfold on_fs.
  destruct (FS.write_file _ _ _) as [e|disk] eqn:Hw; simpl.
  - apply diskrel_refl.
  - by eapply diskrel_write.
Qed.

Lemma disk_step_locator_screenshot l path :
  K (resolve_str (cwd c) path) →
  disk_step R (locator_screenshot c l path : M O unit).
Proof.
  intros Hk w. unfold locator_screenshot.
  destruct (shoot O (page w) (selector_of l)) as [s [png| |msg]]; simpl;
    try apply diskrel_refl.
  destruct (FS.write_file _ _ _) as [e|disk] eqn:Hw; simpl.
  - apply diskrel_refl.
  - by eapply diskrel_write.
Qed.

Lemma disk_step_store_receipt_as_pdf n :
  (∀ j, j ∈ order_files c n → K j) →
  disk_step R (store_receipt_as_pdf c n : M O Path).
Proof.
  intros HK.
  assert (K (resolve (cwd c) (receipt_file c n))
          ∧ K (resolve (cwd c) (robot_file c n))
          ∧ K (resolve (cwd c) (pdf_file c n))) as (Hr & Hb & Hp).
  { split_and!; apply HK; unfold order_files; rewrite !elem_of_cons; auto. }
  unfold store_receipt_as_pdf, store_receipt_capture, store_receipt_compose.
  apply disk_step_bind; [|intros _].
  - apply disk_step_bind; [apply disk_step_on_fs_mkdir|intros _].
    cbn [truth_value]. apply disk_step_bind; [|intros _].
    + apply disk_step_locator_screenshot. by rewrite resolve_str_receipt_file.
    + apply disk_step_locator_screenshot. by rewrite resolve_str_robot_file.
  - apply disk_step_bind; [by apply disk_step_keeps|intros ok].
    apply disk_step_bind; [|intros _; by apply disk_step_keeps].
    destruct ok; [|by apply disk_step_keeps].
    intros w. unfold add_files_to_pdf.
    destruct (read_all _ _); [apply diskrel_refl|].
    apply disk_step_on_fs_write. by rewrite resolve_str_pdf_file.
Qed.

Lemma disk_step_order_body fuel order :
  (∀ j, j ∈ order_files c (Order_number order) → K j) →
  disk_step R (order_body c fuel order : M O unit).
Proof.
  intros HK. unfold order_body.
  apply disk_step_bind;
    [apply disk_step_keeps, keeps_disk_close_annoying_modal|intros _].
  apply disk_step_bind;
    [apply disk_step_keeps, keeps_disk_fill_the_form|intros _].
  apply disk_step_bind; [apply disk_step_keeps, keeps_disk_call|intros _].
  apply disk_step_bind; [|intros _].
  { apply disk_step_while; apply disk_step_keeps;
      [apply keeps_disk_is_visible|apply keeps_disk_call]. }
  apply disk_step_bind; [by apply disk_step_store_receipt_as_pdf|intros _].
  apply disk_step_keeps, keeps_disk_call.
Qed.

Lemma disk_step_get_orders : K (csv_file c) → disk_step R (get_orders c : M O (list Order)).
Proof.
  intros HK. unfold get_orders, download_file.
  apply disk_step_bind; [|intros p].
  - apply disk_step_bind; [|intros r].
    { apply disk_step_keeps. intros w. unfold requests_get.
      by destruct (http_get O CSV_URL). }
    apply disk_step_bind; [|intros _].
    { apply disk_step_keeps. intros w. unfold raise_for_status. by case_decide. }
    apply disk_step_bind; [apply disk_step_on_fs_mkdir|intros _].
    apply disk_step_bind; [|intros _; by apply disk_step_keeps].
    apply disk_step_on_fs_write. by rewrite resolve_csv_file.
  - apply disk_step_keeps. intros w. by rewrite read_table_from_csv_state.
Qed.

Lemma disk_step_archive_receipts :
  K (zip_file c) → disk_step R (archive_receipts c : M O unit).
Proof.
  intros HK w. unfold archive_receipts, archive_folder_with_zip.
  case_decide; [apply diskrel_refl|].
  apply disk_step_on_fs_write. by rewrite resolve_str_receipts_zip.
Qed.

Lemma archive_receipts_unless_ok :
  disk_step_unless_ok R (archive_receipts c : M O unit).
Proof.
  intros w. unfold archive_receipts, archive_folder_with_zip.
  case_decide; [right; apply diskrel_refl|].
  unfold on_fs. destruct (FS.write_file _ _ _); [right; apply diskrel_refl|].
  left. by eexists _, _.
Qed.

Lemma disk_step_unless_ok_bind {A B} (m : M O A) (k : A → M O B) :
  disk_step R m → (∀ a, disk_step_unless_ok R (k a)) →
  disk_step_unless_ok R (m ≫= k).
Proof.
  intros Hm Hk w. rewrite bind_unfold. specialize (Hm w).
  destruct (m w) as [a w1|e w1|w1]; simpl in *; [|by right..].
  destruct (Hk a w1) as [?|HR]; [by left|right].
  by eapply diskrel_trans.
Qed.

(** The part of the task after the orders have been fetched. *)
Lemma disk_step_after_fetch fuel orders :
  (∀ o j, o ∈ orders → j ∈ order_files c (Order_number o) → K j) →
  K (zip_file c) →
  disk_step R (open_robot_order_website ;;
               call (SetDefaultTimeout 10000) ;;
               go_to_order_page ;;
               for_each orders (order_body c fuel) ;;
               archive_receipts c : M O unit).
Proof.
  intros HK Hzip. unfold open_robot_order_website, go_to_order_page.
  apply disk_step_bind; [|intros _].
  { apply disk_step_bind; [|intros _]; apply disk_step_keeps, keeps_disk_call. }
  apply disk_step_bind; [apply disk_step_keeps, keeps_disk_call|intros _].
  apply disk_step_bind; [apply disk_step_keeps, keeps_disk_call|intros _].
  apply disk_step_bind; [|intros _; by apply disk_step_archive_receipts].
  apply disk_step_for_each. intros o Ho. apply disk_step_order_body. eauto.
Qed.

Lemma disk_step_after_fetch_unless_ok fuel orders :
  (∀ o j, o ∈ orders → j ∈ order_files c (Order_number o) → K j) →
  disk_step_unless_ok R (open_robot_order_website ;;
                         call (SetDefaultTimeout 10000) ;;
                         go_to_order_page ;;
                         for_each orders (order_body c fuel) ;;
                         archive_receipts c : M O unit).
Proof.
  intros HK. unfold open_robot_order_website, go_to_order_page.
  apply disk_step_unless_ok_bind; [|intros _].
  { apply disk_step_bind; [|intros _]; apply disk_step_keeps, keeps_disk_call. }
  apply disk_step_unless_ok_bind; [apply disk_step_keeps, keeps_disk_call|intros _].
  apply disk_step_unless_ok_bind; [apply disk_step_keeps, keeps_disk_call|intros _].
  apply disk_step_unless_ok_bind; [|intros _; apply archive_receipts_unless_ok].
  apply disk_step_for_each. intros o Ho. apply disk_step_order_body. eauto.
Qed.

Lemma disk_step_module_init : disk_step R (module_init c : M O unit).
Proof. apply disk_step_on_fs_mkdir. Qed.

End Disk_steps.

Section Zip_location.
Context (c : Config).

Lemma zip_not_csv : csv_file c ≠ zip_file c.
Proof. unfold csv_file, zip_file. intros [_ [= ?]]%app_inj_tail. Qed.

Lemma zip_not_order_file (n : Z) j : j ∈ order_files c n → j ≠ zip_file c.
Proof.
  unfold order_files, zip_file. rewrite !elem_of_cons, elem_of_nil.
  rewrite resolve_receipt_file, resolve_robot_file, resolve_pdf_file.
  intros [->|[->|[->|[]]]].
  - intros [_ [= ?]]%app_inj_tail.
  - intros [_ [= ?]]%app_inj_tail.
  - intros H%(f_equal length). rewrite !length_app in H. simpl in H. lia.
Qed.

End Zip_location.

(** X7. A run (module load, then the task, lines 14-43) never removes an
    entry from the disk and never turns a file into a directory or a
    directory into a file, however it ends: what was a directory is still
    a directory, and where there was a file there still is one. *)
Theorem run_never_removes_entries
    (O : Outside) (c : Config) (fuel : nat) (w : World O) (j : list string) :
  (fs w !! j = Some Dir → fs (state_of (run c fuel w)) !! j = Some Dir)
  ∧ (∀ d, fs w !! j = Some (File d) →
          ∃ d', fs (state_of (run c fuel w)) !! j = Some (File d')).
Proof.
  assert (H : disk_step grows (run c fuel : M O unit)).
  { unfold run, order_robots_from_RobotSpareBin.
    apply (disk_step_bind grows (λ _, True));
      [apply (disk_step_module_init c grows (λ _, True))|intros _].
    apply (disk_step_bind grows (λ _, True));
      [by apply (disk_step_get_orders c grows (λ _, True))|intros orders].
    by apply (disk_step_after_fetch c grows (λ _, True)). }
  split.
  - intros Hj. destruct (H w j _ Hj) as ([d'|] & Hj' & Hk); done.
  - intros d Hj. destruct (H w j _ Hj) as ([d'|] & Hj' & Hk); [|done].
    by exists d'.
Qed.

(** X8. Once the orders are fetched, the task (lines 31-43) writes files
    at these locations only: [orders.csv] in the code directory, the
    receipt image, the robot image and the PDF of each order of the
    table, and [receipts.zip] in the output root.  Every other file on
    disk is afterwards what it was before, however the task ends. *)
Theorem task_writes_only_its_files
    (O : Outside) (c : Config) (fuel : nat) (w w1 : World O)
    (orders : list Order) (j : list string) (d : data) :
  get_orders c w = Ok orders w1 →
  j ≠ csv_file c →
  j ≠ zip_file c →
  (∀ o, o ∈ orders → j ∉ order_files c (Order_number o)) →
  fs (state_of (order_robots_from_RobotSpareBin c fuel w)) !! j = Some (File d)
  ↔ fs w !! j = Some (File d).
Proof.
  intros Hget Hcsv Hzip Hfiles.
  set (K := λ k, k = csv_file c ∨ k = zip_file c
                 ∨ ∃ o, o ∈ orders ∧ k ∈ order_files c (Order_number o)).
  assert (H : only_writes K (fs w)
                (fs (state_of (order_robots_from_RobotSpareBin c fuel w)))).
  { unfold order_robots_from_RobotSpareBin. rewrite (bind_Ok _ _ _ _ _ Hget).
    eapply (diskrel_trans (R := only_writes K)).
    - pose proof (disk_step_get_orders (O:=O) c (only_writes K) K) as Hstep.
      specialize (Hstep ltac:(by left) w). by rewrite Hget in Hstep.
    - apply (disk_step_after_fetch c (only_writes K) K).
      + intros o k Ho Hk. right. right. eauto.
      + right. by left. }
  apply H. intros [?|[?|(o & Ho & Hk)]]; [done|done|]. by apply (Hfiles o).
Qed.

Lemma task_writes_only_its_files_witness :
  let c := Scenario.at_home ∅ in
  let w := Scenario.start Scenario.two_orders 0 Scenario.stale_disk in
  fs (state_of (order_robots_from_RobotSpareBin c 0 w))
    !! ["robot"; "output"; "orders"; "order_0.pdf"] = Some (File Scenario.old_pdf).
Proof.
  intros c w.
  apply (task_writes_only_its_files Scenario.two_orders c 0 w
           (state_of (get_orders c w)) [Scenario.order1; Scenario.order2]).
  - vm_compute. reflexivity.
  - vm_compute. discriminate.
  - vm_compute. discriminate.
  - intros o Ho Hj. rewrite !elem_of_cons, elem_of_nil in Ho.
    unfold order_files in Hj. rewrite !elem_of_cons, elem_of_nil in Hj.
    destruct Ho as [->|[->|[]]]; destruct Hj as [Hj|[Hj|[Hj|[]]]];
      vm_compute in Hj; discriminate Hj.
  - vm_compute. reflexivity.
Defined.

(** X9. [receipts.zip] is written by the last step of the task only
    (line 43): in a run that does not complete, whether it raises or is
    still retrying, the archive file in the output root is what it was
    before the run. *)
Theorem archive_written_only_on_completion
    (O : Outside) (c : Config) (fuel : nat) (w : World O) (d : data) :
  (∀ w', run c fuel w ≠ Ok tt w') →
  fs (state_of (run c fuel w)) !! zip_file c = Some (File d)
  ↔ fs w !! zip_file c = Some (File d).
Proof.
  intros Hnot.
  set (K := λ k, k ≠ zip_file c).
  assert (H : disk_step_unless_ok (only_writes K) (run c fuel : M O unit)).
  { unfold run, order_robots_from_RobotSpareBin.
    apply (disk_step_unless_ok_bind (only_writes K) K);
      [apply (disk_step_module_init c (only_writes K) K)|intros _].
    apply (disk_step_unless_ok_bind (only_writes K) K).
    - apply (disk_step_get_orders c (only_writes K) K). apply zip_not_csv.
    - intros orders. apply (disk_step_after_fetch_unless_ok c (only_writes K) K).
      intros o k _ Hk. by eapply zip_not_order_file. }
  destruct (H w) as [([] & w' & Hok)|Honly]; [by destruct (Hnot w')|].
  apply Honly. unfold K. tauto.
Qed.

Lemma archive_written_only_on_completion_witness :
  let c := Scenario.at_home ∅ in
  let w := Scenario.start Scenario.no_receipt 0 Scenario.fresh_disk in
  fs (state_of (run c 0 w)) !! zip_file c = Some (File Scenario.old_archive)
  ↔ fs w !! zip_file c = Some (File Scenario.old_archive).
Proof.
  intros c w.
  apply (archive_written_only_on_completion Scenario.no_receipt c 0 w).
  intros w' H. vm_compute in H. discriminate H.
Defined.

(** ** The orders are worked through in table order *)

Section Table_order.
Context {O : Outside} (c : Config).

Lemma shows_app h1 p1 k1 h2 p2 k2 e1 e2 :
  shows h1 p1 k1 e1 → shows h2 p2 k2 e2 →
  shows (h1 ++ h2) (p1 ++ p2) (k1 + k2) (e1 ++ e2).
Proof.
  intros (Hh1 & Hp1 & Hk1) (Hh2 & Hp2 & Hk2).
  unfold shows, selected_heads, receipt_shots, new_order_clicks in *.
  rewrite !omap_app, filter_app, length_app. by subst.
Qed.

#[local] Instance plain_stable : Stable (shows [] [] 0).
Proof.
  split; [done|]. intros e1 e2 H1 H2.
  apply (shows_app [] [] 0 [] [] 0); done.
Qed.

Lemma yields_of_extends {A} (m : M O A) P : extends m P → yields m P.
Proof.
  intros Hm w a w' Hw. destruct (Hm w) as (evs & Ht & HP).
  rewrite Hw in Ht. eauto.
Qed.

Lemma yields_weaken {A} (m : M O A) (P Q : list Call → Prop) :
  yields m P → (∀ evs, P evs → Q evs) → yields m Q.
Proof.
  intros Hm HPQ w a w' Hw. destruct (Hm w a w' Hw) as (evs & ? & ?). eauto.
Qed.

Lemma yields_bind {A B} (m : M O A) (k : A → M O B) (P Q : list Call → Prop) :
  yields m P → (∀ a, yields (k a) Q) →
  yields (m ≫= k) (λ evs, ∃ e1 e2, evs = e1 ++ e2 ∧ P e1 ∧ Q e2).
Proof.
  intros Hm Hk w b w' (a & w1 & H1 & H2)%bind_Ok_inv.
  destruct (Hm w a w1 H1) as (e1 & Ht1 & HP).
  destruct (Hk a w1 b w' H2) as (e2 & Ht2 & HQ).
  exists (e1 ++ e2). rewrite Ht2, Ht1, app_assoc. eauto 10.
Qed.

Lemma yields_shows {A B} (m : M O A) (k : A → M O B) h1 p1 k1 h2 p2 k2 :
  yields m (shows h1 p1 k1) → (∀ a, yields (k a) (shows h2 p2 k2)) →
  yields (m ≫= k) (shows (h1 ++ h2) (p1 ++ p2) (k1 + k2)).
Proof.
  intros Hm Hk. eapply yields_weaken; [by apply yields_bind|].
  intros evs (e1 & e2 & -> & H1 & H2). by apply shows_app.
Qed.

Lemma yields_single {A} (m : M O A) a h p k :
  extends m (λ evs, evs = [a]) → shows h p k [a] → yields m (shows h p k).
Proof.
  intros Hm Ha. apply yields_of_extends. eapply extends_weaken; [done|].
  by intros ? ->.
Qed.

Lemma yields_silent {A} (m : M O A) :
  extends m (λ evs, evs = []) → yields m (shows [] [] 0).
Proof.
  intros Hm. apply yields_of_extends. eapply extends_weaken; [done|].
  by intros ? ->.
Qed.

Lemma call_plain a :
  shows [] [] 0 [a] → extends (call a : M O unit) (shows [] [] 0).
Proof. intros Ha. eapply extends_weaken; [apply extends_call|]. by intros ? ->. Qed.

Lemma while_plain fuel :
  yields (while fuel (is_visible ".alert-danger") submit_order : M O unit)
         (shows [] [] 0).
Proof.
  apply yields_of_extends, extends_while; [apply _| |by apply call_plain].
  eapply extends_weaken; [apply extends_is_visible|]. by intros ? ->.
Qed.

Lemma close_annoying_modal_plain :
  yields (close_annoying_modal : M O unit) (shows [] [] 0).
Proof.
  apply yields_of_extends. unfold close_annoying_modal.
  apply extends_seq; [apply _| |intros [|]].
  - eapply extends_weaken; [apply extends_is_visible|]. by intros ? ->.
  - by apply call_plain.
  - apply extends_nothing; [apply _|apply extends_ret].
Qed.

Lemma fill_the_form_shows order :
  yields (fill_the_form order : M O unit) (shows [Head order] [] 0).
Proof.
  intros w [] w' Hw.
  destruct (fill_the_form_cases order w)
    as [(k & e & w2 & _ & Hf & _)|(w2 & Hf & Ht & _)]; [congruence|].
  rewrite Hw in Hf. injection Hf as <-. exists (form_calls order).
  split; [done|]. by split_and!.
Qed.

Lemma add_files_to_pdf_silent files target :
  extends (add_files_to_pdf c files target : M O unit) (λ evs, evs = []).
Proof.
  intros w. exists []. rewrite app_nil_r. unfold add_files_to_pdf.
  destruct (read_all _ _); [done|]. split; [|done].
  unfold on_fs. by destruct (FS.write_file _ _ _).
Qed.

Lemma store_receipt_as_pdf_shows n :
  yields (store_receipt_as_pdf c n : M O Path)
         (shows [] [Path_str (receipt_file c n)] 0).
Proof.
  unfold store_receipt_as_pdf, store_receipt_capture, store_receipt_compose.
  apply (yields_shows _ _ [] [_] 0 [] [] 0); [|intros _].
  - apply (yields_shows _ _ [] [] 0 [] [_] 0);
      [apply yields_silent, extends_on_fs|intros _].
    cbn [truth_value].
    apply (yields_shows _ _ [] [_] 0 [] [] 0); [|intros _].
    + eapply yields_single; [apply extends_locator_screenshot|]. done.
    + eapply yields_single; [apply extends_locator_screenshot|]. done.
  - apply (yields_shows _ _ [] [] 0 [] [] 0); [|intros ok].
    { apply yields_silent. intros w. exists []. by rewrite app_nil_r. }
    apply (yields_shows _ _ [] [] 0 [] [] 0);
      [|intros _; apply yields_silent, extends_ret].
    destruct ok; [apply yields_silent, add_files_to_pdf_silent|].
    apply yields_silent, extends_raise.
Qed.

Lemma order_body_shows fuel order :
  yields (order_body c fuel order : M O unit)
         (shows [Head order] [Path_str (receipt_file c (Order_number order))] 1).
Proof.
  unfold order_body.
  apply (yields_shows _ _ [] [] 0 [_] [_] 1);
    [apply close_annoying_modal_plain|intros _].
  apply (yields_shows _ _ [_] [] 0 [] [_] 1);
    [apply fill_the_form_shows|intros _].
  apply (yields_shows _ _ [] [] 0 [] [_] 1); [|intros _].
  { eapply yields_single; [apply extends_call|]. done. }
  apply (yields_shows _ _ [] [] 0 [] [_] 1); [apply while_plain|intros _].
  apply (yields_shows _ _ [] [_] 0 [] [] 1);
    [apply store_receipt_as_pdf_shows|intros _].
  eapply yields_single; [apply extends_call|]. done.
Qed.

Lemma for_each_shows fuel orders :
  yields (for_each orders (order_body c fuel) : M O unit)
         (shows (Head <$> orders)
                ((λ o, Path_str (receipt_file c (Order_number o))) <$> orders)
                (length orders)).
Proof.
  induction orders as [|o r IH]; simpl.
  - apply yields_silent, extends_ret.
  - apply (yields_shows _ _ [_] [_] 1); [apply order_body_shows|by intros _].
Qed.

Lemma after_fetch_shows fuel orders :
  yields (open_robot_order_website ;;
          call (SetDefaultTimeout 10000) ;;
          go_to_order_page ;;
          for_each orders (order_body c fuel) ;;
          archive_receipts c : M O unit)
         (shows (Head <$> orders)
                ((λ o, Path_str (receipt_file c (Order_number o))) <$> orders)
                (length orders)).
Proof.
  unfold open_robot_order_website, go_to_order_page.
  apply (yields_shows _ _ [] [] 0); [|intros _].
  { apply yields_of_extends, extends_seq; [apply _| |intros _]; by apply call_plain. }
  apply (yields_shows _ _ [] [] 0);
    [apply yields_of_extends; by apply call_plain|intros _].
  apply (yields_shows _ _ [] [] 0);
    [apply yields_of_extends; by apply call_plain|intros _].
  eapply yields_weaken.
  - apply (yields_shows _ _ (Head <$> orders)
             ((λ o, Path_str (receipt_file c (Order_number o))) <$> orders)
             (length orders) [] [] 0); [apply for_each_shows|intros _].
    apply yields_silent. intros w. exists []. rewrite app_nil_r.
    unfold archive_receipts, archive_folder_with_zip.
    case_decide; [done|]. split; [|done].
    unfold on_fs. by destruct (FS.write_file _ _ _).
  - intros evs H. by rewrite !app_nil_r, Nat.add_0_r in H.
Qed.

End Table_order.

(** ** Loading the module *)

Section Module_load.

Lemma os_mkdir_is_dir (k : list string) (disk disk' : filesystem) :
  FS.os_mkdir k disk = inr disk' → FS.is_dir disk' k = true.
Proof.
  unfold FS.os_mkdir. destruct k as [|x k]; [done|].
  destruct (disk !! (x :: k)); [done|]. case_match; [|done].
  intros [= <-]. unfold FS.is_dir. by rewrite lookup_insert_eq.
Qed.

Lemma Path_mkdir_is_dir (parents exist_ok : bool) (k : list string)
    (disk disk' : filesystem) :
  FS.Path_mkdir parents exist_ok k disk = inr disk' → FS.is_dir disk' k = true.
Proof.
  unfold FS.Path_mkdir.
  destruct (FS.os_mkdir k disk) as [e|disk1] eqn:H1.
  - destruct e;
      try (destruct exist_ok; simpl; [|done];
           destruct (FS.is_dir disk k) eqn:Hk; [|done]; by intros [= <-]).
    destruct parents; [|done].
    destruct (FS.makedirs [] (removelast k) disk); [done|].
    apply os_mkdir_is_dir.
  - intros [= <-]. by eapply os_mkdir_is_dir.
Qed.

End Module_load.

(** X10. Loading the module (line 19) is create-if-absent: when it goes
    through, the [orders] directory below the output root is a directory,
    no file was created or changed and no call was made; and loading it
    again on the disk it left changes nothing. *)
Theorem module_init_is_idempotent
    (O : Outside) (c : Config) (w w' : World O) :
  module_init c w = Ok tt w' →
  FS.is_dir (fs w') (resolve (cwd c) (OUTPUT_DIR c) ++ ["orders"]) = true
  ∧ same_files (fs w) (fs w')
  ∧ trace w' = trace w
  ∧ module_init c w' = Ok tt w'.
Proof.
  unfold module_init, Path_mkdir.
  intros (disk & Hmk & ->)%on_fs_Ok. cbn [fs trace page].
  pose proof (Path_mkdir_is_dir _ _ _ _ _ Hmk) as Hdir.
  split_and!.
  - by rewrite <- resolve_ORDERS_DIR.
  - eapply dirs_added_same_files. by eapply Path_mkdir_inr.
  - done.
  - unfold on_fs. cbn [fs page trace]. by rewrite Path_mkdir_existing.
Qed.

Lemma module_init_is_idempotent_witness :
  let c := Scenario.at_home ∅ in
  let w := Scenario.start Scenario.easy 0 Scenario.fresh_disk in
  let w' := Scenario.start Scenario.easy 0 Scenario.ready_disk in
  module_init c w = Ok tt w' ∧ module_init c w' = Ok tt w'.
Proof.
  intros c w w'.
  assert (H : module_init c w = Ok tt w') by (vm_compute; reflexivity).
  split; [exact H|].
  apply (module_init_is_idempotent Scenario.easy c w w' H).
Defined.

(** ** The archive step *)

Section Archive_members.

Lemma files_under_lookup_inv (k rel : list string) (d : data) (disk : filesystem) :
  FS.files_under k disk !! rel = Some d →
  rel ≠ [] ∧ disk !! (k ++ rel) = Some (File d).
Proof.
  unfold FS.files_under.
  intros ([j nd] & Hin%elem_of_map_to_list & Hf)%elem_of_list_to_map_2%list_elem_of_omap.
  simpl in Hf. destruct nd as [d'|]; [|done].
  case_decide as Hk; [|done]. destruct Hk as [[rel' ->] Hne].
  rewrite drop_app_length in Hf. injection Hf as -> ->.
  split; [|done]. intros ->. by rewrite app_nil_r in Hne.
Qed.

End Archive_members.

(** X15. When [archive_receipts] (lines 184-187) returns, it has written
    one file, [receipts.zip] in the output root, and nothing else has
    changed; the members of the archive are exactly the regular files
    below [output/orders] of the working directory, at every depth, each
    under its path relative to that folder. *)
Theorem archive_receipts_takes_cwd_output_orders
    (O : Outside) (c : Config) (w w' : World O) :
  archive_receipts c w = Ok tt w' →
  ∃ members,
    fs w' = <[resolve (cwd c) (OUTPUT_DIR c) ++ ["receipts.zip"]
              := File (Zip members)]> (fs w)
    ∧ trace w' = trace w
    ∧ ∀ rel d,
        members !! rel = Some d
        ↔ rel ≠ [] ∧ fs w !! (cwd c ++ ["output"; "orders"] ++ rel) = Some (File d).
Proof.
  unfold archive_receipts, archive_folder_with_zip.
  replace (resolve_str (cwd c) "./output/orders/")
    with (cwd c ++ ["output"; "orders"])
    by (unfold resolve_str, resolve; simpl; by rewrite <- app_assoc).
  case_decide; [done|].
  intros (disk & ->%write_file_inr & ->)%on_fs_Ok. cbn [fs trace].
  eexists. rewrite resolve_str_receipts_zip. split; [done|]. split; [done|].
  intros rel d. rewrite (app_assoc (cwd c)). split.
  - apply files_under_lookup_inv.
  - intros [Hrel Hd]. by apply files_under_lookup.
Qed.

Lemma archive_receipts_takes_witness :
  let c := Scenario.at_home {[ "ROBOT_ARTIFACTS" := "artifacts" ]} in
  let w := Scenario.start Scenario.easy 0 Scenario.moved_disk in
  ∃ members,
    fs (state_of (archive_receipts c w)) !! ["robot"; "artifacts"; "receipts.zip"]
      = Some (File (Zip members))
    ∧ members !! ["order_0.pdf"] = Some Scenario.old_pdf.
Proof.
  intros c w.
  destruct (archive_receipts_takes_cwd_output_orders Scenario.easy c w
              (state_of (archive_receipts c w)))
    as (members & Hfs & _ & Hm).
  - vm_compute. reflexivity.
  - exists members. split.
    + rewrite Hfs. apply lookup_insert_eq.
    + apply Hm. split; [done|]. vm_compute. reflexivity.
Defined.

(** ** A failing order stops the loop *)

(** X14. The loop over the orders (lines 35-42) has no handler: if the
    orders before [o] go through and the body raises for [o], the loop
    ends there with that exception, in the world the failing body left,
    whatever orders follow; none of them is attempted.  The same holds if
    the body is still retrying for [o]. *)
Theorem failing_order_stops_the_loop
    (O : Outside) (c : Config) (fuel : nat) (w w1 : World O)
    (before after : list Order) (o : Order) :
  for_each before (order_body c fuel) w = Ok tt w1 →
  (∀ a w2, order_body c fuel o w1 ≠ Ok a w2) →
  for_each (before ++ o :: after) (order_body c fuel) w = order_body c fuel o w1.
Proof.
  revert w. induction before as [|x r IH]; intros w; simpl.
  - intros [= <-] Hbad. rewrite bind_unfold.
    destruct (order_body c fuel o w) as [[] w2|e w2|w2] eqn:Hb; [|done..].
    by destruct (Hbad tt w2).
  - intros (? & wa & Hx & Hr)%bind_Ok_inv Hbad.
    rewrite (bind_Ok _ _ _ _ _ Hx). by apply IH.
Qed.

Lemma failing_order_stops_witness :
  let c := Scenario.at_home ∅ in
  let w := Scenario.start Scenario.no_receipt 0 Scenario.ready_disk in
  for_each ([] ++ Scenario.order1 :: [Scenario.order2]) (order_body c 0) w
  = order_body c 0 Scenario.order1 w.
Proof.
  intros c w.
  apply (failing_order_stops_the_loop Scenario.no_receipt c 0 w w
           [] [Scenario.order2] Scenario.order1).
  - reflexivity.
  - intros a w2 H. vm_compute in H. discriminate H.
Defined.

(** ** Every order of a completed task has its receipt *)

(** X1. In a task that completes (lines 31-43), every order of the table
    has a two-page PDF on disk at [orders/order_<n>.pdf] under the output
    root; orders with distinct numbers have distinct PDF files; and if the
    output root's [orders] directory is the [output/orders] of the
    working directory, the archive written to [receipts.zip] in the output
    root has, for every order, a member [order_<n>.pdf] that is the very
    PDF on disk at [orders/order_<n>.pdf]. *)
Theorem completed_task_has_every_receipt
    (O : Outside) (c : Config) (fuel : nat) (w w1 w' : World O)
    (orders : list Order) :
  get_orders c w = Ok orders w1 →
  order_robots_from_RobotSpareBin c fuel w = Ok tt w' →
  (∀ o, o ∈ orders →
     ∃ x y, fs w' !! (resolve (cwd c) (OUTPUT_DIR c)
                        ++ ["orders"; "order_" +:+ pretty (Order_number o) +:+ ".pdf"])
            = Some (File (Pdf [x; y])))
  ∧ (NoDup (Order_number <$> orders) →
     NoDup ((λ o, resolve (cwd c) (OUTPUT_DIR c)
                    ++ ["orders"; "order_" +:+ pretty (Order_number o) +:+ ".pdf"])
              <$> orders))
  ∧ (resolve (cwd c) (OUTPUT_DIR c) ++ ["orders"] = cwd c ++ ["output"; "orders"] →
     ∃ members,
       fs w' !! (resolve (cwd c) (OUTPUT_DIR c) ++ ["receipts.zip"])
         = Some (File (Zip members))
       ∧ ∀ o, o ∈ orders →
           ∃ x y,
             fs w' !! (resolve (cwd c) (OUTPUT_DIR c)
                         ++ ["orders"; "order_" +:+ pretty (Order_number o) +:+ ".pdf"])
               = Some (File (Pdf [x; y]))
             ∧ members !! ["order_" +:+ pretty (Order_number o) +:+ ".pdf"]
               = Some (Pdf [x; y])).
Proof.
  intros Hget Hrun.
  destruct (completed_run_has_every_receipt c fuel w w1 w' orders Hget Hrun)
    as (Hall & Hnd & Hzip).
  split_and!.
  - intros o Ho. destruct (Hall o Ho) as (x & y & Hx).
    exists x, y. by rewrite <- resolve_pdf_file.
  - intros Hn. specialize (Hnd Hn).
    erewrite list_fmap_ext; [exact Hnd|]. intros i o _. simpl.
    by rewrite resolve_pdf_file.
  - intros Hd. destruct Hzip as (members & Hm & Hmem).
    { by rewrite resolve_ORDERS_DIR. }
    exists members. split; [done|]. intros o Ho.
    destruct (Hmem o Ho) as (x & y & Hx & Hy). exists x, y.
    split; [|done]. by rewrite <- resolve_pdf_file.
Qed.

Lemma completed_task_has_every_receipt_witness :
  let c := Scenario.at_home ∅ in
  let w := Scenario.start Scenario.two_orders 0 Scenario.ready_disk in
  let w' := state_of (order_robots_from_RobotSpareBin c 0 w) in
  (∃ x y, fs w' !! (resolve (cwd c) (OUTPUT_DIR c) ++ ["orders"; "order_2.pdf"])
          = Some (File (Pdf [x; y])))
  ∧ ∃ members,
      fs w' !! (resolve (cwd c) (OUTPUT_DIR c) ++ ["receipts.zip"])
        = Some (File (Zip members))
      ∧ ∃ x y,
          fs w' !! (resolve (cwd c) (OUTPUT_DIR c) ++ ["orders"; "order_2.pdf"])
            = Some (File (Pdf [x; y]))
          ∧ members !! ["order_2.pdf"] = Some (Pdf [x; y]).
Proof.
  intros c w w'.
  destruct (completed_task_has_every_receipt Scenario.two_orders c 0 w
              (state_of (get_orders c w)) w' [Scenario.order1; Scenario.order2])
    as (Hall & _ & Hzip).
  - vm_compute. reflexivity.
  - vm_compute. reflexivity.
  - assert (Hin : Scenario.order2 ∈ [Scenario.order1; Scenario.order2])
      by (apply elem_of_cons; right; apply elem_of_cons; by left).
    split.
    + exact (Hall Scenario.order2 Hin).
    + destruct Hzip as (members & Hm & Hall').
      * vm_compute. reflexivity.
      * exists members. split; [exact Hm|]. exact (Hall' Scenario.order2 Hin).
Defined.

(** ** The loop body, step by step *)

Section Loop_body.
Context {O : Outside} (c : Config).

Lemma for_each_app {A} (l1 l2 : list A) (body : A → M O unit) (w : World O) :
  for_each (l1 ++ l2) body w = (for_each l1 body ;; for_each l2 body) w.
Proof.
  revert w. induction l1 as [|x l1 IH]; intros w; simpl; [done|].
  rewrite !bind_unfold. destruct (body x w) as [[] w1|e w1|w1]; [|done..].
  by rewrite IH.
Qed.

(** Once the task has reached an order, what is left of it is the loop
    body for that order, the orders after it and the archive. *)
Lemma task_at_order fuel (ws w : World O) before o after :
  reaches c fuel ws before o after w →
  order_robots_from_RobotSpareBin c fuel ws
  = (order_body c fuel o ;;
     for_each after (order_body c fuel) ;;
     archive_receipts c) w.
Proof.
  intros (wa & wl & Hget & Hopen & Hloop).
  unfold order_robots_from_RobotSpareBin. rewrite (bind_Ok _ _ _ _ _ Hget).
  apply bind_Ok_inv in Hopen as ([] & w1 & H1 & Hopen).
  apply bind_Ok_inv in Hopen as ([] & w2 & H2 & H3).
  rewrite (bind_Ok _ _ _ _ _ H1), (bind_Ok _ _ _ _ _ H2), (bind_Ok _ _ _ _ _ H3).
  rewrite bind_unfold, for_each_app, (bind_Ok _ _ _ _ _ Hloop). simpl.
  rewrite !bind_unfold.
  by destruct (order_body c fuel o w) as [[] w3|e w3|w3].
Qed.

(** What follows a step only adds calls after the step's own. *)
Lemma trace_bind_prefix {A B} (m : M O A) (k : A → M O B) P (w : World O) :
  (∀ a, extends (k a) P) →
  ∃ evs, trace (state_of ((m ≫= k) w)) = trace (state_of (m w)) ++ evs.
Proof.
  intros Hk. rewrite bind_unfold.
  destruct (m w) as [a w1|e w1|w1]; simpl.
  - destruct (Hk a w1) as (evs & Ht & _). eauto.
  - exists []. by rewrite app_nil_r.
  - exists []. by rewrite app_nil_r.
Qed.

Lemma archive_receipts_silent :
  extends (archive_receipts c : M O unit) (λ evs, evs = []).
Proof.
  intros w. exists []. rewrite app_nil_r.
  unfold archive_receipts, archive_folder_with_zip.
  case_decide; [done|]. unfold on_fs; simpl. by destruct (FS.write_file _ _ _).
Qed.

Lemma after_the_order_quiet fuel after :
  extends (for_each after (order_body c fuel) ;; archive_receipts c : M O unit) quiet.
Proof.
  apply extends_seq; [apply _| |intros _; apply archive_receipts_quiet].
  apply extends_for_each; [apply _|]. intros x. apply order_body_quiet.
Qed.

Lemma after_the_form_quiet fuel n :
  extends (submit_order ;;
           while fuel (is_visible ".alert-danger") submit_order ;;
           store_receipt_as_pdf c n ;;
           create_new_order : M O unit) quiet.
Proof.
  apply extends_seq; [apply _|by apply call_quiet|intros _].
  apply extends_seq; [apply _| |intros _].
  { apply extends_while; [apply _|apply is_visible_quiet|by apply call_quiet]. }
  apply extends_seq; [apply _|apply store_receipt_as_pdf_quiet|intros _].
  by apply call_quiet.
Qed.

(** The modal step, as a case split on what the site answers. *)
Lemma close_annoying_modal_outcome (w : World O) :
  let seen := visible O (page w) ".modal-header" in
  let checked := mkWorld seen.1 (fs w) (trace w ++ [IsVisible ".modal-header"]) in
  close_annoying_modal w
  = if seen.2 then call (ClickRole "button" "OK") checked else Ok tt checked.
Proof.
  unfold close_annoying_modal, is_visible. rewrite bind_unfold.
  by destruct (visible O (page w) ".modal-header") as [s [|]].
Qed.

Lemma close_annoying_modal_trace (w : World O) :
  trace (state_of (close_annoying_modal w))
  = trace w ++ IsVisible ".modal-header"
      :: (if (visible O (page w) ".modal-header").2
          then [ClickRole "button" "OK"] else []).
Proof.
  rewrite close_annoying_modal_outcome.
  destruct (visible O (page w) ".modal-header") as [s [|]]; simpl; [|done].
  unfold call; simpl.
  destruct (act O s (ClickRole "button" "OK")) as [s' [msg|]]; simpl;
    by rewrite <- app_assoc.
Qed.

(** The form driver, as a case split on what the site answers to the
    four calls. *)
Lemma fill_the_form_outcome order (w : World O) :
  match accepts O (page w) (form_calls order) with
  | Some s' =>
      fill_the_form order w
      = Ok tt (mkWorld s' (fs w) (trace w ++ form_calls order))
  | None =>
      ∃ (k : nat) msg w',
        1 ≤ k ≤ 4
        ∧ fill_the_form order w = Raise (PlaywrightError msg) w'
        ∧ trace w' = trace w ++ take k (form_calls order)
        ∧ fs w' = fs w
  end.
Proof.
  unfold fill_the_form, set_head, set_body, set_legs, set_address.
  cbn [accepts form_calls].
  next_call; [exists 1; eexists _, _; split_and!; [lia|lia|done..]|].
  next_call; [exists 2; eexists _, _; rewrite <- !app_assoc;
              split_and!; [lia|lia|done..]|].
  next_call; [exists 3; eexists _, _; rewrite <- !app_assoc;
              split_and!; [lia|lia|done..]|].
  next_call; [exists 4; eexists _, _; rewrite <- !app_assoc;
              split_and!; [lia|lia|done..]|].
  by rewrite <- !app_assoc.
Qed.

(** The first call of the form driver is the head selection, whatever
    comes of it. *)
Lemma fill_the_form_starts order (w : World O) :
  ∃ rest, trace (state_of (fill_the_form order w))
          = trace w ++ SelectOption "select#head.custom-select" (Head order) :: rest.
Proof.
  pose proof (fill_the_form_outcome order w) as H.
  destruct (accepts O (page w) (form_calls order)) as [s'|].
  - rewrite H. simpl. by eexists.
  - destruct H as (k & msg & w' & Hk & -> & Ht & _). simpl. rewrite Ht.
    destruct k as [|k]; [lia|]. simpl. by eexists.
Qed.

(** In the loop body the form-fill starts in the world the modal step
    left, and nothing is filled if the modal step raises. *)
Lemma order_body_after_modal fuel order (w w1 : World O) :
  close_annoying_modal w = Ok tt w1 →
  ∃ rest, trace (state_of (order_body c fuel order w))
          = trace w1 ++ SelectOption "select#head.custom-select" (Head order) :: rest.
Proof.
  intros Hm. unfold order_body. rewrite (bind_Ok _ _ _ _ _ Hm).
  destruct (trace_bind_prefix (fill_the_form order)
              (λ _, submit_order ;;
                    while fuel (is_visible ".alert-danger") submit_order ;;
                    store_receipt_as_pdf c (Order_number order) ;;
                    create_new_order) quiet w1) as (e2 & He2).
  { intros _. apply after_the_form_quiet. }
  destruct (fill_the_form_starts order w1) as (rest & Hr).
  exists (rest ++ e2). rewrite He2, Hr, <- app_assoc. done.
Qed.

Lemma order_body_modal_raises fuel order (w w1 : World O) e :
  close_annoying_modal w = Raise e w1 →
  order_body c fuel order w = Raise e w1.
Proof. intros Hm. unfold order_body. by rewrite (bind_Raise _ _ _ _ _ Hm). Qed.

(** In the loop body the submit click follows the form-fill directly,
    and there is none if the form-fill raises. *)
Lemma order_body_after_form fuel order (w0 w w' : World O) :
  close_annoying_modal w0 = Ok tt w →
  fill_the_form order w = Ok tt w' →
  ∃ rest, trace (state_of (order_body c fuel order w0))
          = trace w' ++ ClickRole "button" "Order" :: rest.
Proof.
  intros Hm Hf. unfold order_body.
  rewrite (bind_Ok _ _ _ _ _ Hm), (bind_Ok _ _ _ _ _ Hf).
  destruct (trace_bind_prefix submit_order
              (λ _, while fuel (is_visible ".alert-danger") submit_order ;;
                    store_receipt_as_pdf c (Order_number order) ;;
                    create_new_order) quiet w') as (e2 & He2).
  { intros _. apply extends_seq; [apply _| |intros _].
    { apply extends_while; [apply _|apply is_visible_quiet|by apply call_quiet]. }
    apply extends_seq; [apply _|apply store_receipt_as_pdf_quiet|intros _].
    by apply call_quiet. }
  destruct (extends_call (ClickRole "button" "Order") w') as (e1 & He1 & ->).
  exists e2. rewrite He2. unfold submit_order. by rewrite He1, <- app_assoc.
Qed.

Lemma order_body_form_raises fuel order (w0 w w' : World O) e :
  close_annoying_modal w0 = Ok tt w →
  fill_the_form order w = Raise e w' →
  order_body c fuel order w0 = Raise e w'.
Proof.
  intros Hm Hf. unfold order_body.
  by rewrite (bind_Ok _ _ _ _ _ Hm), (bind_Raise _ _ _ _ _ Hf).
Qed.

(** The same, seen from the task. *)
Lemma task_continues fuel (ws w : World O) before o after t rest :
  reaches c fuel ws before o after w →
  trace (state_of (order_body c fuel o w)) = t ++ rest →
  ∃ rest', trace (state_of (order_robots_from_RobotSpareBin c fuel ws))
           = t ++ rest ++ rest'.
Proof.
  intros Hr Ht. rewrite (task_at_order _ _ _ _ _ _ Hr).
  destruct (trace_bind_prefix (order_body c fuel o)
              (λ _, for_each after (order_body c fuel) ;; archive_receipts c)
              quiet w) as (e2 & He2).
  { intros _. apply after_the_order_quiet. }
  exists e2. by rewrite He2, Ht, <- app_assoc.
Qed.

Lemma task_raises fuel (ws w w' : World O) before o after e :
  reaches c fuel ws before o after w →
  order_body c fuel o w = Raise e w' →
  order_robots_from_RobotSpareBin c fuel ws = Raise e w'.
Proof.
  intros Hr Hb. rewrite (task_at_order _ _ _ _ _ _ Hr).
  by rewrite (bind_Raise _ _ _ _ _ Hb).
Qed.

End Loop_body.

(** ** Every form-fill follows the modal step *)

#[global] Instance select_free_stable : Stable select_free.
Proof.
  split.
  - intros s v. apply not_elem_of_nil.
  - intros e1 e2 H1 H2 s v. rewrite elem_of_app. intros [H|H].
    + by apply (H1 s v).
    + by apply (H2 s v).
Qed.

Lemma select_free_follows evs : select_free evs → fill_follows_modal_step evs.
Proof.
  intros H pre s v post ->. destruct (H s v).
  apply elem_of_app. right. apply elem_of_cons. by left.
Qed.

#[global] Instance fill_follows_stable : Stable fill_follows_modal_step.
Proof.
  split.
  - intros pre s v post H. by destruct pre.
  - intros e1 e2 H1 H2 pre s v post H.
    apply app_eq_inv in H as [(k & Hpre & Hk)|(k & Hpre & Hk)].
    + destruct k as [|a k]; simpl in Hk.
      * destruct (H2 [] s v post) as [pre' [H|H]]; [done|by destruct pre'..].
      * injection Hk as <- Hk. by apply (H1 pre s v k).
    + destruct (H2 k s v post Hk) as [pre' [->| ->]]; exists (e1 ++ pre');
        [left|right]; by rewrite Hpre, app_assoc.
Qed.

Section Steps_without_selection.
Context {O : Outside} (P : list Call → Prop) `{!Stable P}.
Hypothesis P_single : ∀ a, (∀ s v, a ≠ SelectOption s v) → P [a].

Lemma call_other a : (∀ s v, a ≠ SelectOption s v) → extends (call a : M O unit) P.
Proof.
  intros Ha. eapply extends_weaken; [apply extends_call|].
  intros ? ->. by apply P_single.
Qed.

Lemma is_visible_other sel : extends (is_visible sel : M O bool) P.
Proof.
  eapply extends_weaken; [apply extends_is_visible|].
  intros ? ->. by apply P_single.
Qed.

Lemma locator_screenshot_other c l path :
  extends (locator_screenshot c l path : M O unit) P.
Proof.
  eapply extends_weaken; [apply extends_locator_screenshot|].
  intros ? ->. by apply P_single.
Qed.

Lemma store_receipt_as_pdf_other c n :
  extends (store_receipt_as_pdf c n : M O Path) P.
Proof.
  unfold store_receipt_as_pdf, store_receipt_capture, store_receipt_compose.
  apply extends_seq; [done| |intros _].
  - apply extends_seq; [done| |intros _].
    + apply extends_nothing; [done|apply extends_on_fs].
    + simpl. apply extends_seq; [done| |intros _];
        apply locator_screenshot_other.
  - apply extends_seq; [done| |intros saved].
    + apply extends_nothing; [done|]. intros w. exists []. by rewrite app_nil_r.
    + apply extends_seq; [done| |intros _].
      * destruct saved.
        -- apply extends_nothing; [done|]. intros w. exists []. rewrite app_nil_r.
           unfold add_files_to_pdf.
           destruct (read_all _ _); [done|]. split; [|done].
           unfold on_fs; simpl. by destruct (FS.write_file _ _ _).
        -- apply extends_nothing; [done|apply extends_raise].
      * apply extends_nothing; [done|apply extends_ret].
Qed.

Lemma get_orders_other c : extends (get_orders c : M O (list Order)) P.
Proof.
  intros w. exists [HttpGet CSV_URL]. split; [apply get_orders_trace|].
  by apply P_single.
Qed.

Lemma archive_receipts_other c : extends (archive_receipts c : M O unit) P.
Proof.
  apply extends_nothing; [done|apply archive_receipts_silent].
Qed.

Lemma extends_regroup {A B C} (m : M O A) (k : A → M O B) (h : B → M O C) :
  extends ((m ≫= k) ≫= h) P → extends (m ≫= (λ a, k a ≫= h)) P.
Proof.
  intros H w. specialize (H w). rewrite !bind_unfold in *.
  by destruct (m w) as [a w1|e w1|w1].
Qed.

(** If the modal step followed by the form-fill keeps [P], so do the
    loop body and the task. *)
Lemma order_body_other c fuel order :
  extends (close_annoying_modal ;; fill_the_form order : M O unit) P →
  extends (order_body c fuel order : M O unit) P.
Proof.
  intros Hmf. unfold order_body.
  apply (extends_regroup close_annoying_modal (λ _, fill_the_form order)).
  apply extends_seq; [done|exact Hmf|intros _].
  apply extends_seq; [done|by apply call_other|intros _].
  apply extends_seq; [done| |intros _].
  { apply extends_while; [done|apply is_visible_other|by apply call_other]. }
  apply extends_seq; [done|apply store_receipt_as_pdf_other|intros _].
  by apply call_other.
Qed.

Lemma task_other c fuel :
  (∀ order, extends (close_annoying_modal ;; fill_the_form order : M O unit) P) →
  extends (order_robots_from_RobotSpareBin c fuel : M O unit) P.
Proof.
  intros Hmf.
  unfold order_robots_from_RobotSpareBin, open_robot_order_website, go_to_order_page.
  apply extends_seq; [done|apply get_orders_other|intros orders].
  apply extends_seq; [done| |intros _].
  { apply extends_seq; [done| |intros _]; by apply call_other. }
  apply extends_seq; [done|by apply call_other|intros _].
  apply extends_seq; [done|by apply call_other|intros _].
  apply extends_seq; [done| |intros _; apply archive_receipts_other].
  apply extends_for_each; [done|]. intros x. by apply order_body_other.
Qed.

End Steps_without_selection.

Section Modal_then_form.
Context {O : Outside}.

Lemma take_form_calls_select_free (k : nat) order :
  take k (form_calls order) = []
  ∨ ∃ l, take k (form_calls order)
         = SelectOption "select#head.custom-select" (Head order) :: l
         ∧ select_free l.
Proof.
  destruct k as [|k]; [by left|]. right. eexists. split; [done|].
  intros s v H%subseteq_take.
  repeat (apply elem_of_cons in H as [H|H]; [discriminate H|]).
  by apply elem_of_nil in H.
Qed.

Lemma modal_then_form_follows order :
  extends (close_annoying_modal ;; fill_the_form order : M O unit)
          fill_follows_modal_step.
Proof.
  intros w.
  destruct (close_annoying_modal_cases w) as (pre & w1 & Hpre & Hm & Ht1 & _).
  assert (Hfree : select_free pre).
  { intros s v H. destruct Hpre as [-> | ->];
      repeat (apply elem_of_cons in H as [H|H]; [discriminate H|]);
      by apply elem_of_nil in H. }
  assert (Hend : ∃ pre', pre = pre' ++ [IsVisible ".modal-header"]
                         ∨ pre = pre' ++ [IsVisible ".modal-header";
                                          ClickRole "button" "OK"]).
  { exists []. simpl. tauto. }
  destruct Hm as [Hm|[e Hm]].
  2:{ rewrite (bind_Raise _ _ _ _ _ Hm). exists pre. split; [done|].
      by apply select_free_follows. }
  rewrite (bind_Ok _ _ _ _ _ Hm).
  assert (∃ k, trace (state_of (fill_the_form order w1))
               = trace w1 ++ take k (form_calls order)) as (k & Hk).
  { destruct (fill_the_form_cases order w1)
      as [(k & e & w2 & _ & -> & Ht & _)|(w2 & -> & Ht & _)]; [by exists k|].
    by exists 4. }
  exists (pre ++ take k (form_calls order)).
  rewrite Hk, Ht1, <- app_assoc. split; [done|].
  destruct (take_form_calls_select_free k order) as [->|(l & -> & Hl)].
  { rewrite app_nil_r. by apply select_free_follows. }
  intros p s v post H.
  apply app_eq_inv in H as [(x & Hp & Hx)|(x & Hp & Hx)].
  - destruct x as [|a x]; simpl in Hx.
    + rewrite app_nil_r in Hp. by subst p.
    + injection Hx as <- Hx. destruct (Hfree s v). rewrite Hp.
      apply elem_of_app. right. apply elem_of_cons. by left.
  - destruct x as [|a x]; simpl in Hx.
    + rewrite app_nil_r in Hp. by subst p.
    + injection Hx as _ Hx. destruct (Hl s v). rewrite Hx.
      apply elem_of_app. right. apply elem_of_cons. by left.
Qed.

Lemma task_fill_follows_modal_step c fuel :
  extends (order_robots_from_RobotSpareBin c fuel : M O unit)
          fill_follows_modal_step.
Proof.
  apply task_other; [apply _| |apply modal_then_form_follows].
  intros a Ha. apply select_free_follows. intros s v H.
  apply elem_of_cons in H as [H|H]; [by destruct (Ha s v)|].
  by apply elem_of_nil in H.
Qed.

(** The first occurrence of a call in a list. *)
Lemma first_occurrence (a : Call) (l r p post : list Call) :
  a ∉ l → l ++ a :: r = p ++ a :: post → ∃ mid, p = l ++ mid.
Proof.
  revert p. induction l as [|x l IH]; intros p Hl H; [by exists p|].
  destruct p as [|y p]; simpl in H.
  - injection H as -> _. destruct Hl. apply elem_of_cons. by left.
  - injection H as -> H. destruct (IH p) as (mid & ->); [|done|by exists mid].
    intros Hin. destruct Hl. apply elem_of_cons. by right.
Qed.

Lemma order_body_submit_only_after c fuel order :
  extends (order_body c fuel order : M O unit)
          (submit_only_after (form_calls order)).
Proof.
  intros w0.
  destruct (close_annoying_modal_cases w0) as (pre & w1 & Hpre & Hm & Ht1 & _).
  assert (Hnone : ∀ k, ClickRole "button" "Order" ∉ pre ++ take k (form_calls order)).
  { intros k H. apply elem_of_app in H as [H|H].
    - destruct Hpre as [-> | ->];
        repeat (apply elem_of_cons in H as [H|H]; [discriminate H|]);
        by apply elem_of_nil in H.
    - apply subseteq_take in H.
      repeat (apply elem_of_cons in H as [H|H]; [discriminate H|]).
      by apply elem_of_nil in H. }
  assert (Hno : ∀ k, submit_only_after (form_calls order)
                       (pre ++ take k (form_calls order))).
  { intros k p post H. destruct (Hnone k). rewrite H.
    apply elem_of_app. right. apply elem_of_cons. by left. }
  destruct Hm as [Hm|[e Hm]].
  2:{ rewrite (order_body_modal_raises c fuel order _ _ _ Hm). exists pre.
      split; [done|]. specialize (Hno 0). by rewrite app_nil_r in Hno. }
  pose proof (fill_the_form_outcome order w1) as Hf.
  destruct (accepts O (page w1) (form_calls order)) as [s'|].
  - destruct (order_body_after_form c fuel order _ _ _ Hm Hf) as (rest & Hr).
    exists (pre ++ form_calls order ++ ClickRole "button" "Order" :: rest).
    split; [rewrite Hr; simpl; rewrite Ht1, <- !app_assoc; done|].
    intros p post H. rewrite app_assoc in H.
    apply first_occurrence in H as (mid & ->); [|exact (Hnone 4)].
    exists pre, mid. by rewrite <- app_assoc.
  - destruct Hf as (k & msg & w2 & _ & Hf & Ht2 & _).
    rewrite (order_body_form_raises c fuel order _ _ _ _ Hm Hf).
    exists (pre ++ take k (form_calls order)). simpl.
    rewrite Ht2, Ht1, <- app_assoc. split; [done|apply Hno].
Qed.

End Modal_then_form.

(** C8. The modal-dismissal step asks whether the modal header is visible
    and clicks the OK button exactly when it is: when the header is not
    visible it returns normally, having clicked nothing and changed no
    file, and when it is visible its outcome is that of the click on OK.
    The step is run before every order's form-fill: in every run of the
    task each head selection comes directly after the calls of the step;
    and in the loop body, and in the task whenever it reaches an order,
    the step is run first and the head selection of that order follows
    its calls directly, or, if the step raises, the body and the task
    end with that exception and nothing is filled. *)
Theorem close_annoying_modal_clicks_iff_visible (O : Outside) (w : World O) :
  let seen := visible O (page w) ".modal-header" in
  let checked := mkWorld seen.1 (fs w) (trace w ++ [IsVisible ".modal-header"]) in
  trace (state_of (close_annoying_modal w))
    = trace w ++ IsVisible ".modal-header"
        :: (if seen.2 then [ClickRole "button" "OK"] else [])
  ∧ (seen.2 = false → close_annoying_modal w = Ok tt checked)
  ∧ (seen.2 = true →
     close_annoying_modal w = call (ClickRole "button" "OK") checked)
  ∧ (∀ c fuel, ∃ evs,
       trace (state_of (order_robots_from_RobotSpareBin c fuel w)) = trace w ++ evs
       ∧ modal_checked_before_each_fill evs = true
       ∧ fill_follows_modal_step evs)
  ∧ (∀ c fuel order,
       (∀ w1, close_annoying_modal w = Ok tt w1 →
          ∃ rest,
            trace (state_of (order_body c fuel order w))
            = trace w1 ++ SelectOption "select#head.custom-select" (Head order)
                :: rest)
       ∧ (∀ e w1, close_annoying_modal w = Raise e w1 →
            order_body c fuel order w = Raise e w1))
  ∧ (∀ c fuel ws before o after,
       reaches c fuel ws before o after w →
       (∀ w1, close_annoying_modal w = Ok tt w1 →
          ∃ rest,
            trace (state_of (order_robots_from_RobotSpareBin c fuel ws))
            = trace w1 ++ SelectOption "select#head.custom-select" (Head o)
                :: rest)
       ∧ (∀ e w1, close_annoying_modal w = Raise e w1 →
            order_robots_from_RobotSpareBin c fuel ws = Raise e w1)).
Proof.
  cbv zeta. split_and!.
  - apply close_annoying_modal_trace.
  - intros Hs. by rewrite close_annoying_modal_outcome, Hs.
  - intros Hs. by rewrite close_annoying_modal_outcome, Hs.
  - intros c fuel. destruct (task_quiet c fuel w) as (evs & Ht & Hq).
    destruct (task_fill_follows_modal_step c fuel w) as (evs' & Ht' & Hf).
    rewrite Ht in Ht'. apply app_inv_head in Ht' as <-.
    exists evs. split_and!; [done| |done].
    unfold modal_checked_before_each_fill. apply bool_decide_eq_true.
    apply Hq. by eexists.
  - intros c fuel order. split.
    + intros w1 Hm. by apply order_body_after_modal.
    + intros e w1 Hm. by apply order_body_modal_raises.
  - intros c fuel ws before o after Hr. split.
    + intros w1 Hm.
      destruct (order_body_after_modal c fuel o w w1 Hm) as (rest & Hrest).
      destruct (task_continues c fuel ws w before o after _ _ Hr Hrest)
        as (rest' & Ht).
      exists (rest ++ rest'). by rewrite Ht.
    + intros e w1 Hm. eapply task_raises; [done|].
      by apply order_body_modal_raises.
Qed.

Lemma close_annoying_modal_witness :
  let O := Scenario.popup Scenario.willing in
  let c := Scenario.at_home ∅ in
  let ws := Scenario.start O (false, 1) Scenario.ready_disk in
  let wa := state_of (get_orders c ws) in
  let wl := state_of ((open_robot_order_website ;;
                       call (SetDefaultTimeout 10000) ;;
                       go_to_order_page) wa) in
  let w := state_of (order_body c 1 Scenario.order1 wl) in
  let w1 := state_of (close_annoying_modal w) in
  trace w1 = trace w ++ [IsVisible ".modal-header"; ClickRole "button" "OK"]
  ∧ (∃ rest,
       trace (state_of (order_robots_from_RobotSpareBin c 1 ws))
       = trace w1 ++ SelectOption "select#head.custom-select" "3" :: rest)
  ∧ (let O' := Scenario.popup Scenario.dead_ok_button in
     let w' := Scenario.start O' (true, 0) Scenario.ready_disk in
     order_body c 1 Scenario.order1 w'
     = Raise (PlaywrightError "Timeout 10000ms exceeded.")
         (@mkWorld O' (true, 0) Scenario.ready_disk
            [IsVisible ".modal-header"; ClickRole "button" "OK"])).
Proof.
  intros O c ws wa wl w w1.
  destruct (close_annoying_modal_clicks_iff_visible O w)
    as (Hstep & _ & _ & _ & _ & Htask).
  split; [exact Hstep|]. split.
  - destruct (Htask c 1 ws [Scenario.order1] Scenario.order2 []) as [Hok _].
    + exists wa, wl. split_and!; vm_compute; reflexivity.
    + apply (Hok w1). vm_compute. reflexivity.
  - intros O' w'.
    destruct (close_annoying_modal_clicks_iff_visible O' w')
      as (_ & _ & _ & _ & Hbody & _).
    destruct (Hbody c 1 Scenario.order1) as [_ Hraise].
    apply Hraise. vm_compute. reflexivity.
Defined.

(** C9. For every order, the form driver makes exactly the four form
    calls, in the order head selection, body click (selector generated
    from the body value), legs field, address field: it returns, with
    these four calls made, exactly when the site takes all four, and
    otherwise raises at the first call the site refuses.  The submit
    control is clicked only after all four: in the loop body, and in the
    task whenever it reaches the order, the submit click follows the
    fourth form call directly when the form-fill returns, and is not made
    at all when the form-fill raises; and every submit click of the loop
    body has the four form calls of the order before it. *)
Theorem fill_the_form_four_controls_then_submit
    (O : Outside) (w : World O) (order : Order) :
  (∃ k : nat, 1 ≤ k ≤ 4
        ∧ trace (state_of (fill_the_form order w))
            = trace w ++ take k (form_calls order)
        ∧ (∀ w', fill_the_form order w = Ok tt w' → k = 4))
  ∧ (∀ s', accepts O (page w) (form_calls order) = Some s' →
       fill_the_form order w
       = Ok tt (mkWorld s' (fs w) (trace w ++ form_calls order)))
  ∧ (accepts O (page w) (form_calls order) = None →
     ∃ msg w', fill_the_form order w = Raise (PlaywrightError msg) w')
  ∧ (∀ c fuel w0,
       close_annoying_modal w0 = Ok tt w →
       (∀ w', fill_the_form order w = Ok tt w' →
          ∃ rest,
            trace (state_of (order_body c fuel order w0))
            = trace w' ++ ClickRole "button" "Order" :: rest)
       ∧ (∀ e w', fill_the_form order w = Raise e w' →
            order_body c fuel order w0 = Raise e w'))
  ∧ (∀ c fuel ws before after w0,
       reaches c fuel ws before order after w0 →
       close_annoying_modal w0 = Ok tt w →
       (∀ w', fill_the_form order w = Ok tt w' →
          ∃ rest,
            trace (state_of (order_robots_from_RobotSpareBin c fuel ws))
            = trace w' ++ ClickRole "button" "Order" :: rest)
       ∧ (∀ e w', fill_the_form order w = Raise e w' →
            order_robots_from_RobotSpareBin c fuel ws = Raise e w'))
  ∧ (∀ c fuel, ∃ evs,
       trace (state_of (order_body c fuel order w)) = trace w ++ evs
       ∧ submit_only_after (form_calls order) evs).
Proof.
  pose proof (fill_the_form_outcome order w) as Hout.
  split_and!.
  - destruct (accepts O (page w) (form_calls order)) as [s'|].
    + exists 4. rewrite Hout. simpl. split_and!; [lia|lia|done|done].
    + destruct Hout as (k & msg & w' & Hk & Hf & Ht & _). exists k.
      rewrite Hf. simpl. split_and!; [lia|lia|done|done].
  - intros s' Hs. by rewrite Hs in Hout.
  - intros Hs. rewrite Hs in Hout.
    destruct Hout as (k & msg & w' & _ & Hf & _). eauto.
  - intros c fuel w0 Hm. split.
    + intros w' Hf. by eapply order_body_after_form.
    + intros e w' Hf. by eapply order_body_form_raises.
  - intros c fuel ws before after w0 Hr Hm. split.
    + intros w' Hf.
      destruct (order_body_after_form c fuel order w0 w w' Hm Hf) as (rest & Hrest).
      destruct (task_continues c fuel ws w0 before order after _ _ Hr Hrest)
        as (rest' & Ht).
      exists (rest ++ rest'). by rewrite Ht.
    + intros e w' Hf. eapply task_raises; [done|].
      by eapply order_body_form_raises.
  - intros c fuel. apply order_body_submit_only_after.
Qed.

Lemma fill_the_form_witness :
  let c := Scenario.at_home ∅ in
  (let O := Scenario.popup Scenario.willing in
   let ws := Scenario.start O (false, 1) Scenario.ready_disk in
   let wa := state_of (get_orders c ws) in
   let wl := state_of ((open_robot_order_website ;;
                        call (SetDefaultTimeout 10000) ;;
                        go_to_order_page) wa) in
   let w0 := state_of (order_body c 1 Scenario.order1 wl) in
   let w := state_of (close_annoying_modal w0) in
   ∃ rest,
     trace (state_of (order_robots_from_RobotSpareBin c 1 ws))
     = trace w ++ form_calls Scenario.order2
         ++ ClickRole "button" "Order" :: rest)
  ∧ (let O := Scenario.popup Scenario.no_legs_field in
     let w0 := Scenario.start O (true, 0) Scenario.ready_disk in
     let w := state_of (close_annoying_modal w0) in
     order_body c 1 Scenario.order1 w0
     = Raise (PlaywrightError "Timeout 10000ms exceeded.")
         (@mkWorld O (false, 0) Scenario.ready_disk
            (trace w ++ take 3 (form_calls Scenario.order1)))).
Proof.
  intros c. split.
  - intros O ws wa wl w0 w.
    destruct (fill_the_form_four_controls_then_submit O w Scenario.order2)
      as (_ & Hfill & _ & _ & Htask & _).
    destruct (Htask c 1 ws [Scenario.order1] [] w0) as [Hok _].
    + exists wa, wl. split_and!; vm_compute; reflexivity.
    + vm_compute. reflexivity.
    + destruct (Hok _ (Hfill ((false, 0) : site O) ltac:(vm_compute; reflexivity)))
        as (rest & Hrest).
      exists rest. rewrite Hrest. cbn [trace]. by rewrite <- app_assoc.
  - intros O w0 w.
    destruct (fill_the_form_four_controls_then_submit O w Scenario.order1)
      as (_ & _ & _ & Hbody & _).
    destruct (Hbody c 1 w0) as [_ Hraise].
    + vm_compute. reflexivity.
    + apply Hraise. vm_compute. reflexivity.
Defined.

(** ** The calls of a completed task, order by order *)

Section Blocks.
Context {O : Outside} (c : Config).

Lemma yields_exactly {A B} (m : M O A) (k : A → M O B) l1 l2 :
  yields m (λ evs, evs = l1) → (∀ a, yields (k a) (λ evs, evs = l2)) →
  yields (m ≫= k) (λ evs, evs = l1 ++ l2).
Proof.
  intros Hm Hk. eapply yields_weaken; [by apply yields_bind|].
  by intros evs (e1 & e2 & -> & -> & ->).
Qed.

Lemma yields_nothing {A} (m : M O A) :
  (∀ w a w', m w = Ok a w' → trace w' = trace w) → yields m (λ evs, evs = []).
Proof. intros H w a w' Hw. exists []. rewrite app_nil_r. eauto. Qed.

Lemma call_Ok_trace a (w w' : World O) :
  call a w = Ok tt w' → trace w' = trace w ++ [a].
Proof.
  unfold call. destruct (act O (page w) a) as [s [msg|]]; [done|].
  by intros [= <-].
Qed.

Lemma submit_loop_Ok_trace fuel (w w' : World O) :
  while fuel (is_visible ".alert-danger") submit_order w = Ok tt w' →
  ∃ k, trace w'
       = trace w
         ++ concat (replicate k [IsVisible ".alert-danger"; ClickRole "button" "Order"])
         ++ [IsVisible ".alert-danger"].
Proof.
  revert w. induction fuel as [|n IH]; intros w; simpl; unfold is_visible;
    destruct (visible O (page w) ".alert-danger") as [s [|]]; simpl.
  - done.
  - intros [= <-]. by exists 0.
  - unfold submit_order, call; simpl.
    destruct (act O s (ClickRole "button" "Order")) as [s' [msg|]]; [done|].
    intros (k & ->)%IH. exists (S k). simpl. by rewrite <- !app_assoc.
  - intros [= <-]. by exists 0.
Qed.

Lemma store_receipt_as_pdf_Ok_trace n :
  yields (store_receipt_as_pdf c n : M O Path)
         (λ evs, evs = [ Screenshot "#receipt" (Path_str (receipt_file c n));
                         Screenshot "#robot-preview-image"
                           (Path_str (robot_file c n)) ]).
Proof.
  unfold store_receipt_as_pdf, store_receipt_capture, store_receipt_compose.
  apply (yields_exactly _ _ [_; _] []); [|intros _].
  - apply (yields_exactly _ _ [] [_; _]);
      [apply yields_of_extends, extends_on_fs|intros _].
    cbn [truth_value].
    apply (yields_exactly _ _ [_] [_]); [|intros _];
      apply yields_of_extends, extends_locator_screenshot.
  - apply (yields_exactly _ _ [] []); [|intros ok].
    { apply yields_nothing. by intros w a w' [= _ <-]. }
    apply (yields_exactly _ _ [] []);
      [|intros _; apply yields_of_extends, extends_ret].
    destruct ok; [apply yields_of_extends, add_files_to_pdf_silent|].
    apply yields_of_extends, extends_raise.
Qed.

Lemma order_body_Ok_trace fuel o :
  yields (order_body c fuel o : M O unit)
         (λ evs, ∃ shown retries, evs = order_block c o shown retries).
Proof.
  intros w [] w'. unfold order_body.
  intros ([] & wa & Ha & H)%bind_Ok_inv.
  apply bind_Ok_inv in H as ([] & wb & Hb & H).
  apply bind_Ok_inv in H as ([] & wc & Hc & H).
  apply bind_Ok_inv in H as ([] & wd & Hd & H).
  apply bind_Ok_inv in H as (p & we & He & Hf).
  pose proof (close_annoying_modal_trace w) as Hta. rewrite Ha in Hta. simpl in Hta.
  destruct (fill_the_form_cases o wa)
    as [(k & e & w2 & _ & Hf' & _)|(w2 & Hf' & Htb & _)]; [congruence|].
  rewrite Hb in Hf'. injection Hf' as <-.
  apply call_Ok_trace in Hc as Htc.
  apply submit_loop_Ok_trace in Hd as (retries & Htd).
  destruct (store_receipt_as_pdf_Ok_trace _ _ _ _ He) as (e2 & Hte & ->).
  apply call_Ok_trace in Hf as Htf.
  exists (order_block c o (visible O (page w) ".modal-header").2 retries).
  split; [|by eexists _, _].
  rewrite Htf, Hte, Htd, Htc, Htb, Hta. unfold order_block.
  rewrite <- !app_assoc. simpl. by destruct (visible O (page w) ".modal-header").2.
Qed.

Lemma for_each_Ok_trace fuel orders :
  yields (for_each orders (order_body c fuel) : M O unit)
         (λ evs, ∃ runs, length runs = length orders
                         ∧ evs = order_blocks c orders runs).
Proof.
  induction orders as [|o r IH]; simpl.
  - intros w [] w' [= <-]. exists []. rewrite app_nil_r. split; [done|].
    by exists [].
  - eapply yields_weaken;
      [apply yields_bind; [apply order_body_Ok_trace|intros _; apply IH]|].
    intros evs (e1 & e2 & -> & (shown & retries & ->) & (runs & Hl & ->)).
    exists ((shown, retries) :: runs). simpl. by rewrite Hl.
Qed.

Lemma task_Ok_trace fuel orders (w w1 w' : World O) :
  get_orders c w = Ok orders w1 →
  order_robots_from_RobotSpareBin c fuel w = Ok tt w' →
  ∃ runs, length runs = length orders
          ∧ trace w' = trace w ++ setup_calls ++ order_blocks c orders runs.
Proof.
  intros Hget. unfold order_robots_from_RobotSpareBin.
  rewrite (bind_Ok _ _ _ _ _ Hget).
  pose proof (get_orders_trace c w) as Ht1. rewrite Hget in Ht1. simpl in Ht1.
  unfold open_robot_order_website, go_to_order_page.
  intros ([] & wa & Ha & H)%bind_Ok_inv.
  apply bind_Ok_inv in Ha as ([] & wa1 & Ha1 & Ha2).
  apply bind_Ok_inv in H as ([] & wb & Hb & H).
  apply bind_Ok_inv in H as ([] & wc & Hc & H).
  apply bind_Ok_inv in H as ([] & wd & Hd & He).
  apply call_Ok_trace in Ha1 as Hta1. apply call_Ok_trace in Ha2 as Hta2.
  apply call_Ok_trace in Hb as Htb. apply call_Ok_trace in Hc as Htc.
  destruct (for_each_Ok_trace _ _ _ _ _ Hd) as (evs & Htd & runs & Hl & ->).
  destruct (archive_receipts_silent c wd) as (? & Hte & ->).
  rewrite He in Hte. simpl in *.
  exists runs. split; [done|].
  rewrite Hte, app_nil_r, Htd, Htc, Htb, Hta2, Hta1, Ht1. unfold setup_calls.
  rewrite <- !app_assoc. done.
Qed.

End Blocks.

(** X13. In a task that completes (lines 31-43), the orders are worked
    through one by one in the order of the table.  After the download
    and the four calls that open the order page, the calls are one block
    per row, in table order, and nothing else: the modal step, the four
    form calls with that row's values, the submit click with its retries,
    the captures of the receipt and of the robot to the files named after
    that row's order number, and the click for the next order.  So the
    heads selected, the receipt captures and the clicks for a next order
    are those of the rows, in table order. *)
Theorem orders_are_processed_in_table_order
    (O : Outside) (c : Config) (fuel : nat) (w w1 w' : World O)
    (orders : list Order) :
  get_orders c w = Ok orders w1 →
  order_robots_from_RobotSpareBin c fuel w = Ok tt w' →
  ∃ runs evs,
    length runs = length orders
    ∧ evs = setup_calls ++ order_blocks c orders runs
    ∧ trace w' = trace w ++ evs
    ∧ selected_heads evs = Head <$> orders
    ∧ receipt_shots evs
      = (λ o, Path_str (OUTPUT_DIR c /p ("receipt_" +:+ pretty (Order_number o) +:+ ".png")))
          <$> orders
    ∧ new_order_clicks evs = length orders.
Proof.
  intros Hget Hrun.
  destruct (task_Ok_trace c fuel orders w w1 w' Hget Hrun) as (runs & Hl & Ht).
  exists runs. eexists. split; [done|]. split; [done|]. split; [done|].
  revert Hrun. unfold order_robots_from_RobotSpareBin.
  rewrite (bind_Ok _ _ _ _ _ Hget). intros Hrest.
  destruct (after_fetch_shows c fuel orders w1 tt w' Hrest)
    as (evs & Ht' & Hh & Hp & Hk).
  pose proof (get_orders_trace c w) as Ht1. rewrite Hget in Ht1. simpl in Ht1.
  rewrite Ht', Ht1, <- app_assoc in Ht. apply app_inv_head in Ht.
  rewrite <- Ht. done.
Qed.

Lemma orders_are_processed_witness :
  let O := Scenario.popup Scenario.willing in
  let c := Scenario.at_home ∅ in
  let w := Scenario.start O (false, 1) Scenario.ready_disk in
  ∃ runs,
    length runs = 2
    ∧ trace (state_of (order_robots_from_RobotSpareBin c 1 w))
      = trace w ++ setup_calls
          ++ order_blocks c [Scenario.order1; Scenario.order2] runs.
Proof.
  intros O c w.
  destruct (orders_are_processed_in_table_order O c 1 w
              (state_of (get_orders c w))
              (state_of (order_robots_from_RobotSpareBin c 1 w))
              [Scenario.order1; Scenario.order2])
    as (runs & evs & Hl & -> & Ht & _).
  - vm_compute. reflexivity.
  - vm_compute. reflexivity.
  - exists runs. split; [exact Hl|exact Ht].
Defined.

(** The calls of a whole run on the shop with the modal, which rejects
    the first submission once: two blocks, the modal dismissed in both,
    one retry in the first. *)
Example popup_run_calls :
  let c := Scenario.at_home ∅ in
  let w := Scenario.start (Scenario.popup Scenario.willing) (false, 1)
             Scenario.ready_disk in
  order_robots_from_RobotSpareBin c 1 w
  = Ok tt (state_of (order_robots_from_RobotSpareBin c 1 w))
  ∧ trace (state_of (order_robots_from_RobotSpareBin c 1 w))
    = setup_calls
        ++ order_block c Scenario.order1 true 1
        ++ order_block c Scenario.order2 true 0.
Proof. cbv zeta. split; vm_compute; reflexivity. Qed.
